(** * zigpy.datastructures: priority semaphore, reschedulable timeout, debouncer

    A shallow embedding of [src/zigpy/datastructures.py].  Python integers
    are [Z]; the event loop's monotonic clock is read in integer ticks, so
    times are [Z] as well.  Objects with identity only (futures, debounced
    objects, timer handles) are numbered by [nat]; the objects that the
    code shares between a container and a suspended coroutine (futures,
    timer handles) live in a store that every alias reads and writes. *)

From stdpp Require Import base list gmap sorting strings pretty.
From Stdlib Require Import ZArith Lia.

Local Open Scope Z_scope.

(** ** Exceptions and results *)

(** The exception classes the module raises or lets through.
    [UserError n] stands for any other exception object handed to
    [cancel_waiting]. *)
Inductive exn : Type :=
| ValueError
| RuntimeError
| TypeError
| KeyError
| IndexError
| CancelledError
| UserError (n : nat).

#[global] Instance exn_eq_dec : EqDecision exn.
Proof. solve_decision. Defined.

Inductive result (A : Type) : Type :=
| Return (a : A)
| Raise (e : exn).
Arguments Return {A} a.
Arguments Raise {A} e.

(** ** Sorted tuple lists ([bisect.insort_right], [list.remove], [list.pop]) *)

(** Both sorted containers of the module hold 3-tuples
    [(negated key, counter, payload)]: the semaphore stores
    [(-priority, count, fut)] and the debouncer
    [(-(now + expire_in), dedup_counter, obj)].  The payload is an object
    that supports [==] (identity) and nothing else. *)
Definition entry : Type := Z * Z * nat.

Definition entry_neg (x : entry) : Z := x.1.1.
Definition entry_count (x : entry) : Z := x.1.2.
Definition entry_obj (x : entry) : nat := x.2.

(** Python's [x < y] on two such tuples: the first position where the
    tuples differ decides; when that position is the payload, the payloads
    themselves are asked for [<], which objects without an order answer
    with [TypeError]. *)
Definition tuple_lt (x y : entry) : result bool :=
  if negb (entry_neg x =? entry_neg y) then Return (entry_neg x <? entry_neg y)
  else if negb (entry_count x =? entry_count y) then Return (entry_count x <? entry_count y)
  else if negb (entry_obj x =? entry_obj y)%nat then Raise TypeError
  else Return false.

(** Python's [x == y] on two such tuples. *)
Definition tuple_eqb (x y : entry) : bool :=
  (entry_neg x =? entry_neg y) && (entry_count x =? entry_count y)
  && (entry_obj x =? entry_obj y)%nat.

(** [bisect.bisect_right(a, x)]:
<<
    while lo < hi:
        mid = (lo + hi) // 2
        if x < a[mid]: hi = mid
        else: lo = mid + 1
    return lo
>>
    The loop halves [hi - lo], so [length a] rounds of fuel are enough
    (see [bisect_right_loop_fuel]). *)
Fixpoint bisect_right_loop (fuel : nat) (a : list entry) (x : entry)
    (lo hi : nat) : result nat :=
  match fuel with
  | O => Return lo
  | S fuel' =>
      if (lo <? hi)%nat then
        let mid := ((lo + hi) / 2)%nat in
        match a !! mid with
        | None => Raise IndexError
        | Some y =>
            match tuple_lt x y with
            | Raise e => Raise e
            | Return true => bisect_right_loop fuel' a x lo mid
            | Return false => bisect_right_loop fuel' a x (S mid) hi
            end
        end
      else Return lo
  end.

Definition bisect_right (a : list entry) (x : entry) : result nat :=
  bisect_right_loop (length a) a x 0 (length a).

(** [a.insert(i, x)] *)
Definition list_insert_at (i : nat) (x : entry) (a : list entry) : list entry :=
  take i a ++ x :: drop i a.

(** [bisect.insort_right(a, x)] *)
Definition insort_right (a : list entry) (x : entry) : result (list entry) :=
  match bisect_right a x with
  | Raise e => Raise e
  | Return lo => Return (list_insert_at lo x a)
  end.

(** [a.remove(x)]: drops the first element equal to [x]; [ValueError]
    (here [None]) when there is none. *)
Fixpoint list_remove (x : entry) (a : list entry) : option (list entry) :=
  match a with
  | [] => None
  | y :: a' =>
      if tuple_eqb y x then Some a'
      else match list_remove x a' with
           | None => None
           | Some r => Some (y :: r)
           end
  end.

(** The order the tuples are kept in: by negated key, then by counter. *)
Definition key_lt (x y : entry) : Prop :=
  entry_neg x < entry_neg y
  \/ (entry_neg x = entry_neg y /\ entry_count x < entry_count y).

Definition same_prefix (x y : entry) : Prop :=
  entry_neg x = entry_neg y /\ entry_count x = entry_count y.

Definition same_prefixb (x y : entry) : bool :=
  (entry_neg x =? entry_neg y) && (entry_count x =? entry_count y).

Definition sorted (a : list entry) : Prop := StronglySorted key_lt a.

(** ** PriorityDynamicBoundedSemaphore *)

Module Semaphore.

(** The state of an [asyncio.Future]: pending, finished with a result,
    finished with an exception, or cancelled. *)
Inductive fut_state : Type :=
| FutPending
| FutResult
| FutException (e : exn)
| FutCancelled.

(** The semaphore object together with the futures it created.  A future
    is referenced both from [_waiters] and from the coroutine suspended on
    it, so the futures are kept in a store indexed by identity;
    [next_future] is the identity [create_future()] hands out next. *)
Record semaphore : Type := {
  _value : Z;
  _max_value : Z;
  _comparison_counter : Z;
  _waiters : list entry;
  _loop : option nat;
  futures : gmap nat fut_state;
  next_future : nat
}.

(** [__init__(value)] *)
Definition init (value : Z) : semaphore :=
  {| _value := value; _max_value := value; _comparison_counter := 0;
     _waiters := []; _loop := None; futures := ∅; next_future := 0 |}.

Definition fut_state_of (fs : gmap nat fut_state) (f : nat) : fut_state :=
  default FutPending (fs !! f).

(** [fut.done()] and [fut.cancelled()] *)
Definition fut_done (fs : gmap nat fut_state) (f : nat) : bool :=
  match fut_state_of fs f with FutPending => false | _ => true end.

Definition fut_cancelled (fs : gmap nat fut_state) (f : nat) : bool :=
  match fut_state_of fs f with FutCancelled => true | _ => false end.

Definition with_value (s : semaphore) (v : Z) : semaphore :=
  {| _value := v; _max_value := _max_value s;
     _comparison_counter := _comparison_counter s; _waiters := _waiters s;
     _loop := _loop s; futures := futures s; next_future := next_future s |}.

Definition with_futures (s : semaphore) (fs : gmap nat fut_state) : semaphore :=
  {| _value := _value s; _max_value := _max_value s;
     _comparison_counter := _comparison_counter s; _waiters := _waiters s;
     _loop := _loop s; futures := fs; next_future := next_future s |}.

Definition with_waiters (s : semaphore) (ws : list entry) : semaphore :=
  {| _value := _value s; _max_value := _max_value s;
     _comparison_counter := _comparison_counter s; _waiters := ws;
     _loop := _loop s; futures := futures s; next_future := next_future s |}.

(** [_get_loop()], [running] being [asyncio.get_running_loop()]. *)
Definition _get_loop (s : semaphore) (running : nat) : result nat * semaphore :=
  let s1 :=
    match _loop s with
    | None =>
        {| _value := _value s; _max_value := _max_value s;
           _comparison_counter := _comparison_counter s;
           _waiters := _waiters s; _loop := Some running;
           futures := futures s; next_future := next_future s |}
    | Some _ => s
    end in
  match _loop s1 with
  | Some l => if (l =? running)%nat then (Return running, s1)
              else (Raise RuntimeError, s1)
  | None => (Raise RuntimeError, s1)
  end.

(** The [for] loop of [_wake_up_next]: the future of the first waiter that
    is not done. *)
Fixpoint first_not_done (fs : gmap nat fut_state) (ws : list entry) : option nat :=
  match ws with
  | [] => None
  | w :: ws' =>
      if fut_done fs (entry_obj w) then first_not_done fs ws'
      else Some (entry_obj w)
  end.

(** [_wake_up_next()] *)
Definition _wake_up_next (s : semaphore) : bool * semaphore :=
  match first_not_done (futures s) (_waiters s) with
  | None => (false, s)
  | Some f =>
      (true, with_futures (with_value s (_value s - 1))
               (<[f := FutResult]> (futures s)))
  end.

(** [cancel_waiting(exc)] *)
Fixpoint cancel_each (exc : exn) (ws : list entry) (fs : gmap nat fut_state)
    : gmap nat fut_state :=
  match ws with
  | [] => fs
  | w :: ws' =>
      cancel_each exc ws'
        (if fut_done fs (entry_obj w) then fs
         else <[entry_obj w := FutException exc]> fs)
  end.

Definition cancel_waiting (s : semaphore) (exc : exn) : semaphore :=
  with_futures s (cancel_each exc (_waiters s) (futures s)).

(** [for _ in range(n): if not self._wake_up_next(): break] *)
Fixpoint wake_up_to (n : nat) (s : semaphore) : semaphore :=
  match n with
  | O => s
  | S n' =>
      let (woke, s') := _wake_up_next s in
      if woke then wake_up_to n' s' else s'
  end.

(** The [max_value] setter. *)
Definition set_max_value (s : semaphore) (new_value : Z) : result unit * semaphore :=
  if new_value <? 0 then (Raise ValueError, s)
  else
    let delta := new_value - _max_value s in
    let s1 :=
      {| _value := _value s + delta; _max_value := _max_value s + delta;
         _comparison_counter := _comparison_counter s;
         _waiters := _waiters s; _loop := _loop s;
         futures := futures s; next_future := next_future s |} in
    (Return tt, wake_up_to (Z.to_nat (Z.max 0 delta)) s1).

(** [num_waiting] *)
Definition num_waiting (s : semaphore) : nat := length (_waiters s).

(** [locked()] *)
Definition locked (s : semaphore) : bool :=
  (_value s <=? 0)
  || existsb (fun w => negb (fut_cancelled (futures s) (entry_obj w))) (_waiters s).

(** [while self._value > 0: if not self._wake_up_next(): break].  Every
    round that does not leave the loop lowers [_value] by one, so
    [Z.to_nat (_value s)] rounds are all the loop can make. *)
Fixpoint top_up_loop (fuel : nat) (s : semaphore) : semaphore :=
  match fuel with
  | O => s
  | S fuel' =>
      if 0 <? _value s then
        let (woke, s') := _wake_up_next s in
        if woke then top_up_loop fuel' s' else s'
      else s
  end.

Definition top_up (s : semaphore) : semaphore :=
  top_up_loop (Z.to_nat (_value s)) s.

(** [acquire(priority)] runs in two parts, split at [await fut].  The
    first part either takes a permit, or queues a waiter and suspends, or
    fails. *)
Inductive acquire_status : Type :=
| Acquired
| Suspended (obj : entry)
| Failed (e : exn).

Definition acquire_enter (s : semaphore) (running : nat) (priority : Z)
    : acquire_status * semaphore :=
  if negb (locked s) then (Acquired, with_value s (_value s - 1))
  else
    let s1 :=
      {| _value := _value s; _max_value := _max_value s;
         _comparison_counter := _comparison_counter s + 1;
         _waiters := _waiters s; _loop := _loop s;
         futures := futures s; next_future := next_future s |} in
    match _get_loop s1 running with
    | (Raise e, s2) => (Failed e, s2)
    | (Return _, s2) =>
        let fut := next_future s2 in
        let s3 :=
          {| _value := _value s2; _max_value := _max_value s2;
             _comparison_counter := _comparison_counter s2;
             _waiters := _waiters s2; _loop := _loop s2;
             futures := <[fut := FutPending]> (futures s2);
             next_future := S fut |} in
        let obj := (- priority, _comparison_counter s3, fut) in
        match insort_right (_waiters s3) obj with
        | Raise e => (Failed e, s3)
        | Return ws => (Suspended obj, with_waiters s3 ws)
        end
    end.

(** What [await fut] does when the task is stepped again: [must_cancel]
    is the task's [_must_cancel] flag, set by [Task.cancel()] when the
    awaited future was already done; with it the task is stepped by
    throwing [CancelledError].  Otherwise the future's outcome is
    delivered.  [None]: the future is still pending, the task stays
    suspended. *)
Definition await_outcome (st : fut_state) (must_cancel : bool)
    : option (option exn) :=
  match st with
  | FutPending => None
  | FutResult => Some (if must_cancel then Some CancelledError else None)
  | FutException e => Some (Some (if must_cancel then CancelledError else e))
  | FutCancelled => Some (Some CancelledError)
  end.

(** The second part of [acquire]: from the return of [await fut] to the
    end, for the waiter tuple [obj]. *)
Definition acquire_resume (s : semaphore) (obj : entry) (must_cancel : bool)
    : option (result unit * semaphore) :=
  let fut := entry_obj obj in
  match await_outcome (fut_state_of (futures s) fut) must_cancel with
  | None => None
  | Some raised0 =>
      (* finally: self._waiters.remove(obj) *)
      let '(raised1, s1) :=
        match list_remove obj (_waiters s) with
        | None => (Some ValueError, s)
        | Some ws => (raised0, with_waiters s ws)
        end in
      (* except asyncio.CancelledError: *)
      let s2 :=
        match raised1 with
        | Some CancelledError =>
            if fut_done (futures s1) fut && negb (fut_cancelled (futures s1) fut)
            then with_value s1 (_value s1 + 1)
            else s1
        | _ => s1
        end in
      (* finally: wake up as many as are allowed *)
      let s3 := top_up s2 in
      Some (match raised1 with None => Return tt | Some e => Raise e end, s3)
  end.

(** [release()] *)
Definition release (s : semaphore) : result unit * semaphore :=
  if _max_value s <=? _value s then (Raise ValueError, s)
  else (Return tt, (_wake_up_next (with_value s (_value s + 1))).2).

(** *** The event loop around one semaphore

    What tasks on one event loop can do to the semaphore between two
    suspension points.  [must_cancel] holds the futures whose awaiting
    task has been cancelled after the future was done; [held] counts the
    calls of [acquire] that returned [True] and have not been matched by
    a [release] yet. *)
Record world : Type := {
  the_sem : semaphore;
  must_cancel : gset nat;
  held : Z
}.

Inductive event : Type :=
| Acquire (running : nat) (priority : Z)
| Resume (obj : entry)
| TaskCancel (obj : entry)
| Release
| SetMaxValue (new_value : Z)
| CancelWaiting (exc : exn).

Definition start (value : Z) : world :=
  {| the_sem := init value; must_cancel := ∅; held := 0 |}.

Definition is_waiting (s : semaphore) (obj : entry) : bool :=
  existsb (tuple_eqb obj) (_waiters s).

(** One event; [None] when the event cannot happen in this state: only a
    task suspended in [acquire] can be resumed or cancelled there, and it
    is resumed only once its future is done. *)
Definition step (w : world) (ev : event) : option world :=
  let s := the_sem w in
  match ev with
  | Acquire running priority =>
      match acquire_enter s running priority with
      | (Acquired, s') =>
          Some {| the_sem := s'; must_cancel := must_cancel w; held := held w + 1 |}
      | (_, s') =>
          Some {| the_sem := s'; must_cancel := must_cancel w; held := held w |}
      end
  | Resume obj =>
      if is_waiting s obj then
        match acquire_resume s obj (bool_decide (entry_obj obj ∈ must_cancel w)) with
        | None => None
        | Some (Return _, s') =>
            Some {| the_sem := s'; must_cancel := must_cancel w ∖ {[entry_obj obj]};
                    held := held w + 1 |}
        | Some (Raise _, s') =>
            Some {| the_sem := s'; must_cancel := must_cancel w ∖ {[entry_obj obj]};
                    held := held w |}
        end
      else None
  | TaskCancel obj =>
      if is_waiting s obj then
        if fut_done (futures s) (entry_obj obj) then
          Some {| the_sem := s; must_cancel := must_cancel w ∪ {[entry_obj obj]};
                  held := held w |}
        else
          Some {| the_sem := with_futures s (<[entry_obj obj := FutCancelled]> (futures s));
                  must_cancel := must_cancel w; held := held w |}
      else None
  | Release =>
      match release s with
      | (Return _, s') =>
          Some {| the_sem := s'; must_cancel := must_cancel w; held := held w - 1 |}
      | (Raise _, s') =>
          Some {| the_sem := s'; must_cancel := must_cancel w; held := held w |}
      end
  | SetMaxValue new_value =>
      Some {| the_sem := (set_max_value s new_value).2;
              must_cancel := must_cancel w; held := held w |}
  | CancelWaiting exc =>
      Some {| the_sem := cancel_waiting s exc;
              must_cancel := must_cancel w; held := held w |}
  end.

Fixpoint run (w : world) (evs : list event) : option world :=
  match evs with
  | [] => Some w
  | ev :: evs' =>
      match step w ev with
      | None => None
      | Some w' => run w' evs'
      end
  end.

Definition reachable (value : Z) (w : world) : Prop :=
  exists evs, run (start value) evs = Some w.

(** [run] where no [release] is called without a permit to give back:
    a [Release] event needs [held] to be positive. *)
Definition step_matched (w : world) (ev : event) : option world :=
  match ev with
  | Release => if 0 <? held w then step w ev else None
  | _ => step w ev
  end.

Fixpoint run_matched (w : world) (evs : list event) : option world :=
  match evs with
  | [] => Some w
  | ev :: evs' =>
      match step_matched w ev with
      | None => None
      | Some w' => run_matched w' evs'
      end
  end.

(** *** Notions the statements below use *)

(** A waiter's priority and arrival sequence as [acquire] stored them. *)
Definition priority_of (w : entry) : Z := - entry_neg w.
Definition sequence_of (w : entry) : Z := entry_count w.

(** [g] comes before [u]: higher priority, or the same priority and an
    earlier arrival. *)
Definition served_before (g u : entry) : Prop :=
  priority_of u < priority_of g
  \/ (priority_of u = priority_of g /\ sequence_of g < sequence_of u).

Definition pending (s : semaphore) (u : entry) : Prop :=
  fut_state_of (futures s) (entry_obj u) = FutPending.

(** Granting in the spec's words: walk the queue once from its head and
    give a permit to each waiter that is not done, until [n] permits are
    given or the queue ends.  Returns the number of grants and the
    futures afterwards. *)
Fixpoint grant_in_order (ws : list entry) (n : nat) (fs : gmap nat fut_state)
    : nat * gmap nat fut_state :=
  match ws with
  | [] => (O, fs)
  | w :: ws' =>
      match n with
      | O => (O, fs)
      | S n' =>
          if fut_done fs (entry_obj w) then grant_in_order ws' n fs
          else
            let (k, fs') :=
              grant_in_order ws' n' (<[entry_obj w := FutResult]> fs) in
            (S k, fs')
      end
  end.

(** The semaphore [s] after [k] grants that left the futures [fs]. *)
Definition granted (s : semaphore) (k : nat) (fs : gmap nat fut_state) : semaphore :=
  with_futures (with_value s (_value s - Z.of_nat k)) fs.

(** What every reachable state satisfies: the queue is sorted, sequence
    numbers are not ahead of the counter, and each waiter has a future of
    its own that [create_future] has handed out. *)
Definition well_formed (s : semaphore) : Prop :=
  sorted (_waiters s)
  /\ (forall u, u ∈ _waiters s -> entry_count u <= _comparison_counter s)
  /\ (forall u, u ∈ _waiters s -> (entry_obj u < next_future s)%nat)
  /\ NoDup (map entry_obj (_waiters s)).

(** Every waiter of [ws] is done. *)
Definition all_done (fs : gmap nat fut_state) (ws : list entry) : Prop :=
  Forall (fun u => fut_done fs (entry_obj u) = true) ws.

(** [s'] differs from [s] at most in the counter and the futures. *)
Definition same_queue (s s' : semaphore) : Prop :=
  _waiters s' = _waiters s
  /\ _comparison_counter s' = _comparison_counter s
  /\ next_future s' = next_future s
  /\ _loop s' = _loop s
  /\ _max_value s' = _max_value s.

(** The state a resumed [acquire] leaves: the queue is [ws], the counter
    stood at [v] when the closing loop began, and that loop granted in
    queue order while the counter was positive. *)
Definition after_resume (s : semaphore) (ws : list entry) (v : Z) : semaphore :=
  let n := Z.to_nat v in
  {| _value := v - Z.of_nat (grant_in_order ws n (futures s)).1;
     _max_value := _max_value s;
     _comparison_counter := _comparison_counter s;
     _waiters := ws; _loop := _loop s;
     futures := (grant_in_order ws n (futures s)).2;
     next_future := next_future s |}.

Definition is_result (fs : gmap nat fut_state) (f : nat) : bool :=
  match fut_state_of fs f with FutResult => true | _ => false end.

(** The queued waiters whose future holds a grant they have not taken
    up yet. *)
Fixpoint count_granted (fs : gmap nat fut_state) (ws : list entry) : Z :=
  match ws with
  | [] => 0
  | u :: ws' => (if is_result fs (entry_obj u) then 1 else 0) + count_granted fs ws'
  end.

Definition no_exception (fs : gmap nat fut_state) : Prop :=
  forall f e, fs !! f <> Some (FutException e).

(** The permits are all accounted for: in the counter, held by a caller,
    or granted to a waiter that has not resumed yet. *)
Definition balanced (w : world) : Prop :=
  well_formed (the_sem w)
  /\ no_exception (futures (the_sem w))
  /\ 0 <= held w
  /\ _value (the_sem w) + held w
     + count_granted (futures (the_sem w)) (_waiters (the_sem w))
     = _max_value (the_sem w).

Definition not_cancel_waiting (ev : event) : Prop :=
  match ev with CancelWaiting _ => False | _ => True end.

(** *** Scenarios

    Each scenario is a run of events from a fresh semaphore; where a
    statement needs the state a run ends in, the state is written out. *)

(** One permit, taken; then W1 (priority 5), W2 (priority 5) and W3
    (priority 10) call [acquire] in this order. *)
Definition scenario_three_waiters : list event :=
  [Acquire 0 0; Acquire 0 5; Acquire 0 5; Acquire 0 10].

Definition three_waiters : world :=
  {| the_sem :=
       {| _value := 0; _max_value := 1; _comparison_counter := 3;
          _waiters := [(-10, 3, 2%nat); (-5, 1, 0%nat); (-5, 2, 1%nat)];
          _loop := Some 0%nat;
          futures := <[2%nat := FutPending]>
                       (<[1%nat := FutPending]> (<[0%nat := FutPending]> ∅));
          next_future := 3 |};
     must_cancel := ∅; held := 1 |}.

(** Two permits, both taken; a third caller waits; both permits are
    released before the waiter, granted by the first release, has run. *)
Definition scenario_late_arrival : list event :=
  [Acquire 0 0; Acquire 0 0; Acquire 0 0; Release; Release].

Definition late_arrival : world :=
  {| the_sem :=
       {| _value := 1; _max_value := 2; _comparison_counter := 1;
          _waiters := [(0, 1, 0%nat)]; _loop := Some 0%nat;
          futures := <[0%nat := FutResult]> ∅; next_future := 1 |};
     must_cancel := ∅; held := 0 |}.

(** One permit, taken; a waiter is granted by a release; a second release
    is accepted; the waiter's task is cancelled before it runs and then
    resumes. *)
Definition scenario_over_release : list event :=
  [Acquire 0 0; Acquire 0 0; Release; Release;
   TaskCancel (0, 1, 0%nat); Resume (0, 1, 0%nat)].

(** One permit, taken; A and B wait; a release grants A; the maximum is
    lowered to 0; A's task is cancelled before it runs. *)
Definition scenario_deficit : list event :=
  [Acquire 0 0; Acquire 0 0; Acquire 0 0; Release; SetMaxValue 0;
   TaskCancel (0, 1, 0%nat)].

(** One permit, taken; A and C wait; A's task is cancelled; the maximum
    is raised to 3, which grants C; B calls [acquire] and has to queue
    behind C, which has not run yet. *)
Definition scenario_top_up : list event :=
  [Acquire 0 0; Acquire 0 0; Acquire 0 0; TaskCancel (0, 1, 0%nat);
   SetMaxValue 3; Acquire 0 0].

(** One permit, taken; A and B wait; a release grants A; A's task is
    cancelled before it runs. *)
Definition scenario_granted_then_cancelled : list event :=
  [Acquire 0 0; Acquire 0 0; Acquire 0 0; Release; TaskCancel (0, 1, 0%nat)].

Definition granted_then_cancelled : semaphore :=
  {| _value := 0; _max_value := 1; _comparison_counter := 2;
     _waiters := [(0, 1, 0%nat); (0, 2, 1%nat)]; _loop := Some 0%nat;
     futures := <[1%nat := FutPending]> (<[0%nat := FutResult]> ∅);
     next_future := 2 |}.

(** One permit, taken; a second caller waits; [cancel_waiting] fails the
    waiter; the waiter's task is cancelled too; the holder releases; the
    waiter resumes. *)
Definition scenario_cancel_waiting : list event :=
  [Acquire 0 0; Acquire 0 0; CancelWaiting (UserError 0);
   TaskCancel (0, 1, 0%nat); Release; Resume (0, 1, 0%nat)].

(** One permit, taken; A and B wait; a release grants A; A's task is
    cancelled before it runs; A resumes. *)
Definition scenario_repair : list event :=
  [Acquire 0 0; Acquire 0 0; Acquire 0 0; Release; TaskCancel (0, 1, 0%nat);
   Resume (0, 1, 0%nat)].

Definition repaired : world :=
  {| the_sem :=
       {| _value := 0; _max_value := 1; _comparison_counter := 2;
          _waiters := [(0, 2, 1%nat)]; _loop := Some 0%nat;
          futures := <[1%nat := FutResult]> (<[0%nat := FutResult]> ∅);
          next_future := 2 |};
     must_cancel := ∅; held := 0 |}.

(** *** Scoped acquisition *)

(** [__aenter__()]: [await self.acquire()], with the default priority;
    like [acquire] it runs up to the suspension point. *)
Definition __aenter__ (s : semaphore) (running : nat) : acquire_status * semaphore :=
  acquire_enter s running 0.

(** [__aexit__(exc_type, exc, traceback)]: [self.release()], whatever the
    three arguments are. *)
Definition __aexit__ (s : semaphore) (exc : option exn) : result unit * semaphore :=
  release s.

(** [WrappedContextManager]: [on_enter] is the coroutine function to await
    on entry; [context_manager] is the semaphore itself, which is the
    state the operations below are applied to. *)
Record WrappedContextManager : Type := {
  on_enter : semaphore -> nat -> acquire_status * semaphore
}.

(** [__call__(priority)] *)
Definition __call__ (priority : Z) : WrappedContextManager :=
  {| on_enter := fun s running => acquire_enter s running priority |}.

(** [WrappedContextManager.__aenter__()] and [.__aexit__(...)] *)
Definition wrapped_aenter (cm : WrappedContextManager) (s : semaphore) (running : nat)
    : acquire_status * semaphore :=
  on_enter cm s running.

Definition wrapped_aexit (cm : WrappedContextManager) (s : semaphore) (exc : option exn)
    : result unit * semaphore :=
  __aexit__ s exc.

(** *** More notions for statements *)

(** No wake-up is lost: a positive counter with a pending waiter in the
    queue only occurs while some queued waiter is done and still has to
    resume. *)
Definition wakeup_ok (s : semaphore) : Prop :=
  0 < _value s ->
  (exists u, u ∈ _waiters s /\ pending s u) ->
  exists v, v ∈ _waiters s /\ fut_done (futures s) (entry_obj v) = true.

Definition not_set_max_value (ev : event) : Prop :=
  match ev with SetMaxValue _ => False | _ => True end.

(** Two permits, one taken; nobody waits. *)
Definition scenario_one_of_two : list event := [Acquire 0 0].

Definition one_of_two : world :=
  {| the_sem :=
       {| _value := 1; _max_value := 2; _comparison_counter := 0;
          _waiters := []; _loop := None; futures := ∅; next_future := 0 |};
     must_cancel := ∅; held := 1 |}.

(** A semaphore of three permits with one permit free and three queued
    futures: the first cancelled, the second granted, the third pending. *)
Definition top_up_pending : world :=
  {| the_sem :=
       {| _value := 1; _max_value := 3; _comparison_counter := 3;
          _waiters := [(0, 1, 0%nat); (0, 2, 1%nat); (0, 3, 2%nat)];
          _loop := Some 0%nat;
          futures := <[2%nat := FutPending]>
                       (<[1%nat := FutResult]> (<[0%nat := FutCancelled]> ∅));
          next_future := 3 |};
     must_cancel := ∅; held := 1 |}.

(** The books balance, the counter is not negative and the maximum is
    [value]. *)
Definition within_capacity (value : Z) (w : world) : Prop :=
  balanced w /\ 0 <= _value (the_sem w) /\ _max_value (the_sem w) = value.

(** [three_waiters] after the holder released: the waiter of priority 10
    is granted, the two of priority 5 still wait. *)
Definition bound_then_released : world :=
  {| the_sem :=
       {| _value := 0; _max_value := 1; _comparison_counter := 3;
          _waiters := [(-10, 3, 2%nat); (-5, 1, 0%nat); (-5, 2, 1%nat)];
          _loop := Some 0%nat;
          futures := <[2%nat := FutResult]>
                       (<[1%nat := FutPending]> (<[0%nat := FutPending]> ∅));
          next_future := 3 |};
     must_cancel := ∅; held := 0 |}.

(** The waiters [objs] resume one after the other, none of their tasks
    having been cancelled, with no other operation on the semaphore in
    between: the outcomes of their [acquire] calls in order, and the
    state they leave.  [None] when one of them is not ready to resume. *)
Fixpoint resume_each (s : semaphore) (objs : list entry)
    : option (list (result unit) * semaphore) :=
  match objs with
  | [] => Some ([], s)
  | obj :: objs' =>
      match acquire_resume s obj false with
      | None => None
      | Some (r, s1) =>
          match resume_each s1 objs' with
          | None => None
          | Some (rs, s2) => Some (r :: rs, s2)
          end
      end
  end.

End Semaphore.

(** ** PriorityLock *)

Module PriorityLock.
Import Semaphore.

(** [__init__()]: [super().__init__(value=1)] *)
Definition init : semaphore := Semaphore.init 1.

(** The overriding [max_value] setter. *)
Definition set_max_value (s : semaphore) (new_value : Z) : result unit * semaphore :=
  (Raise ValueError, s).

(** The events of a lock: those of the semaphore, with the overriding
    setter, and with [release] called only by a holder. *)
Definition step (w : world) (ev : event) : option world :=
  match ev with
  | SetMaxValue new_value =>
      Some {| the_sem := (set_max_value (the_sem w) new_value).2;
              must_cancel := must_cancel w; held := held w |}
  | _ => step_matched w ev
  end.

Fixpoint run (w : world) (evs : list event) : option world :=
  match evs with
  | [] => Some w
  | ev :: evs' =>
      match step w ev with
      | None => None
      | Some w' => run w' evs'
      end
  end.

Definition start : world :=
  {| the_sem := init; must_cancel := ∅; held := 0 |}.

(** The lock is taken; one caller waits; the holder tries to change the
    maximum and then releases; the waiter resumes. *)
Definition scenario_handover : list event :=
  [Acquire 0 0; Acquire 0 0; SetMaxValue 5; Release; Resume (0, 1, 0%nat)].

(** The lock held by the waiter it was handed to; nobody is queued. *)
Definition handed_over : world :=
  {| the_sem :=
       {| _value := 0; _max_value := 1; _comparison_counter := 1;
          _waiters := []; _loop := Some 0%nat;
          futures := <[0%nat := FutResult]> ∅; next_future := 1 |};
     must_cancel := ∅; held := 1 |}.

End PriorityLock.

(** ** ReschedulableTimeout *)

Module Timeout.

(** An [asyncio.TimerHandle] as the loop keeps it: the time it was armed
    for, whether it was cancelled, and whether it still waits in the
    loop's timer heap ([_scheduled]). *)
Record timer_handle : Type := {
  h_when : Z;
  h_cancelled : bool;
  h_scheduled : bool
}.

(** The timeout object and the loop's timer handles.  [_timer] refers to a
    handle by identity, its index in [handles].  [_callback] belongs to the
    caller: [calls] records the clock reading of each of its invocations,
    and the callback itself is taken not to touch the timeout. *)
Record timeout : Type := {
  _timer : option nat;
  _when : Z;
  handles : list timer_handle;
  calls : list Z
}.

(** [__init__(callback)] *)
Definition init : timeout :=
  {| _timer := None; _when := 0; handles := []; calls := [] |}.

(** [handle.cancel()] *)
Definition handle_cancel (h : nat) (hs : list timer_handle) : list timer_handle :=
  alter (fun x => {| h_when := h_when x; h_cancelled := true;
                     h_scheduled := h_scheduled x |}) h hs.

(** [handle.when()] *)
Definition handle_when (h : nat) (hs : list timer_handle) : Z :=
  match hs !! h with
  | Some x => h_when x
  | None => 0
  end.

(** [_reschedule()]; [loop.call_at] appends the new handle. *)
Definition _reschedule (t : timeout) : timeout :=
  let hs :=
    match _timer t with
    | Some h => handle_cancel h (handles t)
    | None => handles t
    end in
  {| _timer := Some (length hs);
     _when := _when t;
     handles := hs ++ [{| h_when := _when t; h_cancelled := false;
                          h_scheduled := true |}];
     calls := calls t |}.

(** [_timeout_trigger()], [now] being [self._loop.time()]. *)
Definition _timeout_trigger (t : timeout) (now : Z) : timeout :=
  if now <? _when t then _reschedule t
  else {| _timer := None; _when := _when t; handles := handles t;
          calls := calls t ++ [now] |}.

(** [reschedule(delay)], [now] being [self._loop.time()]. *)
Definition reschedule (t : timeout) (now delay : Z) : timeout :=
  let t1 := {| _timer := _timer t; _when := now + delay;
               handles := handles t; calls := calls t |} in
  match _timer t1 with
  | None => _reschedule t1
  | Some h =>
      if _when t1 <? handle_when h (handles t1) then _reschedule t1 else t1
  end.

(** [cancel()] *)
Definition cancel (t : timeout) : timeout :=
  match _timer t with
  | Some h => {| _timer := None; _when := _when t;
                 handles := handle_cancel h (handles t); calls := calls t |}
  | None => t
  end.

(** *** The loop's side *)

Definition live (x : timer_handle) : bool :=
  negb (h_cancelled x) && h_scheduled x.

(** The loop takes handle [h] out of its heap and, unless it was
    cancelled, runs [_timeout_trigger] at clock reading [now].  [None]:
    there is no such handle waiting. *)
Definition fire (t : timeout) (h : nat) (now : Z) : option timeout :=
  match handles t !! h with
  | None => None
  | Some x =>
      if live x then
        Some (_timeout_trigger
                {| _timer := _timer t; _when := _when t;
                   handles := <[h := {| h_when := h_when x;
                                        h_cancelled := h_cancelled x;
                                        h_scheduled := false |}]> (handles t);
                   calls := calls t |} now)
      else None
  end.

(** The live handle that is due first, with its index. *)
Fixpoint next_due_from (i : nat) (hs : list timer_handle) : option (nat * Z) :=
  match hs with
  | [] => None
  | x :: hs' =>
      match next_due_from (S i) hs' with
      | None => if live x then Some (i, h_when x) else None
      | Some (j, w) =>
          if live x && (h_when x <=? w) then Some (i, h_when x) else Some (j, w)
      end
  end.

Definition next_due (t : timeout) : option (nat * Z) :=
  next_due_from 0 (handles t).

(** The loop left alone from clock reading [now]: it sleeps until the
    next live handle is due, runs it, and goes on until no handle is
    left; at most [fuel] handles are run.  The result carries the clock
    reading reached. *)
Fixpoint run_loop (fuel : nat) (t : timeout) (now : Z) : timeout * Z :=
  match fuel with
  | O => (t, now)
  | S fuel' =>
      match next_due t with
      | None => (t, now)
      | Some (h, w) =>
          let now' := Z.max now w in
          match fire t h now' with
          | None => (t, now)
          | Some t' => run_loop fuel' t' now'
          end
      end
  end.

Inductive event : Type :=
| Reschedule (now delay : Z)
| Cancel
| Fire (h : nat) (now : Z).

Definition step (t : timeout) (ev : event) : option timeout :=
  match ev with
  | Reschedule now delay => Some (reschedule t now delay)
  | Cancel => Some (cancel t)
  | Fire h now => fire t h now
  end.

Fixpoint run (t : timeout) (evs : list event) : option timeout :=
  match evs with
  | [] => Some t
  | ev :: evs' =>
      match step t ev with
      | None => None
      | Some t' => run t' evs'
      end
  end.

Definition reachable (t : timeout) : Prop :=
  exists evs, run init evs = Some t.

(** *** Notions the statements below use *)

(** No handle is live, except the one named by [skip], about which
    nothing is said. *)
Definition others_dead (hs : list timer_handle) (skip : option nat) : Prop :=
  forall j y, hs !! j = Some y -> skip <> Some j -> live y = false.

(** What every reachable state satisfies: the handle [_timer] names is
    live and set for no later than [_when], and it is the only live one. *)
Definition armed_ok (t : timeout) : Prop :=
  others_dead (handles t) (_timer t)
  /\ forall h, _timer t = Some h ->
       exists x, handles t !! h = Some x /\ live x = true /\ h_when x <= _when t.

(** [reschedule(5)] at clock reading 0, then [reschedule(10)] at 1. *)
Definition scenario_5s_then_10s : list event :=
  [Reschedule 0 5; Reschedule 1 10].

Definition armed_5s_wants_11s : timeout :=
  {| _timer := Some 0%nat; _when := 11;
     handles := [{| h_when := 5; h_cancelled := false; h_scheduled := true |}];
     calls := [] |}.

End Timeout.

(** ** Debouncer *)

Module Debouncer.

(** [_times] maps a tracked object to its expiry; [_queue] holds
    [(-expiry, dedup_counter, obj)] in ascending order. *)
Record debouncer : Type := {
  _times : gmap nat Z;
  _queue : list entry;
  _last_time : Z;
  _dedup_counter : Z
}.

(** [__init__()] *)
Definition init : debouncer :=
  {| _times := ∅; _queue := []; _last_time := 0; _dedup_counter := 0 |}.

(** The loop of [clean]:
<<
    while self._queue and -self._queue[-1][0] < now:
        _, _, obj = self._queue.pop()
        self._times.pop(obj)
>>
    [dict.pop] raises [KeyError] for a missing key.  Each round shortens
    [_queue], so [length (_queue d)] rounds of fuel are all it can make. *)
Fixpoint clean_loop (fuel : nat) (d : debouncer) (now : Z) : result unit * debouncer :=
  match fuel with
  | O => (Return tt, d)
  | S fuel' =>
      match last (_queue d) with
      | None => (Return tt, d)
      | Some x =>
          if - entry_neg x <? now then
            let d1 := {| _times := _times d; _queue := removelast (_queue d);
                         _last_time := _last_time d;
                         _dedup_counter := _dedup_counter d |} in
            match _times d1 !! entry_obj x with
            | None => (Raise KeyError, d1)
            | Some _ =>
                clean_loop fuel'
                  {| _times := delete (entry_obj x) (_times d1);
                     _queue := _queue d1; _last_time := _last_time d1;
                     _dedup_counter := _dedup_counter d1 |} now
            end
          else (Return tt, d)
      end
  end.

(** [clean(now=None)], [time] being [self._loop.time()]. *)
Definition clean (d : debouncer) (time : Z) (now : option Z) : result unit * debouncer :=
  clean_loop (length (_queue d)) d (default time now).

(** [is_filtered(obj, now=None)] *)
Definition is_filtered (d : debouncer) (time : Z) (obj : nat) (now : option Z)
    : result bool * debouncer :=
  let now := default time now in
  match clean d time (Some now) with
  | (Raise e, d1) => (Raise e, d1)
  | (Return _, d1) => (Return (bool_decide (is_Some (_times d1 !! obj))), d1)
  end.

(** [filter(obj, expire_in)], [time] being [self._loop.time()]. *)
Definition filter (d : debouncer) (time : Z) (obj : nat) (expire_in : Z)
    : result bool * debouncer :=
  let now := time in
  let d1 :=
    if _last_time d <? now then
      {| _times := _times d; _queue := _queue d; _last_time := now;
         _dedup_counter := 0 |}
    else d in
  let d2 := {| _times := _times d1; _queue := _queue d1;
               _last_time := _last_time d1;
               _dedup_counter := _dedup_counter d1 + 1 |} in
  match is_filtered d2 time obj (Some now) with
  | (Raise e, d3) => (Raise e, d3)
  | (Return true, d3) => (Return true, d3)
  | (Return false, d3) =>
      let d4 := {| _times := <[obj := now + expire_in]> (_times d3);
                   _queue := _queue d3; _last_time := _last_time d3;
                   _dedup_counter := _dedup_counter d3 |} in
      match insort_right (_queue d4) (- (now + expire_in), _dedup_counter d4, obj) with
      | Raise e => (Raise e, d4)
      | Return q =>
          (Return false,
           {| _times := _times d4; _queue := q; _last_time := _last_time d4;
              _dedup_counter := _dedup_counter d4 |})
      end
  end.

(** A run of [filter] calls, each with the clock reading it observes; it
    stops at the first call that raises. *)
Fixpoint filters (d : debouncer) (calls : list (Z * nat * Z))
    : result (list bool) * debouncer :=
  match calls with
  | [] => (Return [], d)
  | (time, obj, expire_in) :: calls' =>
      match filter d time obj expire_in with
      | (Raise e, d') => (Raise e, d')
      | (Return b, d') =>
          match filters d' calls' with
          | (Raise e, d'') => (Raise e, d'')
          | (Return bs, d'') => (Return (b :: bs), d'')
          end
      end
  end.

(** *** Notions the statements below use *)

(** The entries of the queue, and of the map, that have not expired at
    [now]: their expiry is [now] or later. *)
Definition unexpired (now : Z) (q : list entry) : list entry :=
  List.filter (fun x => now <=? - entry_neg x) q.

Definition unexpired_times (now : Z) (m : gmap nat Z) : gmap nat Z :=
  base.filter (fun kv : nat * Z => now <= kv.2) m.

(** The clock reading and the tie-break counter a call of [filter] at
    clock reading [time] leaves. *)
Definition last_time_after (d : debouncer) (time : Z) : Z :=
  if _last_time d <? time then time else _last_time d.

Definition dedup_counter_after (d : debouncer) (time : Z) : Z :=
  (if _last_time d <? time then 0 else _dedup_counter d) + 1.

(** The state the code keeps between calls that do not raise: the queue is
    sorted, no object is queued twice, and [_times] holds exactly the
    queued objects with their expiries. *)
Definition consistent (d : debouncer) : Prop :=
  sorted (_queue d)
  /\ NoDup (map entry_obj (_queue d))
  /\ forall obj t, _times d !! obj = Some t
                   <-> exists c, (- t, c, obj) ∈ _queue d.

(** Calls of [filter] that all observe the clock reading [time]: a clock
    that stands still, as one of low resolution does between ticks. *)
Definition standing (time : Z) (calls : list (Z * nat * Z)) : Prop :=
  Forall (fun c => c.1.1 = time) calls.

(** What such calls keep: the state is consistent, every queued entry
    carries a counter up to [_dedup_counter], and the counter is not
    about to be reset unless nothing is queued. *)
Definition numbered (time : Z) (d : debouncer) : Prop :=
  consistent d
  /\ (forall y, y ∈ _queue d -> entry_count y <= _dedup_counter d)
  /\ (_queue d = [] \/ time <= _last_time d).

(** Five calls at clock reading 5: three objects, one of them twice, with
    different values of [expire_in], zero and a negative one among them. *)
Definition scenario_standing_clock : list (Z * nat * Z) :=
  [(5, 1%nat, 3); (5, 2%nat, 3); (5, 3%nat, 0); (5, 1%nat, 7); (5, 4%nat, -2)].

(** [__repr__()] of a [Debouncer] proper (the class name is read from
    the object); [len] is shown in decimal. *)
Definition __repr__ (d : debouncer) : string :=
  "<Debouncer [tracked:" +:+ pretty (length (_queue d)) +:+ "]>".

(** What is left of [consistent] after a call of [filter] has raised: the
    queue is sorted, no object is queued twice, and every queued object is
    in [_times] with its expiry, but [_times] may hold more. *)
Definition half_consistent (d : debouncer) : Prop :=
  sorted (_queue d)
  /\ NoDup (map entry_obj (_queue d))
  /\ forall y, y ∈ _queue d -> _times d !! entry_obj y = Some (- entry_neg y).

(** [obj] is in [_times] without an entry in the queue. *)
Definition stuck (obj : nat) (d : debouncer) : Prop :=
  half_consistent d
  /\ is_Some (_times d !! obj)
  /\ forall y, y ∈ _queue d -> entry_obj y <> obj.

(** *** Scenarios *)

(** Object 7 recorded at clock reading 0 for 1 tick. *)
Definition tracked_until_1 : debouncer :=
  {| _times := <[7%nat := 1]> ∅; _queue := [(-1, 1, 7%nat)];
     _last_time := 0; _dedup_counter := 1 |}.

(** Objects 1 and 2 recorded at clock reading 0 for 1 and for 10 ticks. *)
Definition two_tracked : debouncer :=
  {| _times := <[2%nat := 10]> (<[1%nat := 1]> ∅);
     _queue := [(-10, 2, 2%nat); (-1, 1, 1%nat)];
     _last_time := 0; _dedup_counter := 2 |}.

End Debouncer.

(** * Facts about the sorted tuple lists *)

Section SortedLists.

Implicit Types (x y z : entry) (a : list entry).

Lemma key_lt_trans x y z : key_lt x y -> key_lt y z -> key_lt x z.
Proof. unfold key_lt. lia. Qed.

Lemma key_lt_irrefl x : ~ key_lt x x.
Proof. unfold key_lt. lia. Qed.

Lemma key_lt_not_same_prefix x y : key_lt x y -> ~ same_prefix x y.
Proof. unfold key_lt, same_prefix. lia. Qed.

Lemma key_lt_total x y : ~ same_prefix x y -> key_lt x y \/ key_lt y x.
Proof. unfold key_lt, same_prefix. lia. Qed.

Lemma same_prefixb_spec x y : same_prefixb x y = true <-> same_prefix x y.
Proof. unfold same_prefixb, same_prefix. rewrite andb_true_iff, !Z.eqb_eq. tauto. Qed.

Lemma tuple_eqb_eq x y : tuple_eqb x y = true <-> x = y.
Proof.
  destruct x as [[a1 c1] o1], y as [[a2 c2] o2].
  unfold tuple_eqb, entry_neg, entry_count, entry_obj; simpl.
  rewrite !andb_true_iff, !Z.eqb_eq, Nat.eqb_eq.
  split; [intros [[-> ->] ->]; reflexivity | intros [= -> -> ->]; auto].
Qed.

Lemma tuple_eqb_refl x : tuple_eqb x x = true.
Proof. apply tuple_eqb_eq. reflexivity. Qed.

(** With different key prefixes [<] on tuples never looks at the
    payloads. *)
Lemma tuple_lt_key x y :
  ~ same_prefix x y ->
  (key_lt x y /\ tuple_lt x y = Return true)
  \/ (key_lt y x /\ tuple_lt x y = Return false).
Proof.
  unfold same_prefix, key_lt, tuple_lt. intros Hne.
  destruct (Z.eqb_spec (entry_neg x) (entry_neg y)) as [E1|E1]; simpl.
  - destruct (Z.eqb_spec (entry_count x) (entry_count y)) as [E2|E2]; simpl.
    + tauto.
    + destruct (Z.ltb_spec (entry_count x) (entry_count y)); [left | right];
        split; auto; lia.
  - destruct (Z.ltb_spec (entry_neg x) (entry_neg y)); [left | right];
      split; auto; lia.
Qed.

(** The comparison reaches the payloads exactly when the prefixes agree
    and the payloads differ. *)
Lemma tuple_lt_raises x y :
  tuple_lt x y = Raise TypeError <-> same_prefix x y /\ entry_obj x <> entry_obj y.
Proof.
  unfold same_prefix, tuple_lt.
  destruct (Z.eqb_spec (entry_neg x) (entry_neg y)) as [E1|E1]; simpl.
  - destruct (Z.eqb_spec (entry_count x) (entry_count y)) as [E2|E2]; simpl.
    + destruct (Nat.eqb_spec (entry_obj x) (entry_obj y)) as [E3|E3]; simpl.
      * split; [discriminate | tauto].
      * tauto.
    + split; [discriminate | tauto].
  - split; [discriminate | tauto].
Qed.

Lemma sorted_lookup a i j x y :
  sorted a -> (i < j)%nat -> a !! i = Some x -> a !! j = Some y -> key_lt x y.
Proof.
  intros Hs. revert i j. induction Hs as [|u a Hs IH Hall]; intros i j Hij Hi Hj.
  - discriminate.
  - destruct j as [|j]; [lia|]. simpl in Hj.
    destruct i as [|i]; simpl in Hi.
    + injection Hi as <-. rewrite Forall_forall in Hall.
      apply Hall. eapply list_elem_of_lookup_2; eauto.
    + apply (IH i j); auto. lia.
Qed.

Lemma bisect_right_loop_spec a x :
  sorted a ->
  (forall y, y ∈ a -> ~ same_prefix x y) ->
  forall fuel lo hi,
    (hi - lo <= fuel)%nat -> (lo <= hi <= length a)%nat ->
    (forall i y, (i < lo)%nat -> a !! i = Some y -> key_lt y x) ->
    (forall i y, (hi <= i)%nat -> a !! i = Some y -> key_lt x y) ->
    exists p, bisect_right_loop fuel a x lo hi = Return p
      /\ (p <= length a)%nat
      /\ (forall i y, (i < p)%nat -> a !! i = Some y -> key_lt y x)
      /\ (forall i y, (p <= i)%nat -> a !! i = Some y -> key_lt x y).
Proof.
  intros Hs Hfresh. induction fuel as [|fuel IH]; intros lo hi Hfuel Hb Hlo Hhi.
  - exists lo. simpl. repeat split; auto; try lia.
    intros i y Hi. apply Hhi. lia.
  - cbn [bisect_right_loop]. destruct (Nat.ltb_spec lo hi) as [Hlt|Hge].
    + set (mid := ((lo + hi) / 2)%nat).
      assert (Hmid : (lo <= mid < hi)%nat).
      { subst mid. split.
        - apply Nat.div_le_lower_bound; lia.
        - apply Nat.Div0.div_lt_upper_bound; lia. }
      destruct (lookup_lt_is_Some_2 a mid) as [y Hy]; [lia|].
      rewrite Hy.
      destruct (tuple_lt_key x y) as [[Hk ->]|[Hk ->]].
      { apply Hfresh. eapply list_elem_of_lookup_2; eauto. }
      * apply IH; auto; try lia.
        intros i z Hi Hz. destruct (decide (i = mid)) as [->|Hne].
        -- rewrite Hy in Hz. injection Hz as <-. exact Hk.
        -- eapply key_lt_trans; [exact Hk|].
           eapply (sorted_lookup a mid i); eauto. lia.
      * apply IH; auto; try lia.
        intros i z Hi Hz. destruct (decide (i = mid)) as [->|Hne].
        -- rewrite Hy in Hz. injection Hz as <-. exact Hk.
        -- eapply key_lt_trans; [|exact Hk].
           eapply (sorted_lookup a i mid); eauto. lia.
    + exists lo. repeat split; auto; try lia.
      intros i y Hi. apply Hhi. lia.
Qed.

(** Once the fuel covers [hi - lo], more fuel changes nothing: the loop of
    [bisect_right] has ended by then, on any list. *)
Lemma bisect_right_loop_fuel a x : forall fuel fuel' lo hi,
  (hi - lo <= fuel)%nat -> (hi - lo <= fuel')%nat ->
  bisect_right_loop fuel a x lo hi = bisect_right_loop fuel' a x lo hi.
Proof.
  induction fuel as [|fuel IH]; intros fuel' lo hi H H'.
  - destruct fuel' as [|fuel']; [reflexivity|]. cbn [bisect_right_loop].
    destruct (Nat.ltb_spec lo hi); [lia | reflexivity].
  - destruct fuel' as [|fuel'].
    + cbn [bisect_right_loop]. destruct (Nat.ltb_spec lo hi); [lia | reflexivity].
    + cbn [bisect_right_loop]. destruct (Nat.ltb_spec lo hi) as [Hlt|]; [|reflexivity].
      assert (Hmid : (lo <= (lo + hi) / 2 < hi)%nat).
      { split.
        - apply Nat.div_le_lower_bound; lia.
        - apply Nat.Div0.div_lt_upper_bound; lia. }
      destruct (a !! ((lo + hi) / 2)%nat) as [y|]; [|reflexivity].
      destruct (tuple_lt x y) as [[]|]; [| |reflexivity]; apply IH; lia.
Qed.

Lemma sorted_insert_at a x p :
  sorted a ->
  (forall i y, (i < p)%nat -> a !! i = Some y -> key_lt y x) ->
  (forall i y, (p <= i)%nat -> a !! i = Some y -> key_lt x y) ->
  sorted (list_insert_at p x a).
Proof.
  intros Hs Hlo Hhi. unfold list_insert_at, sorted in *.
  rewrite <- (take_drop p a) in Hs.
  apply StronglySorted_app in Hs as (H12 & Hs1 & Hs2).
  apply StronglySorted_app_2; auto.
  - intros u v Hu Hv. apply elem_of_take in Hu as (i & Hi & Hip).
    apply elem_of_cons in Hv as [->|Hv].
    + eapply Hlo; eauto.
    + apply H12; auto. apply elem_of_take. eauto.
  - constructor; auto. rewrite Forall_forall. intros y Hy.
    apply list_elem_of_lookup in Hy as [i Hi]. rewrite lookup_drop in Hi.
    eapply Hhi; [|exact Hi]. lia.
Qed.

Lemma elem_of_list_insert_at a x p y :
  y ∈ list_insert_at p x a <-> y = x \/ y ∈ a.
Proof.
  unfold list_insert_at. rewrite elem_of_app, elem_of_cons.
  assert (H : y ∈ a <-> y ∈ take p a \/ y ∈ drop p a)
    by (rewrite <- elem_of_app, take_drop; tauto).
  tauto.
Qed.

(** On a sorted list without an entry of the new tuple's key prefix,
    [insort_right] compares no payloads and keeps the list sorted. *)
Lemma insort_right_sorted a x :
  sorted a ->
  (forall y, y ∈ a -> ~ same_prefix x y) ->
  exists a', insort_right a x = Return a'
    /\ sorted a'
    /\ (forall y, y ∈ a' <-> y = x \/ y ∈ a).
Proof.
  intros Hs Hfresh. unfold insort_right, bisect_right.
  assert (H0 : forall i y, (i < 0)%nat -> a !! i = Some y -> key_lt y x)
    by (intros; lia).
  assert (H1 : forall i y, (length a <= i)%nat -> a !! i = Some y -> key_lt x y).
  { intros i y Hi Hy. apply lookup_lt_Some in Hy. lia. }
  destruct (bisect_right_loop_spec a x Hs Hfresh (length a) 0 (length a)
              ltac:(lia) ltac:(lia) H0 H1)
    as (p & -> & Hp & Hlo & Hhi).
  eexists; split; [reflexivity|]. split.
  - apply sorted_insert_at; auto.
  - intros y. apply elem_of_list_insert_at.
Qed.

Lemma list_remove_Some a x :
  x ∈ a -> exists a1 a2, a = a1 ++ x :: a2 /\ list_remove x a = Some (a1 ++ a2)
                         /\ x ∉ a1.
Proof.
  induction a as [|y a IH]; intros Hin.
  - inversion Hin.
  - simpl. destruct (tuple_eqb y x) eqn:E.
    + apply tuple_eqb_eq in E as ->. exists [], a. split; [|split]; auto.
      apply not_elem_of_nil.
    + assert (Hne : y <> x) by (intros ->; rewrite tuple_eqb_refl in E; discriminate).
      apply elem_of_cons in Hin as [->|Hin]; [congruence|].
      destruct (IH Hin) as (a1 & a2 & -> & -> & Hn).
      exists (y :: a1), a2. split; [|split]; auto.
      rewrite not_elem_of_cons. auto.
Qed.

Lemma list_remove_None a x : x ∉ a -> list_remove x a = None.
Proof.
  induction a as [|y a IH]; intros Hin; simpl; auto.
  apply not_elem_of_cons in Hin as [Hne Hin].
  destruct (tuple_eqb y x) eqn:E.
  - apply tuple_eqb_eq in E. congruence.
  - rewrite IH; auto.
Qed.

Lemma sorted_app_remove a1 a2 x : sorted (a1 ++ x :: a2) -> sorted (a1 ++ a2).
Proof.
  unfold sorted. intros Hs.
  apply StronglySorted_app in Hs as (H12 & Hs1 & Hs2).
  apply StronglySorted_app_2; auto.
  - intros u v Hu Hv. apply H12; auto. apply elem_of_cons. auto.
  - inversion Hs2; auto.
Qed.

Lemma sorted_NoDup a : sorted a -> NoDup a.
Proof.
  induction 1 as [|x a Hs IH Hall]; constructor; auto.
  intros Hin. rewrite Forall_forall in Hall.
  exact (key_lt_irrefl x (Hall x Hin)).
Qed.

End SortedLists.

(** * Facts about the semaphore *)

Module SemaphoreFacts.
Import Semaphore.

Implicit Types (s : semaphore) (fs : gmap nat fut_state) (ws : list entry)
  (u g obj : entry) (f : nat).

(** ** Futures *)

Lemma fut_done_insert_result fs f f' :
  fut_done fs f' = true -> fut_done (<[f := FutResult]> fs) f' = true.
Proof.
  unfold fut_done, fut_state_of. intros H.
  destruct (decide (f = f')) as [->|Hne].
  - rewrite lookup_insert_eq. reflexivity.
  - rewrite lookup_insert_ne; auto.
Qed.

Lemma fut_done_insert_same fs f : fut_done (<[f := FutResult]> fs) f = true.
Proof. unfold fut_done, fut_state_of. rewrite lookup_insert_eq. reflexivity. Qed.

Lemma fut_done_pending fs f :
  fut_done fs f = false <-> fut_state_of fs f = FutPending.
Proof. unfold fut_done. destruct (fut_state_of fs f); split; congruence. Qed.

(** ** [_wake_up_next] *)

Lemma first_not_done_None fs ws :
  first_not_done fs ws = None <-> all_done fs ws.
Proof.
  unfold all_done. induction ws as [|w ws IH]; simpl.
  - split; auto.
  - destruct (fut_done fs (entry_obj w)) eqn:E.
    + rewrite IH. split; [intros; constructor; auto | inversion 1; auto].
    + split; [discriminate | inversion 1; congruence].
Qed.

Lemma first_not_done_Some fs ws f :
  first_not_done fs ws = Some f ->
  exists l1 g l2, ws = l1 ++ g :: l2 /\ entry_obj g = f
    /\ fut_done fs f = false /\ all_done fs l1.
Proof.
  unfold all_done. induction ws as [|w ws IH]; simpl; [discriminate|].
  destruct (fut_done fs (entry_obj w)) eqn:E.
  - intros H. destruct (IH H) as (l1 & g & l2 & -> & Hg & Hp & Hd).
    exists (w :: l1), g, l2. repeat split; auto.
  - intros [= <-]. exists [], w, ws. repeat split; auto.
Qed.

Lemma first_not_done_app_done fs l0 ws :
  all_done fs l0 -> first_not_done fs (l0 ++ ws) = first_not_done fs ws.
Proof.
  unfold all_done. induction 1 as [|w l0 Hw _ IH]; simpl; auto.
  rewrite Hw. exact IH.
Qed.

Lemma all_done_insert_result fs f ws :
  all_done fs ws -> all_done (<[f := FutResult]> fs) ws.
Proof.
  unfold all_done. intros H. eapply Forall_impl; [exact H|].
  intros u. apply fut_done_insert_result.
Qed.

Lemma wake_up_next_false s :
  first_not_done (futures s) (_waiters s) = None -> _wake_up_next s = (false, s).
Proof. unfold _wake_up_next. intros ->. reflexivity. Qed.

Lemma wake_up_next_true s f :
  first_not_done (futures s) (_waiters s) = Some f ->
  _wake_up_next s = (true, granted s 1 (<[f := FutResult]> (futures s))).
Proof. unfold _wake_up_next. intros ->. reflexivity. Qed.

Lemma granted_0 s : granted s 0 (futures s) = s.
Proof. destruct s. unfold granted, with_futures, with_value. simpl. f_equal. lia. Qed.

Lemma granted_granted s k fs k' fs' :
  granted (granted s k fs) k' fs' = granted s (k + k') fs'.
Proof. unfold granted, with_futures, with_value. simpl. f_equal. lia. Qed.

(** ** The two wake-up loops grant in queue order *)

Lemma wake_up_to_grant ws : forall n s l0,
  _waiters s = l0 ++ ws -> all_done (futures s) l0 ->
  wake_up_to n s =
    granted s (grant_in_order ws n (futures s)).1 (grant_in_order ws n (futures s)).2.
Proof.
  induction ws as [|w ws IH]; intros n s l0 Hws Hd.
  - simpl. rewrite granted_0. destruct n as [|n]; simpl; auto.
    rewrite wake_up_next_false; auto.
    apply first_not_done_None. rewrite Hws, app_nil_r. exact Hd.
  - destruct n as [|n]; [simpl; rewrite granted_0; reflexivity|].
    cbn [grant_in_order].
    destruct (fut_done (futures s) (entry_obj w)) eqn:E.
    + apply (IH (S n) s (l0 ++ [w])).
      * rewrite Hws, <- app_assoc. reflexivity.
      * apply Forall_app. split; auto.
    + cbn [wake_up_to].
      rewrite (wake_up_next_true s (entry_obj w)).
      2:{ rewrite Hws, first_not_done_app_done by exact Hd. simpl. rewrite E. reflexivity. }
      rewrite (IH n _ (l0 ++ [w])).
      * simpl futures.
        destruct (grant_in_order ws n (<[entry_obj w:=FutResult]> (futures s))) as [k fs'].
        simpl. rewrite granted_granted. reflexivity.
      * simpl. rewrite Hws, <- app_assoc. reflexivity.
      * simpl. apply Forall_app. split.
        -- apply all_done_insert_result, Hd.
        -- constructor; [apply fut_done_insert_same | constructor].
Qed.

Lemma top_up_loop_grant ws : forall fuel s l0,
  (Z.to_nat (_value s) <= fuel)%nat ->
  _waiters s = l0 ++ ws -> all_done (futures s) l0 ->
  top_up_loop fuel s =
    granted s (grant_in_order ws (Z.to_nat (_value s)) (futures s)).1
              (grant_in_order ws (Z.to_nat (_value s)) (futures s)).2.
Proof.
  induction ws as [|w ws IH]; intros fuel s l0 Hfuel Hws Hd.
  - simpl. rewrite granted_0. destruct fuel as [|fuel]; simpl; auto.
    destruct (0 <? _value s); auto.
    rewrite wake_up_next_false; auto.
    apply first_not_done_None. rewrite Hws, app_nil_r. exact Hd.
  - destruct (Z.to_nat (_value s)) as [|m] eqn:Ev.
    { simpl. rewrite granted_0. destruct fuel as [|fuel]; simpl; auto.
      destruct (Z.ltb_spec 0 (_value s)); [lia | reflexivity]. }
    destruct fuel as [|fuel]; [lia|].
    cbn [grant_in_order].
    destruct (fut_done (futures s) (entry_obj w)) eqn:E.
    + rewrite <- Ev. apply (IH (S fuel) s (l0 ++ [w])).
      * lia.
      * rewrite Hws, <- app_assoc. reflexivity.
      * apply Forall_app. split; auto.
    + cbn [top_up_loop].
      destruct (Z.ltb_spec 0 (_value s)) as [Hpos|]; [|lia].
      rewrite (wake_up_next_true s (entry_obj w)).
      2:{ rewrite Hws, first_not_done_app_done by exact Hd. simpl. rewrite E. reflexivity. }
      set (s1 := granted s 1 (<[entry_obj w:=FutResult]> (futures s))).
      assert (Hv : Z.to_nat (_value s1) = m) by (simpl; lia).
      assert (Hf : futures s1 = <[entry_obj w:=FutResult]> (futures s)) by reflexivity.
      rewrite (IH fuel s1 (l0 ++ [w])).
      * rewrite Hv, Hf.
        destruct (grant_in_order ws m (<[entry_obj w:=FutResult]> (futures s))) as [k fs'].
        subst s1. simpl. rewrite granted_granted. reflexivity.
      * lia.
      * simpl. rewrite Hws, <- app_assoc. reflexivity.
      * simpl. apply Forall_app. split.
        -- apply all_done_insert_result, Hd.
        -- constructor; [apply fut_done_insert_same | constructor].
Qed.

Lemma top_up_grant s :
  top_up s =
    granted s (grant_in_order (_waiters s) (Z.to_nat (_value s)) (futures s)).1
              (grant_in_order (_waiters s) (Z.to_nat (_value s)) (futures s)).2.
Proof.
  unfold top_up. apply (top_up_loop_grant (_waiters s) _ s []); auto.
  constructor.
Qed.

(** More fuel than [Z.to_nat (_value s)] changes nothing: the loop of
    [top_up] has ended by then. *)
Lemma top_up_loop_fuel s fuel :
  (Z.to_nat (_value s) <= fuel)%nat -> top_up_loop fuel s = top_up s.
Proof.
  intros H. rewrite top_up_grant.
  apply (top_up_loop_grant (_waiters s) fuel s []); auto. constructor.
Qed.

(** ** What [grant_in_order] does *)

Lemma grant_in_order_le ws : forall n fs, ((grant_in_order ws n fs).1 <= n)%nat.
Proof.
  induction ws as [|w ws IH]; intros n fs; simpl; [lia|].
  destruct n as [|n]; simpl; [lia|].
  destruct (fut_done fs (entry_obj w)).
  - apply IH.
  - specialize (IH n (<[entry_obj w:=FutResult]> fs)).
    destruct (grant_in_order ws n _) as [k fs']. simpl in *. lia.
Qed.

Lemma grant_in_order_all_done ws : forall n fs,
  all_done fs ws -> grant_in_order ws n fs = (O, fs).
Proof.
  induction ws as [|w ws IH]; intros n fs Hd; simpl; auto.
  destruct n as [|n]; auto.
  inversion Hd as [|? ? Hw Hd']; subst. rewrite Hw. apply IH, Hd'.
Qed.

(** A future changes only by going from pending to granted, and only if
    it is the future of a queued waiter. *)
Lemma grant_in_order_lookup ws : forall n fs f,
  (grant_in_order ws n fs).2 !! f = fs !! f
  \/ ((grant_in_order ws n fs).2 !! f = Some FutResult
      /\ fut_done fs f = false /\ f ∈ map entry_obj ws).
Proof.
  induction ws as [|w ws IH]; intros n fs f; simpl; auto.
  destruct n as [|n]; simpl; auto.
  destruct (fut_done fs (entry_obj w)) eqn:E.
  - destruct (IH (S n) fs f) as [H|(H1 & H2 & H3)]; auto.
    right. repeat split; auto. apply elem_of_cons. auto.
  - specialize (IH n (<[entry_obj w:=FutResult]> fs) f).
    destruct (grant_in_order ws n _) as [k fs']. simpl in *.
    destruct (decide (entry_obj w = f)) as [Heq|Hne].
    + right. subst f. split; [|split; [exact E | apply elem_of_cons; auto]].
      destruct IH as [H|(H & _)]; auto.
      rewrite H. apply lookup_insert_eq.
    + rewrite lookup_insert_ne in IH by exact Hne.
      destruct IH as [H|(H1 & H2 & H3)]; auto.
      right. repeat split; auto.
      * unfold fut_done, fut_state_of in *.
        rewrite lookup_insert_ne in H2 by exact Hne. exact H2.
      * apply elem_of_cons. auto.
Qed.

Lemma grant_in_order_done ws n fs f :
  fut_done fs f = true -> (grant_in_order ws n fs).2 !! f = fs !! f.
Proof.
  intros Hd. destruct (grant_in_order_lookup ws n fs f) as [H|(_ & H & _)]; auto.
  congruence.
Qed.

Lemma grant_in_order_keeps_done ws n fs f :
  fut_done fs f = true -> fut_done (grant_in_order ws n fs).2 f = true.
Proof.
  intros Hd. unfold fut_done, fut_state_of in *.
  rewrite grant_in_order_done; auto.
Qed.

(** With a permit to give, the first waiter that is not done gets it. *)
Lemma grant_in_order_first ws n fs f :
  (0 < n)%nat -> first_not_done fs ws = Some f ->
  (grant_in_order ws n fs).2 !! f = Some FutResult
  /\ (0 < (grant_in_order ws n fs).1)%nat.
Proof.
  revert n fs. induction ws as [|w ws IH]; intros n fs Hn; simpl; [discriminate|].
  destruct n as [|n]; [lia|].
  destruct (fut_done fs (entry_obj w)) eqn:E.
  - intros H. apply IH; auto.
  - intros [= <-].
    pose proof (grant_in_order_done ws n (<[entry_obj w:=FutResult]> fs) (entry_obj w)
                  (fut_done_insert_same _ _)) as H.
    destruct (grant_in_order ws n _) as [k fs']. simpl in *.
    rewrite H, lookup_insert_eq. split; [reflexivity | lia].
Qed.

(** Fewer grants than permits: nobody is left to grant. *)
Lemma grant_in_order_early_stop ws : forall n fs,
  ((grant_in_order ws n fs).1 < n)%nat ->
  all_done (grant_in_order ws n fs).2 ws.
Proof.
  unfold all_done.
  induction ws as [|w ws IH]; intros n fs Hk; simpl; [constructor|].
  destruct n as [|n]; [simpl in Hk; lia|]. simpl in Hk.
  destruct (fut_done fs (entry_obj w)) eqn:E.
  - constructor; [|apply IH; exact Hk].
    apply grant_in_order_keeps_done. exact E.
  - specialize (IH n (<[entry_obj w:=FutResult]> fs)).
    pose proof (grant_in_order_keeps_done ws n (<[entry_obj w:=FutResult]> fs)
                  (entry_obj w) (fut_done_insert_same _ _)) as Hw.
    destruct (grant_in_order ws n _) as [k fs']. simpl in *.
    constructor; [exact Hw | apply IH; lia].
Qed.

Lemma grant_in_order_0 ws fs : grant_in_order ws 0 fs = (O, fs).
Proof. destruct ws; reflexivity. Qed.

(** ** Reachable states are well formed *)

Lemma same_queue_refl s : same_queue s s.
Proof. unfold same_queue. auto. Qed.

Lemma same_queue_trans s1 s2 s3 :
  same_queue s1 s2 -> same_queue s2 s3 -> same_queue s1 s3.
Proof. unfold same_queue. intuition congruence. Qed.

Lemma same_queue_granted s k fs : same_queue s (granted s k fs).
Proof. unfold same_queue. auto. Qed.

Lemma same_queue_with_value s v : same_queue s (with_value s v).
Proof. unfold same_queue. auto. Qed.

Lemma same_queue_with_futures s fs : same_queue s (with_futures s fs).
Proof. unfold same_queue. auto. Qed.

Lemma well_formed_same_queue s s' :
  same_queue s s' -> well_formed s -> well_formed s'.
Proof.
  unfold same_queue, well_formed. intros (-> & -> & -> & _). auto.
Qed.

Lemma wake_up_next_same_queue s : same_queue s (_wake_up_next s).2.
Proof.
  unfold _wake_up_next. destruct (first_not_done _ _); simpl.
  - unfold same_queue. auto.
  - apply same_queue_refl.
Qed.

Lemma wake_up_to_same_queue n s : same_queue s (wake_up_to n s).
Proof.
  rewrite (wake_up_to_grant (_waiters s) n s []); auto; [|constructor].
  apply same_queue_granted.
Qed.

Lemma top_up_same_queue s : same_queue s (top_up s).
Proof. rewrite top_up_grant. apply same_queue_granted. Qed.

Lemma release_same_queue s : same_queue s (release s).2.
Proof.
  unfold release. destruct (_max_value s <=? _value s); simpl.
  - apply same_queue_refl.
  - eapply same_queue_trans; [apply (same_queue_with_value s)|].
    apply wake_up_next_same_queue.
Qed.

Lemma set_max_value_waiters s n :
  _waiters (set_max_value s n).2 = _waiters s
  /\ _comparison_counter (set_max_value s n).2 = _comparison_counter s
  /\ next_future (set_max_value s n).2 = next_future s.
Proof.
  unfold set_max_value. destruct (n <? 0); simpl; auto.
  match goal with |- context [wake_up_to ?k ?t] =>
    destruct (wake_up_to_same_queue k t) as (-> & -> & -> & _) end.
  auto.
Qed.

Lemma NoDup_objs_inj ws u v :
  NoDup (map entry_obj ws) -> u ∈ ws -> v ∈ ws -> entry_obj u = entry_obj v -> u = v.
Proof.
  induction ws as [|w ws IH]; simpl; intros Hnd Hu Hv Huv.
  - inversion Hu.
  - apply NoDup_cons in Hnd as [Hw Hnd].
    apply elem_of_cons in Hu as [->|Hu], Hv as [->|Hv]; auto.
    + exfalso. apply Hw. rewrite Huv. apply (list_elem_of_fmap_2 entry_obj), Hv.
    + exfalso. apply Hw. rewrite <- Huv. apply (list_elem_of_fmap_2 entry_obj), Hu.
Qed.

(** The three ways [acquire] can go before it suspends. *)
Lemma acquire_enter_cases s running priority :
  well_formed s ->
  let obj := (- priority, _comparison_counter s + 1, next_future s) in
  (locked s = false
   /\ acquire_enter s running priority = (Acquired, with_value s (_value s - 1)))
  \/ (locked s = true
      /\ (exists l, _loop s = Some l /\ l <> running)
      /\ exists s', acquire_enter s running priority = (Failed RuntimeError, s')
           /\ _waiters s' = _waiters s /\ _value s' = _value s
           /\ futures s' = futures s /\ next_future s' = next_future s
           /\ _max_value s' = _max_value s
           /\ _comparison_counter s' = _comparison_counter s + 1)
  \/ (locked s = true
      /\ (_loop s = None \/ _loop s = Some running)
      /\ exists ws, insort_right (_waiters s) obj = Return ws
           /\ sorted ws
           /\ (forall y, y ∈ ws <-> y = obj \/ y ∈ _waiters s)
           /\ acquire_enter s running priority =
                (Suspended obj,
                 {| _value := _value s; _max_value := _max_value s;
                    _comparison_counter := _comparison_counter s + 1;
                    _waiters := ws; _loop := Some running;
                    futures := <[next_future s := FutPending]> (futures s);
                    next_future := S (next_future s) |})).
Proof.
  intros (Hs & Hc & Hf & Hn) obj. unfold acquire_enter.
  destruct (locked s) eqn:El; simpl; [right | left; auto].
  assert (Hfresh : forall y, y ∈ _waiters s -> ~ same_prefix obj y).
  { intros y Hy [_ H]. apply Hc in Hy. subst obj.
    unfold entry_count in *. simpl in H. lia. }
  destruct (insort_right_sorted (_waiters s) obj Hs Hfresh) as (ws & Hins & Hsw & Hin).
  subst obj. unfold _get_loop. simpl.
  destruct (_loop s) as [l|] eqn:Eloop; simpl.
  - destruct (Nat.eqb_spec l running) as [->|Hne]; simpl.
    + right. split; auto. split; auto. exists ws.
      rewrite Hins. auto.
    + left. split; auto. split; [eauto|]. eexists; split; [reflexivity|].
      simpl. auto 10.
  - rewrite Nat.eqb_refl. simpl. right. split; auto. split; auto.
    exists ws. rewrite Hins. auto.
Qed.

Lemma acquire_enter_well_formed s running priority :
  well_formed s -> well_formed (acquire_enter s running priority).2.
Proof.
  intros Hwf. pose proof Hwf as (Hs & Hc & Hf & Hn).
  destruct (acquire_enter_cases s running priority Hwf)
    as [(_ & ->)|[(_ & _ & s' & -> & Hw & _ & _ & Hnf & _ & Hcc)
                 |(_ & _ & ws & _ & Hsw & Hin & ->)]]; simpl.
  - eapply well_formed_same_queue; [apply same_queue_with_value | exact Hwf].
  - unfold well_formed. rewrite Hw, Hcc, Hnf. repeat split; auto.
    intros u Hu. apply Hc in Hu. lia.
  - unfold well_formed. simpl. split; [exact Hsw|]. split; [|split].
    + intros u Hu. apply Hin in Hu as [->|Hu].
      * unfold entry_count. simpl. lia.
      * apply Hc in Hu. lia.
    + intros u Hu. apply Hin in Hu as [->|Hu].
      * unfold entry_obj. simpl. lia.
      * apply Hf in Hu. lia.
    + pose proof (sorted_NoDup ws Hsw) as Hnd.
      apply NoDup_fmap_2_strong; [|exact Hnd].
      intros x y Hx Hy Hxy.
      apply Hin in Hx, Hy.
      destruct Hx as [->|Hx], Hy as [->|Hy]; auto.
      * apply Hf in Hy. rewrite <- Hxy in Hy. unfold entry_obj in Hy. simpl in Hy. lia.
      * apply Hf in Hx. rewrite Hxy in Hx. unfold entry_obj in Hx. simpl in Hx. lia.
      * eapply NoDup_objs_inj; eauto.
Qed.

Lemma list_remove_inv ws obj r :
  list_remove obj ws = Some r ->
  exists a1 a2, ws = a1 ++ obj :: a2 /\ r = a1 ++ a2 /\ obj ∉ a1.
Proof.
  intros H. destruct (decide (obj ∈ ws)) as [Hin|Hnin].
  - destruct (list_remove_Some ws obj Hin) as (a1 & a2 & Hws & Hr & Hn).
    exists a1, a2. repeat split; auto. congruence.
  - rewrite list_remove_None in H by exact Hnin. discriminate.
Qed.

Lemma well_formed_remove s a1 a2 obj :
  well_formed s -> _waiters s = a1 ++ obj :: a2 ->
  well_formed (with_waiters s (a1 ++ a2)).
Proof.
  intros (Hs & Hc & Hf & Hn) Hws. unfold well_formed. simpl.
  rewrite Hws in *. split; [|split; [|split]].
  - eapply sorted_app_remove, Hs.
  - intros u Hu. apply Hc. rewrite elem_of_app in *. rewrite elem_of_cons. tauto.
  - intros u Hu. apply Hf. rewrite elem_of_app in *. rewrite elem_of_cons. tauto.
  - rewrite map_app in *. simpl in Hn.
    apply NoDup_app in Hn as (H1 & H2 & H3).
    apply NoDup_cons in H3 as [_ H3].
    apply NoDup_app. repeat split; auto.
    intros x Hx Hx'. apply (H2 x Hx). apply elem_of_cons. auto.
Qed.

Lemma acquire_resume_well_formed s obj mc r s' :
  well_formed s -> acquire_resume s obj mc = Some (r, s') -> well_formed s'.
Proof.
  intros Hwf. unfold acquire_resume.
  destruct (await_outcome _ _) as [raised|]; [|discriminate].
  destruct (list_remove obj (_waiters s)) as [ws|] eqn:Er.
  - apply list_remove_inv in Er as (a1 & a2 & Hws & -> & _).
    pose proof (well_formed_remove s a1 a2 obj Hwf Hws) as Hwf1.
    intros [= _ <-].
    eapply well_formed_same_queue; [apply top_up_same_queue|].
    destruct raised as [[]|]; auto.
    match goal with |- context [if ?b then _ else _] => destruct b end; auto.
  - intros [= _ <-].
    eapply well_formed_same_queue; [apply top_up_same_queue | exact Hwf].
Qed.

Lemma step_well_formed w ev w' :
  step w ev = Some w' -> well_formed (the_sem w) -> well_formed (the_sem w').
Proof.
  intros Hstep Hwf. destruct ev; simpl in Hstep.
  - pose proof (acquire_enter_well_formed (the_sem w) running priority Hwf) as H.
    destruct (acquire_enter (the_sem w) running priority) as [[] s'];
      injection Hstep as <-; exact H.
  - destruct (is_waiting _ _); [|discriminate].
    destruct (acquire_resume _ _ _) as [[r s']|] eqn:Er; [|discriminate].
    pose proof (acquire_resume_well_formed _ _ _ _ _ Hwf Er) as H.
    destruct r; injection Hstep as <-; exact H.
  - destruct (is_waiting _ _); [|discriminate].
    destruct (fut_done _ _); injection Hstep as <-; simpl; auto.
  - pose proof (release_same_queue (the_sem w)) as H.
    destruct (release (the_sem w)) as [[] s']; injection Hstep as <-; simpl in *;
      eapply well_formed_same_queue; eauto.
  - injection Hstep as <-. simpl.
    destruct (set_max_value_waiters (the_sem w) new_value) as (H1 & H2 & H3).
    destruct Hwf as (Hs & Hc & Hf & Hn).
    unfold well_formed. rewrite H1, H2, H3. auto.
  - injection Hstep as <-. simpl.
    eapply well_formed_same_queue; [apply same_queue_with_futures | exact Hwf].
Qed.

Lemma run_well_formed evs : forall w w',
  run w evs = Some w' -> well_formed (the_sem w) -> well_formed (the_sem w').
Proof.
  induction evs as [|ev evs IH]; simpl; intros w w' Hrun Hwf.
  - injection Hrun as <-. exact Hwf.
  - destruct (step w ev) as [w1|] eqn:Es; [|discriminate].
    eapply IH; eauto. eapply step_well_formed; eauto.
Qed.

Lemma init_well_formed value : well_formed (init value).
Proof.
  unfold well_formed, init. simpl. repeat split.
  - constructor.
  - intros u Hu. inversion Hu.
  - intros u Hu. inversion Hu.
  - constructor.
Qed.

Lemma reachable_well_formed value w :
  reachable value w -> well_formed (the_sem w).
Proof.
  intros [evs Hrun]. eapply run_well_formed; eauto. apply init_well_formed.
Qed.

Lemma sorted_split_served_before a1 g a2 u :
  sorted (a1 ++ g :: a2) -> u ∈ a2 -> served_before g u.
Proof.
  unfold sorted. intros Hs Hu.
  apply StronglySorted_app in Hs as (_ & _ & Hs).
  apply StronglySorted_cons in Hs as [Hall _].
  rewrite Forall_forall in Hall. specialize (Hall u Hu).
  unfold served_before, priority_of, sequence_of. unfold key_lt in Hall. lia.
Qed.

(** ** Grant order *)

Lemma three_waiters_reachable : reachable 1 three_waiters.
Proof. exists scenario_three_waiters. vm_compute. reflexivity. Qed.

(** C1: in every reachable state a grant goes to the pending waiter of the
    highest priority and, among those, of the earliest arrival; a waiter
    is queued under its priority with a sequence number above all queued
    ones; and no grant is made only when no queued waiter is pending. *)
Theorem grants_follow_priority_then_arrival value w :
  reachable value w ->
  (forall s', _wake_up_next (the_sem w) = (true, s') ->
     exists g, g ∈ _waiters (the_sem w) /\ pending (the_sem w) g
       /\ s' = granted (the_sem w) 1
                 (<[entry_obj g := FutResult]> (futures (the_sem w)))
       /\ forall u, u ∈ _waiters (the_sem w) -> pending (the_sem w) u ->
                    u <> g -> served_before g u)
  /\ (forall s', _wake_up_next (the_sem w) = (false, s') ->
        s' = the_sem w
        /\ forall u, u ∈ _waiters (the_sem w) -> ~ pending (the_sem w) u)
  /\ (forall running priority obj s',
        acquire_enter (the_sem w) running priority = (Suspended obj, s') ->
        priority_of obj = priority
        /\ forall u, u ∈ _waiters (the_sem w) -> sequence_of u < sequence_of obj).
Proof.
  intros Hr. pose proof (reachable_well_formed value w Hr) as Hwf.
  set (s := the_sem w) in *. split; [|split].
  - intros s' Hw. unfold _wake_up_next in Hw.
    destruct (first_not_done (futures s) (_waiters s)) as [f|] eqn:Ef;
      [|discriminate].
    injection Hw as <-.
    apply first_not_done_Some in Ef as (l1 & g & l2 & Hws & <- & Hp & Hd).
    exists g. split; [|split; [|split]].
    + rewrite Hws. apply elem_of_app. right. apply elem_of_cons. auto.
    + apply fut_done_pending, Hp.
    + reflexivity.
    + intros u Hu Hpu Hne. rewrite Hws in Hu.
      apply elem_of_app in Hu as [Hu|Hu].
      * unfold all_done in Hd. rewrite Forall_forall in Hd.
        apply Hd in Hu. apply fut_done_pending in Hpu. congruence.
      * apply elem_of_cons in Hu as [->|Hu]; [congruence|].
        destruct Hwf as (Hs & _). rewrite Hws in Hs.
        eapply sorted_split_served_before; eauto.
  - intros s' Hw. unfold _wake_up_next in Hw.
    destruct (first_not_done (futures s) (_waiters s)) as [f|] eqn:Ef;
      [discriminate|].
    injection Hw as <-. split; auto.
    apply first_not_done_None in Ef. unfold all_done in Ef.
    rewrite Forall_forall in Ef. intros u Hu Hp.
    apply Ef in Hu. apply fut_done_pending in Hp. congruence.
  - intros running priority obj s' Ha.
    destruct (acquire_enter_cases s running priority Hwf)
      as [(_ & E)|[(_ & _ & s1 & E & _)|(_ & _ & ws & _ & _ & _ & E)]];
      rewrite E in Ha; try discriminate.
    injection Ha as <- <-. split.
    + unfold priority_of, entry_neg. simpl. lia.
    + intros u Hu. destruct Hwf as (_ & Hc & _). apply Hc in Hu.
      unfold sequence_of, entry_count in *. simpl. lia.
Qed.

Lemma three_waiters_grant :
  reachable 1 three_waiters
  /\ (forall s', _wake_up_next (the_sem three_waiters) = (true, s') ->
        exists g, g ∈ _waiters (the_sem three_waiters)
          /\ pending (the_sem three_waiters) g
          /\ s' = granted (the_sem three_waiters) 1
                    (<[entry_obj g := FutResult]> (futures (the_sem three_waiters)))
          /\ forall u, u ∈ _waiters (the_sem three_waiters) ->
                       pending (the_sem three_waiters) u ->
                       u <> g -> served_before g u).
Proof.
  split.
  - exists scenario_three_waiters. vm_compute. reflexivity.
  - apply (grants_follow_priority_then_arrival 1 three_waiters).
    exists scenario_three_waiters. vm_compute. reflexivity.
Defined.

(** The spec's example: W1 (priority 5), W2 (priority 5) and W3
    (priority 10) queue in this order behind the holder of the only
    permit; releases grant W3, then W1, then W2. *)
Example grant_order_W3_W1_W2 :
  let W1 := (-5, 1, 0%nat) in
  let W2 := (-5, 2, 1%nat) in
  let W3 := (-10, 3, 2%nat) in
  let state evs := fmap (fun w => map_to_list (futures (the_sem w)))
                     (run three_waiters evs) in
  state [Release]
    = Some [(2%nat, FutResult); (1%nat, FutPending); (0%nat, FutPending)]
  /\ state [Release; Resume W3; Release]
    = Some [(2%nat, FutResult); (1%nat, FutPending); (0%nat, FutResult)]
  /\ state [Release; Resume W3; Release; Resume W1; Release]
    = Some [(2%nat, FutResult); (1%nat, FutResult); (0%nat, FutResult)].
Proof. vm_compute. auto. Qed.

(** ** [locked] and late arrivals *)

Lemma locked_iff s :
  locked s = true
  <-> _value s <= 0
      \/ exists u, u ∈ _waiters s /\ fut_cancelled (futures s) (entry_obj u) = false.
Proof.
  unfold locked. rewrite orb_true_iff, Z.leb_le, existsb_exists.
  split; (intros [H|(u & Hu & Hc)]; [left; exact H | right; exists u]).
  - apply list_elem_of_In in Hu. apply negb_true_iff in Hc. auto.
  - apply list_elem_of_In in Hu. rewrite negb_true_iff. auto.
Qed.

(** C3: [locked()] is true exactly when the counter is at most zero or a
    waiter that is not cancelled is queued; so in a reachable state with a
    positive counter and such a waiter in the queue, [acquire] takes no
    permit: the counter stays as it is and, called on the loop the
    semaphore is bound to, it queues a new pending waiter and suspends. *)
Theorem locked_iff_and_late_acquire_suspends s value w running priority :
  reachable value w ->
  (locked s = true
   <-> _value s <= 0
       \/ exists u, u ∈ _waiters s
                    /\ fut_cancelled (futures s) (entry_obj u) = false)
  /\ (0 < _value (the_sem w) ->
      (exists u, u ∈ _waiters (the_sem w)
                 /\ fut_cancelled (futures (the_sem w)) (entry_obj u) = false) ->
      (acquire_enter (the_sem w) running priority).1 <> Acquired
      /\ _value (acquire_enter (the_sem w) running priority).2 = _value (the_sem w)
      /\ ((_loop (the_sem w) = None \/ _loop (the_sem w) = Some running) ->
          let obj := (- priority, _comparison_counter (the_sem w) + 1,
                      next_future (the_sem w)) in
          (acquire_enter (the_sem w) running priority).1 = Suspended obj
          /\ obj ∈ _waiters (acquire_enter (the_sem w) running priority).2
          /\ pending (acquire_enter (the_sem w) running priority).2 obj
          /\ forall u, u ∈ _waiters (the_sem w) ->
                       u ∈ _waiters (acquire_enter (the_sem w) running priority).2)).
Proof.
  intros Hr. split; [apply locked_iff|].
  intros Hpos Hq. pose proof (reachable_well_formed value w Hr) as Hwf.
  assert (Hl : locked (the_sem w) = true) by (apply locked_iff; auto).
  destruct (acquire_enter_cases (the_sem w) running priority Hwf)
    as [(E & _)|[(_ & (l & Hl1 & Hl2) & s' & E & _ & Hv & _)
                |(_ & _ & ws & _ & _ & Hin & E)]].
  - congruence.
  - rewrite E. simpl. split; [discriminate|]. split; [exact Hv|].
    intros [H|H]; congruence.
  - rewrite E. simpl. split; [discriminate|]. split; [reflexivity|].
    intros _. split; [reflexivity|]. split; [|split].
    + apply Hin. auto.
    + unfold pending, fut_state_of. simpl. rewrite lookup_insert_eq. reflexivity.
    + intros u Hu. apply Hin. auto.
Qed.

Lemma late_arrival_suspends :
  reachable 2 late_arrival
  /\ 0 < _value (the_sem late_arrival)
  /\ (acquire_enter (the_sem late_arrival) 0 7).1 = Suspended (-7, 2, 1%nat)
  /\ _value (acquire_enter (the_sem late_arrival) 0 7).2 = 1.
Proof.
  assert (Hr : reachable 2 late_arrival)
    by (exists scenario_late_arrival; vm_compute; reflexivity).
  assert (Hpos : 0 < _value (the_sem late_arrival)) by (simpl; lia).
  assert (Hq : exists u, u ∈ _waiters (the_sem late_arrival)
             /\ fut_cancelled (futures (the_sem late_arrival)) (entry_obj u) = false).
  { exists (0, 1, 0%nat). split; [apply list_elem_of_here | reflexivity]. }
  destruct (locked_iff_and_late_acquire_suspends (the_sem late_arrival) 2
              late_arrival 0 7 Hr) as (_ & H).
  destruct (H Hpos Hq) as (_ & Hv & Hs).
  destruct (Hs (or_intror eq_refl)) as (Hobj & _).
  repeat split; auto.
Defined.

(** ** The [max_value] setter *)

Lemma set_max_value_eq s new_value :
  set_max_value s new_value =
    (if new_value <? 0 then (Raise ValueError, s)
     else
       let delta := new_value - _max_value s in
       let n := Z.to_nat (Z.max 0 delta) in
       (Return tt,
        {| _value := _value s + delta
                     - Z.of_nat (grant_in_order (_waiters s) n (futures s)).1;
           _max_value := new_value;
           _comparison_counter := _comparison_counter s;
           _waiters := _waiters s; _loop := _loop s;
           futures := (grant_in_order (_waiters s) n (futures s)).2;
           next_future := next_future s |})).
Proof.
  unfold set_max_value. destruct (new_value <? 0); [reflexivity|].
  cbn zeta. f_equal.
  match goal with |- wake_up_to ?m ?t = _ =>
    rewrite (wake_up_to_grant (_waiters s) m t []); [|reflexivity|constructor] end.
  unfold granted, with_futures, with_value. simpl. f_equal. lia.
Qed.

(** C4: with a negative argument the setter raises [ValueError] and
    changes nothing.  Otherwise it adds [delta = new_value - max_value] to
    the counter and to the maximum, and then grants queued waiters in
    queue order, one permit each: [delta] of them when [delta] is
    positive (fewer only when no waiter is left that is not done), none
    otherwise; nothing else changes, so a negative [delta] takes no permit
    back and may leave the counter at or below zero. *)
Theorem max_value_setter_spec s new_value :
  let delta := new_value - _max_value s in
  let n := Z.to_nat (Z.max 0 delta) in
  let k := (grant_in_order (_waiters s) n (futures s)).1 in
  let fs := (grant_in_order (_waiters s) n (futures s)).2 in
  set_max_value s new_value =
    (if new_value <? 0 then (Raise ValueError, s)
     else (Return tt,
           {| _value := _value s + delta - Z.of_nat k;
              _max_value := new_value;
              _comparison_counter := _comparison_counter s;
              _waiters := _waiters s; _loop := _loop s;
              futures := fs; next_future := next_future s |}))
  /\ (k <= n)%nat
  /\ ((k < n)%nat -> all_done fs (_waiters s))
  /\ (delta <= 0 -> k = O /\ fs = futures s)
  /\ (forall f, fs !! f = futures s !! f
                \/ (fs !! f = Some FutResult /\ fut_done (futures s) f = false
                    /\ f ∈ map entry_obj (_waiters s))).
Proof.
  intros delta n k fs. split; [|split; [|split; [|split]]].
  - apply set_max_value_eq.
  - apply grant_in_order_le.
  - apply grant_in_order_early_stop.
  - intros Hd. subst k fs. replace n with O by lia.
    rewrite grant_in_order_0. auto.
  - apply grant_in_order_lookup.
Qed.

(** ** [release] *)

(** C5, the claim as stated fails: after a waiter was granted, a second
    release was accepted and the waiter's task was cancelled before it
    ran, the counter is 2 with a maximum of 1; [release] raises there
    although the counter does not equal the maximum. *)
Lemma release_raises_above_max_value :
  exists w, run (start 1) scenario_over_release = Some w
    /\ _value (the_sem w) = 2 /\ _max_value (the_sem w) = 1
    /\ release (the_sem w) = (Raise ValueError, the_sem w).
Proof. eexists. vm_compute. repeat split. Qed.

(** C5, amended: [release] raises [ValueError] exactly when the counter is
    at least the maximum, and then changes nothing; otherwise it returns,
    the counter goes up by one, and the first queued waiter that is not
    done, if there is one, is granted with that permit. *)
Theorem release_spec s :
  ((release s).1 = Raise ValueError <-> _max_value s <= _value s)
  /\ (_max_value s <= _value s -> release s = (Raise ValueError, s))
  /\ (_value s < _max_value s ->
      (release s).1 = Return tt
      /\ ((all_done (futures s) (_waiters s)
           /\ (release s).2 = with_value s (_value s + 1))
          \/ (exists l1 g l2,
                _waiters s = l1 ++ g :: l2 /\ all_done (futures s) l1
                /\ pending s g
                /\ (release s).2
                   = with_futures s (<[entry_obj g := FutResult]> (futures s))))).
Proof.
  unfold release. destruct (Z.leb_spec (_max_value s) (_value s)) as [H|H]; simpl.
  - split; [split; auto|]. split; [auto | intros; lia].
  - split; [split; [discriminate | lia]|]. split; [lia|]. intros _.
    split; [reflexivity|]. unfold _wake_up_next. simpl.
    destruct (first_not_done (futures s) (_waiters s)) as [f|] eqn:Ef.
    + right. apply first_not_done_Some in Ef as (l1 & g & l2 & Hws & <- & Hp & Hd).
      exists l1, g, l2. repeat split; auto.
      * apply fut_done_pending, Hp.
      * unfold with_futures, with_value. simpl. destruct s; simpl. f_equal. lia.
    + left. split; [apply first_not_done_None, Ef | reflexivity].
Qed.

(** ** Cancellation of a suspended [acquire] *)

Lemma top_up_after_resume s ws v :
  top_up (with_value (with_waiters s ws) v) = after_resume s ws v.
Proof. rewrite top_up_grant. reflexivity. Qed.

Lemma top_up_after_resume' s ws :
  top_up (with_waiters s ws) = after_resume s ws (_value s).
Proof. rewrite top_up_grant. reflexivity. Qed.

(** C2, the claim as stated fails, in two places.  First: waiter A
    [(0,1,fut 0)] was granted, the maximum was then lowered to 0 (counter
    -1) and A's task cancelled; A's resumed [acquire] restores the permit
    (counter 0) and raises, but waiter B [(0,2,fut 1)], queued and
    pending, is not granted.  Second: waiter A was cancelled before any
    grant, the maximum was raised to 3, which granted C and left the
    counter at 1, and B queued behind C; A's resumed [acquire] raises and
    leaves the counter at 0, not 1, because its closing loop granted B. *)
Lemma cancel_repair_counterexamples :
  (exists w s',
     run (start 1) scenario_deficit = Some w
     /\ fut_state_of (futures (the_sem w)) 0 = FutResult
     /\ 0%nat ∈ must_cancel w
     /\ _value (the_sem w) = -1
     /\ acquire_resume (the_sem w) (0, 1, 0%nat) true = Some (Raise CancelledError, s')
     /\ _value s' = 0
     /\ _waiters s' = [(0, 2, 1%nat)]
     /\ fut_state_of (futures s') 1 = FutPending)
  /\ (exists w s',
        run (start 1) scenario_top_up = Some w
        /\ fut_state_of (futures (the_sem w)) 0 = FutCancelled
        /\ _value (the_sem w) = 1
        /\ acquire_resume (the_sem w) (0, 1, 0%nat) false = Some (Raise CancelledError, s')
        /\ _value s' = 0
        /\ fut_state_of (futures (the_sem w)) 2 = FutPending
        /\ fut_state_of (futures s') 2 = FutResult).
Proof.
  split; eexists; eexists; vm_compute; repeat split.
Qed.

(** C2, amended: let [obj] be queued and let the queue without it be
    [a1 ++ a2].  If its future was resolved by a grant and its task was
    cancelled before running, the resumed [acquire] raises
    [CancelledError], removes [obj], adds one to the counter once and then
    grants queued waiters in queue order while the counter is positive:
    the first waiter that is not done is granted when the restored counter
    is positive, nobody when it is not.  If the future itself was
    cancelled, which happens when the task is cancelled while the future
    is pending (before any grant and before any [cancel_waiting]), the
    resumed [acquire] raises [CancelledError] and removes [obj] without
    adding to the counter; the same closing loop runs, so the counter goes
    down by one for each waiter it grants and stays as it was when it is
    not positive or nobody is left to grant.  Nothing is said here about
    a future that [cancel_waiting] failed. *)
Theorem cancelled_acquire_repair s obj :
  obj ∈ _waiters s ->
  exists a1 a2,
    _waiters s = a1 ++ obj :: a2 /\ (obj ∉ a1)
    /\ (fut_state_of (futures s) (entry_obj obj) = FutResult ->
        let s' := after_resume s (a1 ++ a2) (_value s + 1) in
        acquire_resume s obj true = Some (Raise CancelledError, s')
        /\ (0 < _value s + 1 ->
            forall f, first_not_done (futures s) (a1 ++ a2) = Some f ->
                      fut_state_of (futures s') f = FutResult
                      /\ _value s' < _value s + 1)
        /\ (_value s + 1 <= 0 ->
            _value s' = _value s + 1 /\ futures s' = futures s))
    /\ (fut_state_of (futures s) (entry_obj obj) = FutCancelled ->
        forall mc,
        let s' := after_resume s (a1 ++ a2) (_value s) in
        acquire_resume s obj mc = Some (Raise CancelledError, s')
        /\ (_value s <= 0 \/ all_done (futures s) (a1 ++ a2) ->
            _value s' = _value s /\ futures s' = futures s)).
Proof.
  intros Hin.
  destruct (list_remove_Some (_waiters s) obj Hin) as (a1 & a2 & Hws & Hr & Hn).
  exists a1, a2. split; [exact Hws|]. split; [exact Hn|]. split.
  - intros Hst s'. split; [|split].
    + unfold acquire_resume. rewrite Hst, Hr. simpl.
      unfold fut_done, fut_cancelled. rewrite Hst. simpl.
      rewrite top_up_after_resume. reflexivity.
    + intros Hpos g Hg.
      destruct (grant_in_order_first (a1 ++ a2) (Z.to_nat (_value s + 1))
                  (futures s) g ltac:(lia) Hg) as [H1 H2].
      subst s'. unfold after_resume, fut_state_of. simpl.
      rewrite H1. split; [reflexivity | lia].
    + intros Hle. subst s'. unfold after_resume. simpl.
      replace (Z.to_nat (_value s + 1)) with O by lia.
      rewrite grant_in_order_0. simpl. split; [lia | reflexivity].
  - intros Hst mc s'. split.
    + unfold acquire_resume. rewrite Hst, Hr. simpl.
      unfold fut_done, fut_cancelled. rewrite Hst. simpl.
      rewrite top_up_after_resume'. reflexivity.
    + subst s'. unfold after_resume. simpl. intros [Hle|Hd].
      * replace (Z.to_nat (_value s)) with O by lia.
        rewrite grant_in_order_0. simpl. split; [lia | reflexivity].
      * rewrite grant_in_order_all_done by exact Hd. simpl.
        split; [lia | reflexivity].
Qed.

Lemma granted_then_cancelled_reachable :
  fmap the_sem (run (start 1) scenario_granted_then_cancelled)
  = Some granted_then_cancelled.
Proof. vm_compute. reflexivity. Qed.

Lemma granted_then_cancelled_repair :
  (0, 1, 0%nat) ∈ _waiters granted_then_cancelled
  /\ exists a1 a2,
       _waiters granted_then_cancelled = a1 ++ (0, 1, 0%nat) :: a2
       /\ ((0, 1, 0%nat) ∉ a1)
       /\ (fut_state_of (futures granted_then_cancelled) 0 = FutResult ->
           acquire_resume granted_then_cancelled (0, 1, 0%nat) true
           = Some (Raise CancelledError,
                   after_resume granted_then_cancelled (a1 ++ a2) 1)).
Proof.
  assert (Hin : (0, 1, 0%nat) ∈ _waiters granted_then_cancelled)
    by apply list_elem_of_here.
  split; [exact Hin|].
  destruct (cancelled_acquire_repair granted_then_cancelled (0, 1, 0%nat) Hin)
    as (a1 & a2 & Hws & Hn & H1 & _).
  exists a1, a2. split; [exact Hws|]. split; [exact Hn|].
  intros Hst. apply (H1 Hst).
Defined.

(** ** The bound [_value <= _max_value] *)

(** C10, the code at the failing input: one permit, taken by a first
    task; a second task waits; [cancel_waiting] fails the waiter's future
    and the waiting task is cancelled before it runs; the first task
    releases its permit; the waiter's [acquire] then resumes with
    [CancelledError], finds its future done and not cancelled, and adds
    one to the counter for a permit it never had: the counter is 2, the
    maximum 1.  Every [release] of the run gave back a held permit. *)
Theorem cancel_waiting_breaks_bound :
  exists w, run_matched (start 1) scenario_cancel_waiting = Some w
    /\ _value (the_sem w) = 2 /\ _max_value (the_sem w) = 1
    /\ held w = 0 /\ _waiters (the_sem w) = [].
Proof. eexists. vm_compute. repeat split. Qed.

Lemma count_granted_nonneg fs ws : 0 <= count_granted fs ws.
Proof. induction ws as [|u ws IH]; simpl; [lia|]. destruct (is_result _ _); lia. Qed.

Lemma count_granted_app fs l1 l2 :
  count_granted fs (l1 ++ l2) = count_granted fs l1 + count_granted fs l2.
Proof. induction l1 as [|u l1 IH]; simpl; [lia|]. rewrite IH. lia. Qed.

Lemma count_granted_ext fs fs' ws :
  (forall u, u ∈ ws -> fs' !! entry_obj u = fs !! entry_obj u) ->
  count_granted fs' ws = count_granted fs ws.
Proof.
  induction ws as [|u ws IH]; simpl; intros H; [reflexivity|].
  rewrite IH by (intros v Hv; apply H; apply elem_of_cons; auto).
  unfold is_result, fut_state_of. rewrite H by apply list_elem_of_here.
  reflexivity.
Qed.

Lemma count_granted_grant ws : forall n fs,
  NoDup (map entry_obj ws) ->
  count_granted (grant_in_order ws n fs).2 ws
  = count_granted fs ws + Z.of_nat (grant_in_order ws n fs).1.
Proof.
  induction ws as [|w ws IH]; intros n fs Hnd; simpl; [lia|].
  apply NoDup_cons in Hnd as [Hw Hnd].
  destruct n as [|n]; simpl; [lia|].
  destruct (fut_done fs (entry_obj w)) eqn:E.
  - rewrite IH by exact Hnd.
    unfold is_result at 1, fut_state_of.
    rewrite grant_in_order_done by exact E.
    fold (fut_state_of fs (entry_obj w)). fold (is_result fs (entry_obj w)). lia.
  - specialize (IH n (<[entry_obj w:=FutResult]> fs) Hnd).
    pose proof (grant_in_order_done ws n (<[entry_obj w:=FutResult]> fs)
                  (entry_obj w) (fut_done_insert_same _ _)) as Hk.
    destruct (grant_in_order ws n _) as [k fs']. simpl in *.
    rewrite IH.
    rewrite (count_granted_ext fs (<[entry_obj w:=FutResult]> fs) ws).
    2:{ intros u Hu. apply lookup_insert_ne. intros Heq. apply Hw.
        rewrite Heq. apply (list_elem_of_fmap_2 entry_obj), Hu. }
    unfold is_result, fut_state_of. rewrite Hk, lookup_insert_eq. simpl.
    apply fut_done_pending in E. unfold fut_state_of in E. rewrite E. lia.
Qed.

Lemma no_exception_grant ws n fs :
  no_exception fs -> no_exception (grant_in_order ws n fs).2.
Proof.
  intros H f e. destruct (grant_in_order_lookup ws n fs f) as [->|(-> & _)].
  - apply H.
  - discriminate.
Qed.

Lemma no_exception_insert fs f st :
  (forall e, st <> FutException e) -> no_exception fs ->
  no_exception (<[f := st]> fs).
Proof.
  intros Hst H f' e. destruct (decide (f = f')) as [->|Hne].
  - rewrite lookup_insert_eq. intros [= ->]. eapply Hst; eauto.
  - rewrite lookup_insert_ne by exact Hne. apply H.
Qed.

(** Granting moves permits from the counter to waiters, one for one. *)
Lemma granted_balance s n :
  NoDup (map entry_obj (_waiters s)) ->
  let s' := granted s (grant_in_order (_waiters s) n (futures s)).1
                      (grant_in_order (_waiters s) n (futures s)).2 in
  _value s' + count_granted (futures s') (_waiters s')
  = _value s + count_granted (futures s) (_waiters s).
Proof.
  intros Hnd. simpl. rewrite count_granted_grant by exact Hnd. lia.
Qed.

Lemma wake_up_next_as_loop s : (_wake_up_next s).2 = wake_up_to 1 s.
Proof. simpl. destruct (_wake_up_next s) as [[] s']; reflexivity. Qed.

Lemma insort_right_split a x a' :
  insort_right a x = Return a' ->
  exists p, a' = take p a ++ x :: drop p a.
Proof.
  unfold insort_right. destruct (bisect_right a x) as [p|]; [|discriminate].
  intros [= <-]. exists p. reflexivity.
Qed.

Lemma step_balanced w ev w' :
  not_cancel_waiting ev -> step_matched w ev = Some w' ->
  balanced w -> balanced w'.
Proof.
  intros Hev Hstep (Hwf & Hne & Hh & Hb).
  assert (Hwf' : well_formed (the_sem w')).
  { apply (step_well_formed w ev); auto.
    destruct ev; simpl in Hstep; auto. destruct (0 <? held w); auto; discriminate. }
  split; [exact Hwf'|]. clear Hwf'.
  pose proof Hwf as (Hs & Hc & Hf & Hnd).
  destruct ev; simpl in Hstep; try contradiction.
  - (* Acquire *)
    destruct (acquire_enter_cases (the_sem w) running priority Hwf)
      as [(_ & E)|[(_ & _ & s1 & E & Hw1 & Hv1 & Hf1 & _ & Hm1 & _)
                  |(_ & _ & ws & Hins & _ & _ & E)]];
      rewrite E in Hstep; injection Hstep as <-; simpl.
    + split; [exact Hne|]. split; lia.
    + rewrite Hw1, Hv1, Hf1, Hm1. auto.
    + split; [|split; auto].
      { apply no_exception_insert; auto. }
      apply insort_right_split in Hins as [p ->].
      rewrite count_granted_app. simpl.
      assert (Hnew : is_result (<[next_future (the_sem w):=FutPending]>
                                  (futures (the_sem w)))
                       (next_future (the_sem w)) = false).
      { unfold is_result, fut_state_of. rewrite lookup_insert_eq. reflexivity. }
      assert (Hold : forall l, (forall u, u ∈ l -> u ∈ _waiters (the_sem w)) ->
                count_granted (<[next_future (the_sem w):=FutPending]>
                                 (futures (the_sem w))) l
                = count_granted (futures (the_sem w)) l).
      { intros l Hl. apply count_granted_ext. intros u Hu.
        apply lookup_insert_ne. apply Hl, Hf in Hu. lia. }
      rewrite Hnew, !Hold.
      * assert (Hsplit : count_granted (futures (the_sem w)) (_waiters (the_sem w))
                  = count_granted (futures (the_sem w)) (take p (_waiters (the_sem w)))
                    + count_granted (futures (the_sem w)) (drop p (_waiters (the_sem w))))
          by (rewrite <- count_granted_app, take_drop; reflexivity).
        lia.
      * intros u Hu. rewrite <- (take_drop p (_waiters (the_sem w))).
        apply elem_of_app. auto.
      * intros u Hu. rewrite <- (take_drop p (_waiters (the_sem w))).
        apply elem_of_app. auto.
  - (* Resume *)
    destruct (is_waiting (the_sem w) obj) eqn:Ew; [|discriminate].
    assert (Hin : obj ∈ _waiters (the_sem w)).
    { unfold is_waiting in Ew. apply existsb_exists in Ew as (y & Hy & Hyo).
      apply tuple_eqb_eq in Hyo as ->. apply list_elem_of_In, Hy. }
    destruct (list_remove_Some _ obj Hin) as (a1 & a2 & Hws & Hr & _).
    pose proof (well_formed_remove _ a1 a2 obj Hwf Hws) as (_ & _ & _ & Hnd').
    simpl in Hnd'.
    assert (Hcnt : count_granted (futures (the_sem w)) (_waiters (the_sem w))
              = count_granted (futures (the_sem w)) (a1 ++ a2)
                + (if is_result (futures (the_sem w)) (entry_obj obj) then 1 else 0)).
    { rewrite Hws, !count_granted_app. simpl. lia. }
    unfold acquire_resume in Hstep. rewrite Hr in Hstep.
    unfold fut_done, fut_cancelled, is_result in *.
    destruct (fut_state_of (futures (the_sem w)) (entry_obj obj)) as [| |e|] eqn:Est;
      simpl in Hstep; rewrite ?Est in Hstep; simpl in Hstep.
    + discriminate.
    + destruct (bool_decide _); simpl in Hstep; injection Hstep as <-; simpl;
        rewrite ?top_up_after_resume, ?top_up_after_resume'; unfold after_resume;
        simpl; (split; [apply no_exception_grant, Hne|]); (split; [lia|]);
        rewrite count_granted_grant by exact Hnd'; lia.
    + exfalso. unfold fut_state_of in Est.
      destruct (futures (the_sem w) !! entry_obj obj) eqn:El; simpl in Est;
        [subst|discriminate].
      eapply Hne; eauto.
    + injection Hstep as <-; simpl.
      rewrite top_up_after_resume'. unfold after_resume. simpl.
      split; [apply no_exception_grant, Hne|]. split; [lia|].
      rewrite count_granted_grant by exact Hnd'. lia.
  - (* TaskCancel *)
    destruct (is_waiting (the_sem w) obj); [|discriminate].
    destruct (fut_done (futures (the_sem w)) (entry_obj obj)) eqn:Ed;
      injection Hstep as <-; simpl; [auto|].
    split; [apply no_exception_insert; auto; discriminate|]. split; [exact Hh|].
    rewrite <- Hb. f_equal.
    apply fut_done_pending in Ed.
    generalize (_waiters (the_sem w)). intros l.
    induction l as [|u l IH]; simpl; [reflexivity|]. rewrite IH. f_equal.
    unfold is_result, fut_state_of in *.
    destruct (decide (entry_obj obj = entry_obj u)) as [Heq|Hneq].
    + rewrite <- Heq, lookup_insert_eq, Ed. reflexivity.
    + rewrite lookup_insert_ne by exact Hneq. reflexivity.
  - (* Release *)
    destruct (Z.ltb_spec 0 (held w)) as [Hpos|]; [|discriminate].
    unfold release in Hstep.
    destruct (Z.leb_spec (_max_value (the_sem w)) (_value (the_sem w))) as [Hge|Hlt].
    + pose proof (count_granted_nonneg (futures (the_sem w)) (_waiters (the_sem w))).
      lia.
    + rewrite wake_up_next_as_loop in Hstep.
      rewrite (wake_up_to_grant (_waiters (the_sem w)) 1 _ []) in Hstep;
        [|reflexivity|constructor].
      injection Hstep as <-. simpl.
      split; [apply no_exception_grant, Hne|]. split; [lia|].
      rewrite count_granted_grant by exact Hnd. lia.
  - (* SetMaxValue *)
    injection Hstep as <-. simpl.
    rewrite set_max_value_eq.
    destruct (new_value <? 0); simpl; [auto|].
    split; [apply no_exception_grant, Hne|]. split; [exact Hh|].
    rewrite count_granted_grant by exact Hnd. lia.
Qed.

Lemma run_balanced evs : forall w w',
  Forall not_cancel_waiting evs -> run_matched w evs = Some w' ->
  balanced w -> balanced w'.
Proof.
  induction evs as [|ev evs IH]; simpl; intros w w' Hall Hrun Hb.
  - injection Hrun as <-. exact Hb.
  - inversion Hall as [|? ? Hev Hall']; subst.
    destruct (step_matched w ev) as [w1|] eqn:Es; [|discriminate].
    eapply IH; eauto. eapply step_balanced; eauto.
Qed.

(** Without [cancel_waiting], and with every [release] giving back a held
    permit, the counter never exceeds the maximum. *)
Theorem bounded_without_cancel_waiting value evs w :
  Forall not_cancel_waiting evs ->
  run_matched (start value) evs = Some w ->
  _value (the_sem w) <= _max_value (the_sem w).
Proof.
  intros Hall Hrun.
  assert (Hb : balanced (start value)).
  { split; [apply init_well_formed|]. split; [|simpl; lia].
    intros f e. simpl. rewrite lookup_empty. discriminate. }
  destruct (run_balanced evs _ _ Hall Hrun Hb) as (_ & _ & Hh & Heq).
  pose proof (count_granted_nonneg (futures (the_sem w)) (_waiters (the_sem w))).
  lia.
Qed.

Lemma bounded_without_cancel_waiting_witness :
  Forall not_cancel_waiting scenario_repair
  /\ run_matched (start 1) scenario_repair = Some repaired
  /\ _value (the_sem repaired) <= _max_value (the_sem repaired).
Proof.
  assert (Hall : Forall not_cancel_waiting scenario_repair)
    by (repeat constructor).
  assert (Hrun : run_matched (start 1) scenario_repair = Some repaired)
    by (vm_compute; reflexivity).
  split; [exact Hall|]. split; [exact Hrun|].
  exact (bounded_without_cancel_waiting 1 scenario_repair repaired Hall Hrun).
Defined.

(** ** The futures are never compared *)

(** In a reachable state [acquire] fails only with the [RuntimeError] of
    [_get_loop]: [insort_right] never has to compare two futures, because
    every queued tuple has a sequence number of its own. *)
Theorem acquire_never_compares_futures value w running priority :
  reachable value w ->
  forall e, (acquire_enter (the_sem w) running priority).1 = Failed e ->
            e = RuntimeError.
Proof.
  intros Hr e He. pose proof (reachable_well_formed value w Hr) as Hwf.
  destruct (acquire_enter_cases (the_sem w) running priority Hwf)
    as [(_ & E)|[(_ & _ & s1 & E & _)|(_ & _ & ws & _ & _ & _ & E)]];
    rewrite E in He; simpl in He; congruence.
Qed.

Lemma acquire_never_compares_futures_witness :
  reachable 1 three_waiters
  /\ forall e, (acquire_enter (the_sem three_waiters) 0 5).1 = Failed e ->
                e = RuntimeError.
Proof.
  assert (Hr : reachable 1 three_waiters)
    by (exists scenario_three_waiters; vm_compute; reflexivity).
  split; [exact Hr|].
  exact (acquire_never_compares_futures 1 three_waiters 0 5 Hr).
Defined.

End SemaphoreFacts.

(** * Facts about the reschedulable timeout *)

Module TimeoutFacts.
Import Timeout.

Implicit Types (t : timeout) (hs : list timer_handle) (x y : timer_handle)
  (h i j : nat) (now : Z).

Lemma live_cancelled x :
  live {| h_when := h_when x; h_cancelled := true; h_scheduled := h_scheduled x |}
  = false.
Proof. reflexivity. Qed.

Lemma handle_cancel_dead hs skip h :
  others_dead hs skip -> skip = None \/ skip = Some h ->
  others_dead (handle_cancel h hs) None.
Proof.
  intros Hd Hs j y Hj _. unfold handle_cancel in Hj.
  destruct (decide (h = j)) as [->|Hne].
  - rewrite list_lookup_alter_eq in Hj.
    destruct (hs !! j) as [x|]; simpl in Hj; [|discriminate].
    injection Hj as <-. reflexivity.
  - rewrite list_lookup_alter_ne in Hj by exact Hne.
    apply (Hd j y Hj). destruct Hs as [->| ->]; congruence.
Qed.

Lemma reschedule_inner_ok t :
  others_dead (handles t) (_timer t) ->
  armed_ok (_reschedule t)
  /\ exists h x, _timer (_reschedule t) = Some h
       /\ handles (_reschedule t) !! h = Some x
       /\ h_when x = _when t /\ live x = true
       /\ calls (_reschedule t) = calls t /\ _when (_reschedule t) = _when t.
Proof.
  intros Hd. unfold _reschedule.
  set (hs := match _timer t with
             | Some h => handle_cancel h (handles t)
             | None => handles t
             end).
  assert (Hhs : others_dead hs None).
  { subst hs. destruct (_timer t) as [h|] eqn:Et.
    - eapply handle_cancel_dead; eauto.
    - exact Hd. }
  set (x := {| h_when := _when t; h_cancelled := false; h_scheduled := true |}).
  assert (Hx : (hs ++ [x]) !! length hs = Some x).
  { rewrite lookup_app_r by lia. rewrite Nat.sub_diag. reflexivity. }
  split; [split|]; simpl.
  - intros j y Hj Hne.
    destruct (decide (j < length hs)%nat) as [Hlt|Hge].
    + rewrite lookup_app_l in Hj by exact Hlt. apply (Hhs j y Hj). discriminate.
    + assert (j = length hs).
      { apply lookup_lt_Some in Hj. rewrite length_app in Hj. simpl in Hj. lia. }
      congruence.
  - intros h [= <-]. exists x. repeat split; auto. simpl. lia.
  - exists (length hs), x. repeat split; auto.
Qed.

Lemma init_armed_ok : armed_ok init.
Proof.
  split.
  - intros j y Hj. discriminate.
  - intros h Hh. discriminate.
Qed.

Lemma reschedule_armed_ok t now delay :
  armed_ok t -> armed_ok (reschedule t now delay).
Proof.
  intros [Hd Ha]. unfold reschedule. simpl.
  destruct (_timer t) as [h|] eqn:Et.
  - destruct (Z.ltb_spec (now + delay) (handle_when h (handles t))) as [Hlt|Hge].
    + apply reschedule_inner_ok. simpl. rewrite ?Et. exact Hd.
    + split; simpl; rewrite ?Et; [exact Hd|].
      intros h' [= <-]. destruct (Ha h eq_refl) as (x & Hx & Hl & _).
      exists x. repeat split; auto.
      unfold handle_when in Hge. rewrite Hx in Hge. exact Hge.
  - apply reschedule_inner_ok. simpl. rewrite ?Et. exact Hd.
Qed.

Lemma cancel_armed_ok t : armed_ok t -> armed_ok (cancel t).
Proof.
  intros [Hd Ha]. unfold cancel. destruct (_timer t) as [h|] eqn:Et.
  - split; simpl; [|discriminate].
    eapply handle_cancel_dead; eauto.
  - split; rewrite ?Et; auto.
Qed.

(** Only the armed handle can fire. *)
Lemma fire_armed t h now t' :
  armed_ok t -> fire t h now = Some t' -> _timer t = Some h.
Proof.
  intros [Hd _]. unfold fire.
  destruct (handles t !! h) as [x|] eqn:Ex; [|discriminate].
  destruct (live x) eqn:El; [|discriminate]. intros _.
  destruct (decide (_timer t = Some h)) as [|Hne]; auto.
  rewrite (Hd h x Ex Hne) in El. discriminate.
Qed.

Lemma fire_eq t h now x :
  handles t !! h = Some x -> live x = true ->
  fire t h now =
    Some (_timeout_trigger
            {| _timer := _timer t; _when := _when t;
               handles := <[h := {| h_when := h_when x;
                                    h_cancelled := h_cancelled x;
                                    h_scheduled := false |}]> (handles t);
               calls := calls t |} now).
Proof. unfold fire. intros -> ->. reflexivity. Qed.

Lemma unscheduled_dead t h x :
  armed_ok t -> _timer t = Some h -> handles t !! h = Some x ->
  others_dead (<[h := {| h_when := h_when x; h_cancelled := h_cancelled x;
                         h_scheduled := false |}]> (handles t)) None.
Proof.
  intros [Hd _] Et Hx j y Hj _.
  destruct (decide (h = j)) as [->|Hne].
  - rewrite list_lookup_insert_eq in Hj by (eapply lookup_lt_Some; eauto).
    injection Hj as <-. unfold live. simpl. apply andb_false_r.
  - rewrite list_lookup_insert_ne in Hj by exact Hne.
    apply (Hd j y Hj). congruence.
Qed.

Lemma others_dead_weaken hs skip : others_dead hs None -> others_dead hs skip.
Proof. intros H j y Hj _. apply (H j y Hj). discriminate. Qed.

Lemma fire_armed_ok t h now t' :
  armed_ok t -> fire t h now = Some t' -> armed_ok t'.
Proof.
  intros Hok Hf. pose proof (fire_armed t h now t' Hok Hf) as Et.
  destruct Hok as [Hd Ha]. destruct (Ha h Et) as (x & Hx & Hl & Hw).
  rewrite (fire_eq t h now x Hx Hl) in Hf. injection Hf as <-.
  pose proof (unscheduled_dead t h x (conj Hd Ha) Et Hx) as Hdead.
  unfold _timeout_trigger. simpl. destruct (now <? _when t).
  - apply reschedule_inner_ok. simpl. apply others_dead_weaken, Hdead.
  - split; simpl; [exact Hdead | discriminate].
Qed.

Lemma run_armed_ok evs : forall t t',
  run t evs = Some t' -> armed_ok t -> armed_ok t'.
Proof.
  induction evs as [|ev evs IH]; simpl; intros t t' Hrun Hok.
  - injection Hrun as <-. exact Hok.
  - destruct (step t ev) as [t1|] eqn:Es; [|discriminate].
    apply (IH t1 t' Hrun). destruct ev; simpl in Es.
    + injection Es as <-. apply reschedule_armed_ok, Hok.
    + injection Es as <-. apply cancel_armed_ok, Hok.
    + eapply fire_armed_ok; eauto.
Qed.

Lemma reachable_armed_ok t : reachable t -> armed_ok t.
Proof. intros [evs Hrun]. eapply run_armed_ok; eauto. apply init_armed_ok. Qed.

(** ** What the loop runs next *)

Lemma next_due_from_none hs : forall i,
  others_dead hs None -> next_due_from i hs = None.
Proof.
  induction hs as [|x hs IH]; intros i Hd; simpl; auto.
  rewrite IH.
  - rewrite (Hd O x eq_refl); [reflexivity | discriminate].
  - intros j y Hj _. apply (Hd (S j) y Hj). discriminate.
Qed.

Lemma next_due_from_one hs : forall i h x,
  hs !! h = Some x -> live x = true -> others_dead hs (Some h) ->
  next_due_from i hs = Some ((i + h)%nat, h_when x).
Proof.
  induction hs as [|y hs IH]; intros i h x Hx Hl Hd; [discriminate|].
  simpl. destruct h as [|h]; simpl in Hx.
  - injection Hx as ->. rewrite next_due_from_none.
    + rewrite Hl, Nat.add_0_r. reflexivity.
    + intros j z Hj _. apply (Hd (S j) z Hj). discriminate.
  - rewrite (IH (S i) h x Hx Hl).
    + rewrite (Hd O y eq_refl) by discriminate. simpl.
      f_equal. f_equal. lia.
    + intros j z Hj Hne. apply (Hd (S j) z Hj). congruence.
Qed.

Lemma next_due_armed t h :
  armed_ok t -> _timer t = Some h ->
  exists x, handles t !! h = Some x /\ live x = true /\ h_when x <= _when t
            /\ next_due t = Some (h, h_when x).
Proof.
  intros [Hd Ha] Et. destruct (Ha h Et) as (x & Hx & Hl & Hw).
  exists x. repeat split; auto. unfold next_due.
  rewrite (next_due_from_one (handles t) O h x Hx Hl); [reflexivity|].
  rewrite <- Et. exact Hd.
Qed.

Lemma next_due_idle t : armed_ok t -> _timer t = None -> next_due t = None.
Proof.
  intros [Hd _] Et. unfold next_due. apply next_due_from_none.
  rewrite <- Et. exact Hd.
Qed.

(** ** One callback for each settled deadline *)

Lemma fire_cases t h now t' :
  armed_ok t -> fire t h now = Some t' ->
  _timer t = Some h
  /\ armed_ok t'
  /\ _when t' = _when t
  /\ (now < _when t ->
      calls t' = calls t
      /\ exists h' x', _timer t' = Some h' /\ handles t' !! h' = Some x'
           /\ h_when x' = _when t /\ live x' = true)
  /\ (_when t <= now -> _timer t' = None /\ calls t' = calls t ++ [now]).
Proof.
  intros Hok Hf. pose proof (fire_armed t h now t' Hok Hf) as Et.
  pose proof (fire_armed_ok t h now t' Hok Hf) as Hok'.
  split; [exact Et|]. split; [exact Hok'|].
  destruct Hok as [Hd Ha]. destruct (Ha h Et) as (x & Hx & Hl & Hw).
  rewrite (fire_eq t h now x Hx Hl) in Hf. injection Hf as <-.
  pose proof (unscheduled_dead t h x (conj Hd Ha) Et Hx) as Hdead.
  unfold _timeout_trigger. simpl.
  destruct (Z.ltb_spec now (_when t)) as [Hlt|Hge].
  - match goal with |- context [_reschedule ?u] =>
      destruct (reschedule_inner_ok u) as (_ & h' & x' & E1 & E2 & E3 & E4 & E5 & E6)
    end.
    { simpl. apply others_dead_weaken, Hdead. }
    simpl in *. split; [exact E6|]. split; [|intros; lia].
    intros _. split; [exact E5|]. exists h', x'. auto.
  - simpl. split; [reflexivity|]. split; [intros; lia | auto].
Qed.

(** C6: when the loop runs the armed timer of a reachable timeout at
    clock reading [now]: before the deadline [_when] the callback is not
    called and a new live timer is armed for [_when]; at or after it, the
    timer is cleared and the callback is called once, at [now].  So an
    armed timeout that is left alone calls its callback exactly once, at
    the later of [now] and [_when], and is idle after that; an idle one
    never calls it. *)
Theorem callback_once_per_deadline t now :
  reachable t ->
  (forall h t', fire t h now = Some t' ->
     (now < _when t ->
      calls t' = calls t
      /\ exists h' x', _timer t' = Some h' /\ handles t' !! h' = Some x'
           /\ h_when x' = _when t /\ live x' = true)
     /\ (_when t <= now -> _timer t' = None /\ calls t' = calls t ++ [now]))
  /\ (forall h, _timer t = Some h ->
      forall fuel, (2 <= fuel)%nat ->
        calls (run_loop fuel t now).1 = calls t ++ [Z.max now (_when t)]
        /\ _timer (run_loop fuel t now).1 = None
        /\ next_due (run_loop fuel t now).1 = None)
  /\ (_timer t = None -> forall fuel, run_loop fuel t now = (t, now)).
Proof.
  intros Hr. pose proof (reachable_armed_ok t Hr) as Hok.
  split; [|split].
  - intros h t' Hf.
    destruct (fire_cases t h now t' Hok Hf) as (_ & _ & _ & H1 & H2). auto.
  - intros h Et fuel Hfuel.
    destruct fuel as [|[|fuel]]; try lia.
    destruct (next_due_armed t h Hok Et) as (x & Hx & Hl & Hw & Hn).
    cbn [run_loop]. rewrite Hn.
    set (now1 := Z.max now (h_when x)).
    destruct (fire t h now1) as [t1|] eqn:Ef.
    2:{ rewrite (fire_eq t h now1 x Hx Hl) in Ef. discriminate. }
    destruct (fire_cases t h now1 t1 Hok Ef) as (_ & Hok1 & Hw1 & Hearly & Hdue).
    destruct (Z.lt_ge_cases now1 (_when t)) as [Hlt|Hge].
    + destruct (Hearly Hlt) as (Hc1 & h1 & x1 & Et1 & Hx1 & Hwx1 & Hl1).
      destruct (next_due_armed t1 h1 Hok1 Et1) as (x1' & Hx1' & _ & _ & Hn1).
      rewrite Hx1 in Hx1'. injection Hx1' as <-.
      rewrite Hn1, Hwx1.
      set (now2 := Z.max now1 (_when t)).
      destruct (fire t1 h1 now2) as [t2|] eqn:Ef2.
      2:{ rewrite (fire_eq t1 h1 now2 x1 Hx1 Hl1) in Ef2. discriminate. }
      destruct (fire_cases t1 h1 now2 t2 Hok1 Ef2) as (_ & Hok2 & Hw2 & _ & Hdue2).
      destruct Hdue2 as [Et2 Hc2]; [subst now2; lia|].
      pose proof (next_due_idle t2 Hok2 Et2) as Hn2.
      assert (Hend : run_loop fuel t2 now2 = (t2, now2))
        by (destruct fuel; simpl; rewrite ?Hn2; reflexivity).
      rewrite Hend. simpl. rewrite Hc2, Hc1. repeat split; auto.
      f_equal. f_equal. subst now2 now1. lia.
    + destruct (Hdue Hge) as [Et1 Hc1].
      pose proof (next_due_idle t1 Hok1 Et1) as Hn1.
      cbn [run_loop]. rewrite Hn1. simpl. rewrite Hc1. repeat split; auto.
      f_equal. f_equal. subst now1. lia.
  - intros Et fuel. destruct fuel; simpl; [reflexivity|].
    rewrite (next_due_idle t Hok Et). reflexivity.
Qed.

Lemma reschedule_5s_then_10s_calls_once :
  reachable armed_5s_wants_11s
  /\ _timer armed_5s_wants_11s = Some 0%nat
  /\ calls (run_loop 2 armed_5s_wants_11s 1).1 = [11]
  /\ _timer (run_loop 2 armed_5s_wants_11s 1).1 = None
  /\ next_due (run_loop 2 armed_5s_wants_11s 1).1 = None.
Proof.
  assert (Hr : reachable armed_5s_wants_11s)
    by (exists scenario_5s_then_10s; reflexivity).
  split; [exact Hr|]. split; [reflexivity|].
  destruct (callback_once_per_deadline armed_5s_wants_11s 1 Hr) as (_ & H & _).
  apply (H 0%nat eq_refl 2%nat). lia.
Defined.

(** The spec's example, step by step: [reschedule(5)] at time 0 and
    [reschedule(10)] at time 1 leave the first timer armed; it fires at 5,
    before the deadline 11, and re-arms; the second fires at 11 and
    calls the callback, once. *)
Example reschedule_5s_then_10s_trace :
  fmap (fun t => (calls t, _timer t))
       (run init [Reschedule 0 5; Reschedule 1 10; Fire 0 5])
  = Some ([], Some 1%nat)
  /\ fmap (fun t => (calls t, _timer t, next_due t))
          (run init [Reschedule 0 5; Reschedule 1 10; Fire 0 5; Fire 1 11])
     = Some ([11], None, None).
Proof. vm_compute. auto. Qed.

(** ** At most one timer is outstanding *)

(** In a reachable state at most one handle is live, and it is the one
    [_timer] refers to. *)
Theorem at_most_one_live_timer t :
  reachable t ->
  forall i x, handles t !! i = Some x -> live x = true -> _timer t = Some i.
Proof.
  intros Hr i x Hx Hl. destruct (reachable_armed_ok t Hr) as [Hd _].
  destruct (decide (_timer t = Some i)) as [|Hne]; auto.
  rewrite (Hd i x Hx Hne) in Hl. discriminate.
Qed.

Lemma at_most_one_live_timer_witness :
  reachable armed_5s_wants_11s
  /\ forall i x, handles armed_5s_wants_11s !! i = Some x -> live x = true ->
                 _timer armed_5s_wants_11s = Some i.
Proof.
  assert (Hr : reachable armed_5s_wants_11s)
    by (exists scenario_5s_then_10s; reflexivity).
  split; [exact Hr|]. exact (at_most_one_live_timer armed_5s_wants_11s Hr).
Defined.

End TimeoutFacts.

(** * Facts about the debouncer *)

Module DebouncerFacts.
Import Debouncer.

Implicit Types (d : debouncer) (q : list entry) (m : gmap nat Z)
  (x y : entry) (obj : nat) (now time : Z).

Lemma unexpired_app now q1 q2 :
  unexpired now (q1 ++ q2) = unexpired now q1 ++ unexpired now q2.
Proof. apply List.filter_app. Qed.

Lemma unexpired_all now q :
  (forall y, y ∈ q -> now <= - entry_neg y) -> unexpired now q = q.
Proof.
  induction q as [|y q IH]; intros H; simpl; [reflexivity|].
  destruct (Z.leb_spec now (- entry_neg y)) as [_|Hlt].
  - f_equal. apply IH. intros z Hz. apply H. apply elem_of_cons. auto.
  - specialize (H y (list_elem_of_here _ _)). lia.
Qed.

Lemma elem_of_unexpired now q y :
  y ∈ unexpired now q <-> y ∈ q /\ now <= - entry_neg y.
Proof.
  unfold unexpired. rewrite !list_elem_of_In, List.filter_In, Z.leb_le. tauto.
Qed.

Lemma sorted_unexpired now q : sorted q -> sorted (unexpired now q).
Proof.
  unfold sorted. induction 1 as [|y q Hs IH Hall]; simpl; [constructor|].
  destruct (now <=? - entry_neg y); auto.
  constructor; auto. rewrite Forall_forall in *.
  intros z Hz. apply Hall. apply elem_of_unexpired in Hz. tauto.
Qed.

(** Entries sorted before [x] expire no earlier than [x]. *)
Lemma sorted_snoc_expiry q x y :
  sorted (q ++ [x]) -> y ∈ q -> - entry_neg x <= - entry_neg y.
Proof.
  unfold sorted. intros Hs Hy.
  apply StronglySorted_app in Hs as (H & _ & _).
  specialize (H y x Hy (list_elem_of_here _ _)). unfold key_lt in H. lia.
Qed.

(** ** [clean] *)

Lemma consistent_pop d q x :
  consistent d -> _queue d = q ++ [x] ->
  _times d !! entry_obj x = Some (- entry_neg x)
  /\ consistent {| _times := delete (entry_obj x) (_times d); _queue := q;
                   _last_time := _last_time d;
                   _dedup_counter := _dedup_counter d |}.
Proof.
  intros (Hs & Hnd & Ht) Hq. rewrite Hq in *.
  assert (Hx : _times d !! entry_obj x = Some (- entry_neg x)).
  { apply Ht. exists (entry_count x). rewrite Z.opp_involutive.
    apply elem_of_app. right. destruct x as [[a c] o]. apply list_elem_of_here. }
  split; [exact Hx|]. unfold consistent. simpl.
  rewrite map_app in Hnd. apply NoDup_app in Hnd as (Hnd1 & Hnd2 & _).
  split; [|split].
  - eapply StronglySorted_app_1_l, Hs.
  - exact Hnd1.
  - intros obj t. rewrite lookup_delete_Some, Ht. split.
    + intros (Hne & c & Hin). exists c.
      apply elem_of_app in Hin as [Hin|Hin]; auto.
      apply list_elem_of_singleton in Hin. subst x. simpl in Hne. congruence.
    + intros (c & Hin). split.
      * intros Heq. apply (Hnd2 (entry_obj x)).
        -- rewrite Heq. apply (list_elem_of_fmap_2 entry_obj _ _ Hin).
        -- simpl. apply list_elem_of_here.
      * exists c. apply elem_of_app. auto.
Qed.

Lemma clean_loop_spec : forall fuel d now,
  consistent d -> (length (_queue d) <= fuel)%nat ->
  clean_loop fuel d now =
    (Return tt,
     {| _times := unexpired_times now (_times d);
        _queue := unexpired now (_queue d);
        _last_time := _last_time d; _dedup_counter := _dedup_counter d |}).
Proof.
  induction fuel as [|fuel IH]; intros d now Hc Hlen.
  - destruct d as [m q lt dc]. simpl in *.
    destruct q; [|simpl in Hlen; lia]. simpl.
    destruct Hc as (_ & _ & Ht). simpl in Ht.
    f_equal. f_equal. symmetry. apply map_filter_id.
    intros obj t Hl. apply Ht in Hl as (c & Hin). inversion Hin.
  - cbn [clean_loop].
    destruct (last (_queue d)) as [x|] eqn:El.
    + apply last_Some in El as [q Hq].
      destruct (consistent_pop d q x Hc Hq) as (Hx & Hc').
      destruct (Z.ltb_spec (- entry_neg x) now) as [Hlt|Hge].
      * cbn [_times _queue]. rewrite Hx, Hq, removelast_last.
        rewrite IH; [|exact Hc'|].
        2:{ simpl. rewrite Hq, length_app in Hlen. simpl in Hlen. lia. }
        cbn [_times _queue _last_time _dedup_counter].
        f_equal. f_equal.
        -- unfold unexpired_times. apply map_filter_delete_not.
           intros t Ht. simpl. rewrite Hx in Ht. injection Ht as <-. lia.
        -- rewrite unexpired_app. simpl.
           destruct (Z.leb_spec now (- entry_neg x)); [lia|].
           rewrite app_nil_r. reflexivity.
      * destruct d as [m q0 lt dc]. simpl in *. subst q0.
        f_equal. f_equal.
        -- symmetry. apply map_filter_id. intros obj t Hl. simpl.
           destruct Hc as (Hs & _ & Ht). simpl in *.
           apply Ht in Hl as (c & Hin).
           apply elem_of_app in Hin as [Hin|Hin].
           ++ pose proof (sorted_snoc_expiry q x _ Hs Hin) as H.
              unfold entry_neg in H at 2. simpl in H. lia.
           ++ apply list_elem_of_singleton in Hin. subst x.
              unfold entry_neg in Hge. simpl in Hge. lia.
        -- symmetry. apply unexpired_all. intros y Hy.
           destruct Hc as (Hs & _). simpl in Hs.
           apply elem_of_app in Hy as [Hy|Hy].
           ++ pose proof (sorted_snoc_expiry q x y Hs Hy). lia.
           ++ apply list_elem_of_singleton in Hy. subst y. lia.
    + apply last_None in El. destruct d as [m q lt dc]. simpl in *. subst q.
      simpl. destruct Hc as (_ & _ & Ht). simpl in Ht.
      f_equal. f_equal. symmetry. apply map_filter_id.
      intros obj t Hl. apply Ht in Hl as (c & Hin). inversion Hin.
Qed.

Lemma consistent_unexpired d now :
  consistent d ->
  consistent {| _times := unexpired_times now (_times d);
                _queue := unexpired now (_queue d);
                _last_time := _last_time d; _dedup_counter := _dedup_counter d |}.
Proof.
  intros (Hs & Hnd & Ht). unfold consistent. simpl. split; [|split].
  - apply sorted_unexpired, Hs.
  - clear Hs Ht. induction (_queue d) as [|y q IH]; simpl; [constructor|].
    apply NoDup_cons in Hnd as [Hy Hnd]. specialize (IH Hnd).
    destruct (now <=? - entry_neg y); auto.
    simpl. apply NoDup_cons. split; auto.
    intros Hin. apply Hy.
    apply list_elem_of_fmap in Hin as (z & -> & Hz).
    apply elem_of_unexpired in Hz as [Hz _].
    apply (list_elem_of_fmap_2 entry_obj _ _ Hz).
  - intros obj t. unfold unexpired_times.
    rewrite map_lookup_filter_Some, Ht. simpl. split.
    + intros ((c & Hin) & Hle). exists c. apply elem_of_unexpired.
      split; auto. unfold entry_neg. simpl. lia.
    + intros (c & Hin). apply elem_of_unexpired in Hin as [Hin Hle].
      split; eauto. unfold entry_neg in Hle. simpl in Hle. lia.
Qed.

Lemma clean_eq d time (now : option Z) :
  consistent d ->
  clean d time now =
    (Return tt,
     {| _times := unexpired_times (default time now) (_times d);
        _queue := unexpired (default time now) (_queue d);
        _last_time := _last_time d; _dedup_counter := _dedup_counter d |}).
Proof. intros Hc. unfold clean. apply clean_loop_spec; auto. Qed.

Lemma is_filtered_eq d time obj (now : option Z) :
  consistent d ->
  is_filtered d time obj now =
    (Return (bool_decide (is_Some (unexpired_times (default time now) (_times d) !! obj))),
     {| _times := unexpired_times (default time now) (_times d);
        _queue := unexpired (default time now) (_queue d);
        _last_time := _last_time d; _dedup_counter := _dedup_counter d |}).
Proof. intros Hc. unfold is_filtered. rewrite clean_eq by exact Hc. reflexivity. Qed.

(** C8, the claim as stated fails, in two places.  First: object 7 is
    recorded at clock reading 0 to expire at 1; [clean] at [now = 1]
    leaves its entry in the map and in the queue although its expiry is
    [<= now], and [is_filtered] still answers true.  Second: after the
    call of [filter] for object 8 that raised (expiry 4, no queue entry),
    [clean] at [now = 1000] removes object 7 and leaves object 8 in the
    map, and [is_filtered] still answers true for it. *)
Lemma clean_keeps_entry_expiring_now :
  (filter init 0 7 1 = (Return false, tracked_until_1)
   /\ _times tracked_until_1 !! 7%nat = Some 1
   /\ clean tracked_until_1 1 (Some 1) = (Return tt, tracked_until_1)
   /\ (is_filtered tracked_until_1 1 7 (Some 1)).1 = Return true)
  /\ ((filter (filter init 1 7 3).2 2 8 2).1 = Raise TypeError
      /\ _times (filter (filter init 1 7 3).2 2 8 2).2 !! 8%nat = Some 4
      /\ (clean (filter (filter init 1 7 3).2 2 8 2).2 1000 (Some 1000)).1
         = Return tt
      /\ _times (clean (filter (filter init 1 7 3).2 2 8 2).2 1000 (Some 1000)).2
         = <[8%nat := 4]> ∅
      /\ _queue (clean (filter (filter init 1 7 3).2 2 8 2).2 1000 (Some 1000)).2
         = []
      /\ (is_filtered (filter (filter init 1 7 3).2 2 8 2).2 1000 8 (Some 1000)).1
         = Return true).
Proof. vm_compute. repeat split. Qed.

(** C8, amended: on a consistent debouncer [clean] returns and removes,
    from the map and from the queue, every entry whose expiry is strictly
    before [now] and no other, keeping the order of the queue; what is
    left is consistent, and [is_filtered] answers true exactly for the
    objects tracked with an expiry of [now] or later. *)
Theorem clean_removes_expired d time (now : option Z) :
  consistent d ->
  clean d time now =
    (Return tt,
     {| _times := unexpired_times (default time now) (_times d);
        _queue := unexpired (default time now) (_queue d);
        _last_time := _last_time d; _dedup_counter := _dedup_counter d |})
  /\ consistent (clean d time now).2
  /\ (forall obj t,
        _times (clean d time now).2 !! obj = Some t
        <-> _times d !! obj = Some t /\ default time now <= t)
  /\ (forall y,
        y ∈ _queue (clean d time now).2
        <-> y ∈ _queue d /\ default time now <= - entry_neg y)
  /\ (forall obj,
        (is_filtered d time obj now).1
        = Return match _times d !! obj with
                 | Some t => bool_decide (default time now <= t)
                 | None => false
                 end).
Proof.
  intros Hc. rewrite clean_eq by exact Hc. cbn [snd].
  split; [reflexivity|]. split; [apply consistent_unexpired, Hc|].
  split; [|split].
  - intros obj t. simpl. unfold unexpired_times.
    rewrite map_lookup_filter_Some. reflexivity.
  - intros y. simpl. apply elem_of_unexpired.
  - intros obj. rewrite is_filtered_eq by exact Hc. simpl. f_equal.
    unfold unexpired_times. rewrite map_lookup_filter.
    destruct (_times d !! obj) as [t|]; simpl; [|reflexivity].
    destruct (decide (default time now <= t)) as [Hle|Hgt].
    + rewrite option_guard_True by exact Hle. simpl.
      rewrite bool_decide_true by exact Hle. reflexivity.
    + rewrite option_guard_False by exact Hgt. simpl.
      rewrite bool_decide_false by exact Hgt. reflexivity.
Qed.

Lemma tracked_until_1_consistent : consistent tracked_until_1.
Proof.
  unfold consistent, tracked_until_1. simpl. split; [|split].
  - repeat constructor.
  - apply NoDup_singleton.
  - intros obj t. rewrite lookup_insert_Some, lookup_empty. split.
    + intros [[<- <-]|[_ ?]]; [|discriminate]. exists 1. apply list_elem_of_here.
    + intros (c & Hin). apply list_elem_of_singleton in Hin.
      injection Hin as ? ? ?. left. split; [congruence | lia].
Qed.

Lemma clean_drops_entry_expired_before_now :
  consistent tracked_until_1
  /\ clean tracked_until_1 2 (Some 2)
     = (Return tt,
        {| _times := unexpired_times 2 (_times tracked_until_1);
           _queue := unexpired 2 (_queue tracked_until_1);
           _last_time := 0; _dedup_counter := 1 |})
  /\ unexpired 2 (_queue tracked_until_1) = [].
Proof.
  split; [exact tracked_until_1_consistent|]. split; [|reflexivity].
  apply (clean_removes_expired tracked_until_1 2 (Some 2)).
  exact tracked_until_1_consistent.
Defined.

(** ** [filter] *)

Lemma consistent_counters d lt dc :
  consistent d ->
  consistent {| _times := _times d; _queue := _queue d;
                _last_time := lt; _dedup_counter := dc |}.
Proof. unfold consistent. auto. Qed.

Lemma filter_eq d time obj expire_in :
  consistent d ->
  filter d time obj expire_in =
    let m := unexpired_times time (_times d) in
    let q := unexpired time (_queue d) in
    let lt := last_time_after d time in
    let c := dedup_counter_after d time in
    if bool_decide (is_Some (m !! obj)) then
      (Return true,
       {| _times := m; _queue := q; _last_time := lt; _dedup_counter := c |})
    else
      match insort_right q (- (time + expire_in), c, obj) with
      | Raise e =>
          (Raise e,
           {| _times := <[obj := time + expire_in]> m; _queue := q;
              _last_time := lt; _dedup_counter := c |})
      | Return q' =>
          (Return false,
           {| _times := <[obj := time + expire_in]> m; _queue := q';
              _last_time := lt; _dedup_counter := c |})
      end.
Proof.
  intros Hc. unfold filter, last_time_after, dedup_counter_after.
  destruct (_last_time d <? time); cbn zeta;
    rewrite is_filtered_eq by (apply consistent_counters, Hc);
    cbn [_times _queue _last_time _dedup_counter default];
    destruct (bool_decide _); reflexivity.
Qed.


(** An untracked [obj] whose new entry shares its key prefix with no
    queued entry is recorded in the map and at its sorted place in the
    queue: no payloads are compared. *)
Lemma filter_records d time obj expire_in :
  consistent d ->
  let m := unexpired_times time (_times d) in
  let q := unexpired time (_queue d) in
  let lt := last_time_after d time in
  let c := dedup_counter_after d time in
  let new := (- (time + expire_in), c, obj) in
  m !! obj = None -> (forall y, y ∈ q -> ~ same_prefix new y) ->
  exists q',
    filter d time obj expire_in
    = (Return false,
       {| _times := <[obj := time + expire_in]> m; _queue := q';
          _last_time := lt; _dedup_counter := c |})
    /\ sorted q' /\ (forall y, y ∈ q' <-> y = new \/ y ∈ q)
    /\ consistent {| _times := <[obj := time + expire_in]> m; _queue := q';
                     _last_time := lt; _dedup_counter := c |}.
Proof.
  intros Hc m q lt c new Hnone Hfresh.
  pose proof (filter_eq d time obj expire_in Hc) as Hf. cbn zeta in Hf.
  fold m q lt c new in Hf.
  pose proof (consistent_unexpired d time Hc) as (Hsq & Hndq & Htq).
  cbn [_times _queue] in Hsq, Hndq, Htq. fold m q in Hsq, Hndq, Htq.
  rewrite bool_decide_false in Hf by (rewrite Hnone; apply is_Some_None).
  destruct (insort_right_sorted q new Hsq Hfresh) as (q' & Hins & Hsq' & Hin).
  rewrite Hins in Hf. exists q'. split; [exact Hf|].
  split; [exact Hsq'|]. split; [exact Hin|].
  unfold consistent. simpl. split; [exact Hsq'|]. split.
  - apply NoDup_fmap_2_strong; [|apply sorted_NoDup, Hsq'].
    assert (Hobj : forall y, y ∈ q -> entry_obj y <> obj).
    { intros [[a cc] o] Hy Heq. simpl in Heq. subst o.
      assert (Hl : m !! obj = Some (- a)).
      { apply Htq. exists cc. rewrite Z.opp_involutive. exact Hy. }
      congruence. }
    intros u v Hu Hv Huv. apply Hin in Hu, Hv.
    destruct Hu as [->|Hu], Hv as [->|Hv]; auto.
    + exfalso. apply (Hobj v Hv). rewrite <- Huv. reflexivity.
    + exfalso. apply (Hobj u Hu). rewrite Huv. reflexivity.
    + clear -Hndq Hu Hv Huv. induction q as [|w q IH]; [inversion Hu|].
      simpl in Hndq. apply NoDup_cons in Hndq as [Hw Hnd].
      apply elem_of_cons in Hu as [->|Hu], Hv as [->|Hv]; auto.
      * exfalso. apply Hw. rewrite Huv.
        apply (list_elem_of_fmap_2 entry_obj _ _ Hv).
      * exfalso. apply Hw. rewrite <- Huv.
        apply (list_elem_of_fmap_2 entry_obj _ _ Hu).
  - intros o t. rewrite lookup_insert_Some. split.
    + intros [[<- <-]|[Hne Hl]].
      * exists c. apply Hin. left. reflexivity.
      * apply Htq in Hl as (cc & Hy). exists cc. apply Hin. auto.
    + intros (cc & Hy). apply Hin in Hy as [Hy|Hy].
      * left. subst new. injection Hy as ? ? ?. split; [congruence | lia].
      * right. split.
        -- intros <-.
           assert (Hl : m !! obj = Some t) by (apply Htq; eauto). congruence.
        -- apply Htq. eauto.
Qed.


Lemma init_consistent : consistent init.
Proof.
  unfold consistent, init. simpl. split; [constructor|]. split; [constructor|].
  intros obj t. rewrite lookup_empty. split; [discriminate|].
  intros (c & Hin). inversion Hin.
Qed.


(** ** Tie-break counter *)

(** C9, the code at the failing input: object 7 filtered at clock reading
    1 for 3 ticks and object 8 at clock reading 2 for 2 ticks both expire
    at 4; the counter was reset in between, so the second entry gets the
    key prefix [(-4, 1)] of the first, [insort_right] has to compare the
    payloads and raises; object 8 is left in the map without a queue
    entry. *)
Theorem same_expiry_compares_payloads :
  filter init 1 7 3
  = (Return false,
     {| _times := <[7%nat := 4]> ∅; _queue := [(-4, 1, 7%nat)];
        _last_time := 1; _dedup_counter := 1 |})
  /\ tuple_lt (-4, 1, 8%nat) (-4, 1, 7%nat) = Raise TypeError
  /\ filter (filter init 1 7 3).2 2 8 2
     = (Raise TypeError,
        {| _times := <[8%nat := 4]> (<[7%nat := 4]> ∅);
           _queue := [(-4, 1, 7%nat)];
           _last_time := 2; _dedup_counter := 1 |}).
Proof. vm_compute. repeat split. Qed.

(** While the clock stands still every new entry gets a counter of its
    own, whatever its expiry: nothing in this argument looks at the sum
    [time + expire_in]. *)
Lemma filter_numbered time d obj expire_in :
  numbered time d ->
  exists b d', filter d time obj expire_in = (Return b, d') /\ numbered time d'.
Proof.
  intros (Hc & Hcnt & Hq).
  assert (Hlt' : time <= last_time_after d time).
  { unfold last_time_after. destruct (Z.ltb_spec (_last_time d) time); lia. }
  assert (Hbound : forall y, y ∈ unexpired time (_queue d) ->
            entry_count y < dedup_counter_after d time).
  { intros y Hy. apply elem_of_unexpired in Hy as [Hy _].
    destruct Hq as [Hq|Hq]; [rewrite Hq in Hy; inversion Hy|].
    specialize (Hcnt y Hy). unfold dedup_counter_after.
    destruct (Z.ltb_spec (_last_time d) time); lia. }
  pose proof (filter_eq d time obj expire_in Hc) as Hf. cbn zeta in Hf.
  destruct (unexpired_times time (_times d) !! obj) as [t|] eqn:El.
  - rewrite bool_decide_true in Hf by eauto.
    eexists _, _. split; [exact Hf|].
    split; [apply (consistent_unexpired d time Hc)|].
    cbn [_queue _last_time _dedup_counter]. split; [|right; exact Hlt'].
    intros y Hy. specialize (Hbound y Hy). lia.
  - clear Hf.
    destruct (filter_records d time obj expire_in Hc El) as (q' & Hf & _ & Hin & Hc').
    { intros y Hy [_ Hcount]. specialize (Hbound y Hy).
      change (dedup_counter_after d time = entry_count y) in Hcount. lia. }
    eexists _, _. split; [exact Hf|]. split; [exact Hc'|].
    cbn [_queue _last_time _dedup_counter]. split; [|right; exact Hlt'].
    intros y Hy. apply Hin in Hy as [->|Hy].
    + unfold entry_count. simpl. lia.
    + specialize (Hbound y Hy). lia.
Qed.

Lemma filters_numbered time : forall calls d,
  numbered time d -> standing time calls ->
  exists bs d', filters d calls = (Return bs, d')
                /\ numbered time d' /\ length bs = length calls.
Proof.
  induction calls as [|[[time' obj] e] calls IH]; intros d Hn Hs.
  - exists [], d. auto.
  - apply Forall_cons in Hs as [Ht Hs]. simpl in Ht. subst time'.
    cbn [filters].
    destruct (filter_numbered time d obj e Hn) as (b & d1 & -> & Hn1).
    destruct (IH d1 Hn1 Hs) as (bs & d2 & -> & Hn2 & Hlen).
    exists (b :: bs), d2. simpl. auto.
Qed.

(** On a fresh debouncer, calls of [filter] made while the clock reading
    stays the same never compare two payloads, whatever the objects and
    the values of [expire_in]: every call returns, and the state stays
    consistent.  The counter alone tells the entries apart, so the result
    does not depend on how [time + expire_in] is computed. *)
Theorem standing_clock_filters_never_raise time calls :
  standing time calls ->
  exists bs d,
    filters init calls = (Return bs, d)
    /\ length bs = length calls
    /\ consistent d
    /\ forall y, y ∈ _queue d -> entry_count y <= _dedup_counter d.
Proof.
  intros Hs.
  assert (Hn : numbered time init).
  { split; [apply init_consistent|]. split; [|left; reflexivity].
    intros y Hy. inversion Hy. }
  destruct (filters_numbered time calls init Hn Hs)
    as (bs & d & Hf & (Hc & Hcnt & _) & Hlen).
  exists bs, d. auto.
Qed.

Lemma standing_clock_filters_never_raise_witness :
  standing 5 scenario_standing_clock
  /\ exists bs d,
       filters init scenario_standing_clock = (Return bs, d)
       /\ length bs = length scenario_standing_clock
       /\ consistent d
       /\ forall y, y ∈ _queue d -> entry_count y <= _dedup_counter d.
Proof.
  assert (Hs : standing 5 scenario_standing_clock)
    by (repeat constructor).
  split; [exact Hs|].
  exact (standing_clock_filters_never_raise 5 scenario_standing_clock Hs).
Defined.

End DebouncerFacts.

(** * When [insort_right] raises *)

Section InsortOutcomes.

Implicit Types (x y z : entry) (a : list entry).

Lemma tuple_lt_Return x y b :
  entry_obj y <> entry_obj x -> tuple_lt x y = Return b ->
  if b then key_lt x y else key_lt y x.
Proof.
  unfold tuple_lt, key_lt. intros Hobj.
  destruct (Z.eqb_spec (entry_neg x) (entry_neg y)) as [E1|E1]; simpl.
  - destruct (Z.eqb_spec (entry_count x) (entry_count y)) as [E2|E2]; simpl.
    + destruct (Nat.eqb_spec (entry_obj x) (entry_obj y)) as [E3|E3]; simpl.
      * congruence.
      * discriminate.
    + intros [= <-]. destruct (Z.ltb_spec (entry_count x) (entry_count y)); lia.
  - intros [= <-]. destruct (Z.ltb_spec (entry_neg x) (entry_neg y)); lia.
Qed.

Lemma tuple_lt_Raise x y e : tuple_lt x y = Raise e -> e = TypeError.
Proof.
  unfold tuple_lt.
  destruct (negb _); [discriminate|]. destruct (negb _); [discriminate|].
  destruct (negb _); [|discriminate]. congruence.
Qed.

Lemma bisect_mid lo hi : (lo < hi)%nat -> (lo <= (lo + hi) / 2 < hi)%nat.
Proof.
  intros H. split.
  - apply Nat.div_le_lower_bound; lia.
  - apply Nat.Div0.div_lt_upper_bound; lia.
Qed.

(** The search only ever raises the [TypeError] of a payload comparison:
    it never indexes outside the list. *)
Lemma bisect_right_loop_raises a x e : forall fuel lo hi,
  (lo <= hi <= length a)%nat ->
  bisect_right_loop fuel a x lo hi = Raise e -> e = TypeError.
Proof.
  induction fuel as [|fuel IH]; intros lo hi Hb; cbn [bisect_right_loop];
    [discriminate|].
  destruct (Nat.ltb_spec lo hi) as [Hlt|]; [|discriminate].
  pose proof (bisect_mid lo hi Hlt) as Hmid.
  destruct (lookup_lt_is_Some_2 a ((lo + hi) / 2)) as [y Hy]; [lia|].
  rewrite Hy. destruct (tuple_lt x y) as [[]|e'] eqn:Et.
  - apply IH. lia.
  - apply IH. lia.
  - intros [= <-]. eapply tuple_lt_Raise; eauto.
Qed.

(** When the search returns on a sorted list whose payloads all differ
    from the new one, every entry is strictly before or strictly after
    the new tuple. *)
Lemma bisect_right_loop_returns a x :
  sorted a -> (forall y, y ∈ a -> entry_obj y <> entry_obj x) ->
  forall fuel lo hi p,
    (hi - lo <= fuel)%nat -> (lo <= hi <= length a)%nat ->
    (forall i y, (i < lo)%nat -> a !! i = Some y -> key_lt y x) ->
    (forall i y, (hi <= i)%nat -> a !! i = Some y -> key_lt x y) ->
    bisect_right_loop fuel a x lo hi = Return p ->
    (forall i y, (i < p)%nat -> a !! i = Some y -> key_lt y x)
    /\ (forall i y, (p <= i)%nat -> a !! i = Some y -> key_lt x y).
Proof.
  intros Hs Hobj. induction fuel as [|fuel IH]; intros lo hi p Hfuel Hb Hlo Hhi.
  - simpl. intros [= <-]. split; auto. intros i y Hi. apply Hhi. lia.
  - cbn [bisect_right_loop]. destruct (Nat.ltb_spec lo hi) as [Hlt|Hge].
    + pose proof (bisect_mid lo hi Hlt) as Hmid.
      set (mid := ((lo + hi) / 2)%nat) in *.
      destruct (lookup_lt_is_Some_2 a mid) as [y Hy]; [lia|].
      rewrite Hy. destruct (tuple_lt x y) as [b|e] eqn:Et; [|discriminate].
      pose proof (tuple_lt_Return x y b
                    (Hobj y (list_elem_of_lookup_2 _ _ _ Hy)) Et) as Hk.
      destruct b.
      * apply IH; auto; try lia.
        intros i z Hi Hz. destruct (decide (i = mid)) as [->|Hne].
        -- rewrite Hy in Hz. injection Hz as <-. exact Hk.
        -- eapply key_lt_trans; [exact Hk|].
           eapply (sorted_lookup a mid i); eauto. lia.
      * apply IH; auto; try lia.
        intros i z Hi Hz. destruct (decide (i = mid)) as [->|Hne].
        -- rewrite Hy in Hz. injection Hz as <-. exact Hk.
        -- eapply key_lt_trans; [|exact Hk].
           eapply (sorted_lookup a i mid); eauto. lia.
    + intros [= <-]. split; auto. intros i y Hi. apply Hhi. lia.
Qed.

(** On a sorted list whose payloads all differ from the new one,
    [insort_right] either returns, and then no entry had the new tuple's
    key prefix, or raises [TypeError]. *)
Lemma insort_right_outcome a x :
  sorted a -> (forall y, y ∈ a -> entry_obj y <> entry_obj x) ->
  (exists a', insort_right a x = Return a'
     /\ (forall y, y ∈ a -> ~ same_prefix x y))
  \/ (insort_right a x = Raise TypeError
      /\ exists y, y ∈ a /\ same_prefix x y).
Proof.
  intros Hs Hobj. unfold insort_right, bisect_right.
  destruct (bisect_right_loop (length a) a x 0 (length a)) as [p|e] eqn:Eb.
  - left. eexists. split; [reflexivity|].
    assert (H0 : forall i y, (i < 0)%nat -> a !! i = Some y -> key_lt y x)
      by (intros; lia).
    assert (H1 : forall i y, (length a <= i)%nat -> a !! i = Some y -> key_lt x y).
    { intros i y Hi Hy. apply lookup_lt_Some in Hy. lia. }
    destruct (bisect_right_loop_returns a x Hs Hobj (length a) 0 (length a) p
                ltac:(lia) ltac:(lia) H0 H1 Eb) as [Hlo Hhi].
    intros y Hy Hsame. apply list_elem_of_lookup in Hy as [i Hi].
    destruct (decide (i < p)%nat) as [Hlt|Hge].
    + apply (key_lt_not_same_prefix y x (Hlo i y Hlt Hi)).
      unfold same_prefix in *. intuition congruence.
    + apply (key_lt_not_same_prefix x y (Hhi i y ltac:(lia) Hi)). exact Hsame.
  - right. assert (e = TypeError) as ->.
    { eapply (bisect_right_loop_raises a x e (length a) 0 (length a)); eauto. lia. }
    split; [reflexivity|].
    destruct (existsb (same_prefixb x) a) eqn:Hex.
    + apply existsb_exists in Hex as (y & Hy & Hp).
      exists y. split; [apply list_elem_of_In, Hy | apply same_prefixb_spec, Hp].
    + exfalso.
      assert (Hfresh : forall y, y ∈ a -> ~ same_prefix x y).
      { intros y Hy Hp.
        assert (existsb (same_prefixb x) a = true); [|congruence].
        apply existsb_exists. exists y.
        split; [apply list_elem_of_In, Hy | apply same_prefixb_spec, Hp]. }
      destruct (insort_right_sorted a x Hs Hfresh) as (a' & Hins & _).
      unfold insort_right, bisect_right in Hins. rewrite Eb in Hins. discriminate.
Qed.

End InsortOutcomes.

(** * More facts about the semaphore: wake-ups, bounds, scopes *)

Module SemaphoreInvariants.
Import Semaphore SemaphoreFacts.

Implicit Types (s : semaphore) (fs : gmap nat fut_state) (ws : list entry)
  (u v obj : entry) (f : nat).

(** ** No wake-up is lost *)

Lemma all_done_not_pending s :
  all_done (futures s) (_waiters s) ->
  ~ exists u, u ∈ _waiters s /\ pending s u.
Proof.
  unfold all_done. rewrite Forall_forall. intros Hd (u & Hu & Hp).
  apply Hd in Hu. apply fut_done_pending in Hp. congruence.
Qed.

(** After [n > 0] rounds of granting, either somebody in the queue is
    done or nobody is pending. *)
Lemma grant_in_order_done_or_none ws n fs :
  (0 < n)%nat ->
  (exists v, v ∈ ws /\ fut_done (grant_in_order ws n fs).2 (entry_obj v) = true)
  \/ all_done (grant_in_order ws n fs).2 ws.
Proof.
  intros Hn. destruct (first_not_done fs ws) as [f|] eqn:Ef.
  - left. destruct (grant_in_order_first ws n fs f Hn Ef) as [Hl _].
    apply first_not_done_Some in Ef as (l1 & g & l2 & -> & <- & _).
    exists g. split.
    + apply elem_of_app. right. apply list_elem_of_here.
    + unfold fut_done, fut_state_of. rewrite Hl. reflexivity.
  - right. apply first_not_done_None in Ef.
    rewrite grant_in_order_all_done by exact Ef. exact Ef.
Qed.

Lemma wakeup_ok_granted s n :
  (0 < n)%nat ->
  wakeup_ok (granted s (grant_in_order (_waiters s) n (futures s)).1
                       (grant_in_order (_waiters s) n (futures s)).2).
Proof.
  intros Hn _ Hp.
  destruct (grant_in_order_done_or_none (_waiters s) n (futures s) Hn) as [H|H].
  - exact H.
  - exfalso. revert Hp. apply all_done_not_pending. exact H.
Qed.

(** What the closing loop of [acquire] leaves. *)
Lemma top_up_settled s :
  _value (top_up s) <= 0 \/ all_done (futures (top_up s)) (_waiters (top_up s)).
Proof.
  rewrite top_up_grant. simpl.
  pose proof (grant_in_order_le (_waiters s) (Z.to_nat (_value s)) (futures s)) as Hle.
  destruct (decide ((grant_in_order (_waiters s) (Z.to_nat (_value s)) (futures s)).1
                    < Z.to_nat (_value s))%nat) as [Hlt|Hge].
  - right. apply grant_in_order_early_stop. exact Hlt.
  - left. lia.
Qed.

(** Every way out of a resumed [acquire] goes through the closing loop. *)
Lemma acquire_resume_ends_in_top_up s obj mc r s' :
  acquire_resume s obj mc = Some (r, s') -> exists s0, s' = top_up s0.
Proof.
  unfold acquire_resume.
  destruct (await_outcome _ _) as [raised|]; [|discriminate].
  destruct (list_remove obj (_waiters s)) as [ws|]; intros [= _ <-]; eauto.
Qed.

(** Whatever the state, when a suspended [acquire] has run to its end,
    returning or raising, the counter is not positive or no queued waiter
    is pending: every permit that could be handed on has been. *)
Theorem resumed_acquire_hands_on_permits s obj mc r s' :
  acquire_resume s obj mc = Some (r, s') ->
  _value s' <= 0 \/ all_done (futures s') (_waiters s').
Proof.
  unfold acquire_resume.
  destruct (await_outcome _ _) as [raised|]; [|discriminate].
  destruct (list_remove obj (_waiters s)) as [ws|]; intros [= _ <-];
    apply top_up_settled.
Qed.

Lemma resumed_acquire_hands_on_permits_witness :
  acquire_resume granted_then_cancelled (0, 1, 0%nat) true
  = Some (Raise CancelledError, the_sem repaired)
  /\ (_value (the_sem repaired) <= 0
      \/ all_done (futures (the_sem repaired)) (_waiters (the_sem repaired))).
Proof.
  assert (H : acquire_resume granted_then_cancelled (0, 1, 0%nat) true
              = Some (Raise CancelledError, the_sem repaired))
    by (vm_compute; reflexivity).
  split; [exact H|].
  exact (resumed_acquire_hands_on_permits _ _ _ _ _ H).
Defined.

Lemma cancel_each_keeps_done exc ws : forall fs f,
  fut_done fs f = true -> cancel_each exc ws fs !! f = fs !! f.
Proof.
  induction ws as [|w ws IH]; intros fs f Hd; simpl; [reflexivity|].
  destruct (fut_done fs (entry_obj w)) eqn:E.
  - apply IH, Hd.
  - rewrite IH.
    + apply lookup_insert_ne. intros Heq. congruence.
    + unfold fut_done, fut_state_of in *.
      destruct (decide (entry_obj w = f)) as [->|Hne].
      * rewrite lookup_insert_eq. reflexivity.
      * rewrite lookup_insert_ne by exact Hne. exact Hd.
Qed.

Lemma cancel_each_all_done exc ws : forall fs, all_done (cancel_each exc ws fs) ws.
Proof.
  unfold all_done. induction ws as [|w ws IH]; intros fs; simpl; constructor.
  - unfold fut_done at 1, fut_state_of.
    destruct (fut_done fs (entry_obj w)) eqn:E.
    + rewrite cancel_each_keeps_done by exact E. exact E.
    + rewrite cancel_each_keeps_done.
      * rewrite lookup_insert_eq. reflexivity.
      * unfold fut_done, fut_state_of. rewrite lookup_insert_eq. reflexivity.
  - apply IH.
Qed.

Lemma wakeup_ok_all_done s :
  all_done (futures s) (_waiters s) -> wakeup_ok s.
Proof. intros H _ Hp. exfalso. eapply all_done_not_pending; eauto. Qed.

Lemma wakeup_ok_nonpositive s : _value s <= 0 -> wakeup_ok s.
Proof. intros H Hpos. lia. Qed.

Lemma step_wakeup_ok w ev w' :
  step w ev = Some w' -> well_formed (the_sem w) ->
  wakeup_ok (the_sem w) -> wakeup_ok (the_sem w').
Proof.
  intros Hstep Hwf Hok. destruct ev; simpl in Hstep.
  - (* Acquire *)
    destruct (acquire_enter_cases (the_sem w) running priority Hwf)
      as [(_ & E)|[(_ & _ & s1 & E & Hw1 & Hv1 & Hf1 & _)
                  |(Hl & _ & ws & _ & _ & Hin & E)]];
      rewrite E in Hstep; injection Hstep as <-; simpl.
    + intros Hpos Hp. simpl in *. apply Hok; [lia | exact Hp].
    + unfold wakeup_ok, pending. rewrite Hw1, Hv1, Hf1. exact Hok.
    + destruct Hwf as (_ & _ & Hf & _).
      assert (Hsame : forall u, u ∈ _waiters (the_sem w) ->
                fut_state_of (<[next_future (the_sem w):=FutPending]>
                                (futures (the_sem w))) (entry_obj u)
                = fut_state_of (futures (the_sem w)) (entry_obj u)).
      { intros u Hu. unfold fut_state_of. rewrite lookup_insert_ne; [reflexivity|].
        apply Hf in Hu. lia. }
      intros Hpos _. simpl in *.
      assert (Hd : exists v, v ∈ _waiters (the_sem w)
                     /\ fut_done (futures (the_sem w)) (entry_obj v) = true).
      { apply locked_iff in Hl as [Hl|(u & Hu & Hc)]; [lia|].
        destruct (fut_done (futures (the_sem w)) (entry_obj u)) eqn:Ed; [eauto|].
        apply Hok; [exact Hpos|]. exists u. split; [exact Hu|].
        apply fut_done_pending, Ed. }
      destruct Hd as (v & Hv & Hd). exists v. split; [apply Hin; auto|].
      unfold fut_done in *. rewrite Hsame by exact Hv. exact Hd.
  - (* Resume *)
    destruct (is_waiting _ _); [|discriminate].
    destruct (acquire_resume _ _ _) as [[r s']|] eqn:Er; [|discriminate].
    destruct (acquire_resume_ends_in_top_up _ _ _ _ _ Er) as (s0 & ->).
    destruct (top_up_settled s0) as [H|H];
      destruct r; injection Hstep as <-; simpl;
      auto using wakeup_ok_nonpositive, wakeup_ok_all_done.
  - (* TaskCancel *)
    destruct (is_waiting (the_sem w) obj) eqn:Ew; [|discriminate].
    destruct (fut_done _ _); injection Hstep as <-; simpl; [exact Hok|].
    intros _ _. exists obj. split.
    + unfold is_waiting in Ew. apply existsb_exists in Ew as (y & Hy & Hyo).
      apply tuple_eqb_eq in Hyo as ->. apply list_elem_of_In, Hy.
    + simpl. unfold fut_done, fut_state_of. rewrite lookup_insert_eq. reflexivity.
  - (* Release *)
    assert (H : wakeup_ok (release (the_sem w)).2).
    { unfold release. destruct (_max_value (the_sem w) <=? _value (the_sem w));
        simpl; [exact Hok|].
      rewrite wake_up_next_as_loop.
      rewrite (wake_up_to_grant (_waiters (the_sem w)) 1 _ []);
        [|reflexivity|constructor].
      apply (wakeup_ok_granted (with_value (the_sem w) (_value (the_sem w) + 1)) 1).
      lia. }
    destruct (release (the_sem w)) as [[] s']; injection Hstep as <-; exact H.
  - (* SetMaxValue *)
    injection Hstep as <-. simpl. rewrite set_max_value_eq.
    destruct (new_value <? 0); simpl; [exact Hok|].
    set (delta := new_value - _max_value (the_sem w)).
    destruct (decide (0 < delta)) as [Hd|Hd].
    + pose proof (wakeup_ok_granted
                    {| _value := _value (the_sem w) + delta;
                       _max_value := new_value;
                       _comparison_counter := _comparison_counter (the_sem w);
                       _waiters := _waiters (the_sem w); _loop := _loop (the_sem w);
                       futures := futures (the_sem w);
                       next_future := next_future (the_sem w) |}
                    (Z.to_nat (Z.max 0 delta)) ltac:(lia)) as H.
      exact H.
    + replace (Z.to_nat (Z.max 0 delta)) with O by lia.
      rewrite grant_in_order_0. simpl.
      intros Hpos Hp. simpl in *. apply Hok; [lia | exact Hp].
  - (* CancelWaiting *)
    injection Hstep as <-. simpl.
    apply wakeup_ok_all_done. simpl. apply cancel_each_all_done.
Qed.

(** In every reachable state, if the counter is positive and a queued
    waiter is pending, then some queued waiter is done and has not
    resumed yet; when it resumes it hands the permits on.  So no waiter
    stays suspended beside a free permit with nobody left to wake it. *)
Theorem no_lost_wakeup value w :
  reachable value w ->
  0 < _value (the_sem w) ->
  (exists u, u ∈ _waiters (the_sem w) /\ pending (the_sem w) u) ->
  exists v, v ∈ _waiters (the_sem w)
            /\ fut_done (futures (the_sem w)) (entry_obj v) = true.
Proof.
  intros [evs Hrun].
  enough (H : well_formed (the_sem w) /\ wakeup_ok (the_sem w)) by apply H.
  assert (H0 : well_formed (the_sem (start value)) /\ wakeup_ok (the_sem (start value))).
  { split; [apply init_well_formed|]. intros _ (u & Hu & _). inversion Hu. }
  revert Hrun H0. generalize (start value). induction evs as [|ev evs IH];
    simpl; intros w0 Hrun [Hwf Hok].
  - injection Hrun as <-. auto.
  - destruct (step w0 ev) as [w1|] eqn:Es; [|discriminate].
    apply (IH w1 Hrun). split.
    + eapply step_well_formed; eauto.
    + eapply step_wakeup_ok; eauto.
Qed.

Lemma no_lost_wakeup_witness :
  reachable 1 top_up_pending
  /\ 0 < _value (the_sem top_up_pending)
  /\ (exists u, u ∈ _waiters (the_sem top_up_pending)
                /\ pending (the_sem top_up_pending) u)
  /\ exists v, v ∈ _waiters (the_sem top_up_pending)
               /\ fut_done (futures (the_sem top_up_pending)) (entry_obj v) = true.
Proof.
  assert (Hr : reachable 1 top_up_pending)
    by (exists scenario_top_up; vm_compute; reflexivity).
  assert (Hpos : 0 < _value (the_sem top_up_pending)) by (simpl; lia).
  assert (Hp : exists u, u ∈ _waiters (the_sem top_up_pending)
                         /\ pending (the_sem top_up_pending) u).
  { exists (0, 3, 2%nat). split; [|reflexivity].
    apply elem_of_cons. right. apply elem_of_cons. right. apply list_elem_of_here. }
  split; [exact Hr|]. split; [exact Hpos|]. split; [exact Hp|].
  exact (no_lost_wakeup 1 top_up_pending Hr Hpos Hp).
Defined.

(** ** Bounds without a change of the maximum *)

Lemma top_up_nonneg s : 0 <= _value s -> 0 <= _value (top_up s).
Proof.
  intros H. rewrite top_up_grant. simpl.
  pose proof (grant_in_order_le (_waiters s) (Z.to_nat (_value s)) (futures s)).
  lia.
Qed.

Lemma acquire_resume_nonneg s obj mc r s' :
  acquire_resume s obj mc = Some (r, s') -> 0 <= _value s -> 0 <= _value s'.
Proof.
  unfold acquire_resume.
  destruct (await_outcome _ _) as [raised|]; [|discriminate].
  destruct (list_remove obj (_waiters s)) as [ws|]; intros [= _ <-] Hv;
    apply top_up_nonneg.
  - destruct raised as [[]|]; simpl; try exact Hv.
    destruct (_ && _); simpl; lia.
  - exact Hv.
Qed.

Lemma acquire_enter_value s running priority :
  _max_value (acquire_enter s running priority).2 = _max_value s
  /\ (0 <= _value s -> 0 <= _value (acquire_enter s running priority).2).
Proof.
  unfold acquire_enter. destruct (locked s) eqn:El; simpl.
  - unfold _get_loop. simpl.
    destruct (_loop s) as [l|]; simpl.
    + destruct (l =? running)%nat; simpl; [|auto].
      destruct (insort_right _ _); simpl; auto.
    + rewrite Nat.eqb_refl. destruct (insort_right _ _); simpl; auto.
  - split; [reflexivity|]. intros _.
    assert (H : ~ _value s <= 0).
    { intros H. assert (locked s = true) by (apply locked_iff; auto). congruence. }
    lia.
Qed.

Lemma step_keeps_max_value w ev w' :
  not_set_max_value ev -> step w ev = Some w' ->
  _max_value (the_sem w') = _max_value (the_sem w)
  /\ (0 <= _value (the_sem w) -> 0 <= _value (the_sem w')).
Proof.
  intros Hev Hstep. destruct ev; simpl in Hstep; try contradiction.
  - pose proof (acquire_enter_value (the_sem w) running priority) as H.
    destruct (acquire_enter (the_sem w) running priority) as [[] s'];
      injection Hstep as <-; exact H.
  - destruct (is_waiting _ _); [|discriminate].
    destruct (acquire_resume _ _ _) as [[r s']|] eqn:Er; [|discriminate].
    pose proof (acquire_resume_nonneg _ _ _ _ _ Er) as Hn.
    assert (Hm : _max_value s' = _max_value (the_sem w)).
    { revert Er. unfold acquire_resume.
      destruct (await_outcome _ _) as [raised|]; [|discriminate].
      destruct (list_remove obj (_waiters (the_sem w))) as [ws|]; intros [= _ <-];
        match goal with |- _max_value (top_up ?t) = _ =>
          destruct (top_up_same_queue t) as (_ & _ & _ & _ & ->) end.
      - destruct raised as [[]|]; simpl; try reflexivity.
        destruct (_ && _); reflexivity.
      - reflexivity. }
    destruct r; injection Hstep as <-; auto.
  - destruct (is_waiting _ _); [|discriminate].
    destruct (fut_done _ _); injection Hstep as <-; simpl; auto.
  - pose proof (release_same_queue (the_sem w)) as (_ & _ & _ & _ & Hm).
    assert (Hn : 0 <= _value (the_sem w) -> 0 <= _value (release (the_sem w)).2).
    { intros Hv. unfold release.
      destruct (_max_value (the_sem w) <=? _value (the_sem w)); simpl; [exact Hv|].
      unfold _wake_up_next. destruct (first_not_done _ _); simpl; lia. }
    destruct (release (the_sem w)) as [[] s']; injection Hstep as <-; auto.
  - injection Hstep as <-. simpl. auto.
Qed.

Lemma step_matched_step w ev w' : step_matched w ev = Some w' -> step w ev = Some w'.
Proof.
  destruct ev; simpl; auto. destruct (0 <? held w); [auto | discriminate].
Qed.

Lemma within_capacity_bounds value w :
  within_capacity value w ->
  0 <= _value (the_sem w) <= value
  /\ 0 <= held w <= value
  /\ (held w = value ->
      _value (the_sem w) = 0
      /\ count_granted (futures (the_sem w)) (_waiters (the_sem w)) = 0).
Proof.
  intros ((_ & _ & Hh & Hb) & Hv & Hm).
  pose proof (count_granted_nonneg (futures (the_sem w)) (_waiters (the_sem w))).
  lia.
Qed.

Lemma step_within_capacity value w ev w' :
  not_cancel_waiting ev -> not_set_max_value ev ->
  step_matched w ev = Some w' ->
  within_capacity value w -> within_capacity value w'.
Proof.
  intros H1 H2 Hstep (Hb & Hv & Hm).
  destruct (step_keeps_max_value w ev w' H2 (step_matched_step _ _ _ Hstep))
    as [Hm' Hv'].
  split; [eapply step_balanced; eauto|]. split; [auto | congruence].
Qed.

Lemma start_within_capacity value : 0 <= value -> within_capacity value (start value).
Proof.
  intros Hv. split; [|simpl; auto].
  split; [apply init_well_formed|]. split; [|simpl; lia].
  intros f e. simpl. rewrite lookup_empty. discriminate.
Qed.

(** A semaphore created with a non-negative value, whose maximum is not
    changed, on which [cancel_waiting] is not called and [release] is
    only called by holders: the counter stays between 0 and the maximum,
    and never more callers hold a permit than the maximum; when that many
    do, the counter is 0 and no queued waiter has been granted. *)
Theorem holders_within_capacity value evs w :
  0 <= value ->
  Forall not_cancel_waiting evs -> Forall not_set_max_value evs ->
  run_matched (start value) evs = Some w ->
  _max_value (the_sem w) = value
  /\ 0 <= _value (the_sem w) <= value
  /\ 0 <= held w <= value
  /\ (held w = value ->
      _value (the_sem w) = 0
      /\ count_granted (futures (the_sem w)) (_waiters (the_sem w)) = 0).
Proof.
  intros Hv H1 H2 Hrun.
  enough (H : within_capacity value w).
  { split; [apply H | apply within_capacity_bounds, H]. }
  pose proof (start_within_capacity value Hv) as H0.
  revert Hrun H0 H1 H2. generalize (start value).
  induction evs as [|ev evs IH]; simpl; intros w0 Hrun H0 H1 H2.
  - injection Hrun as <-. exact H0.
  - destruct (step_matched w0 ev) as [w1|] eqn:Es; [|discriminate].
    inversion H1; inversion H2; subst.
    apply (IH w1 Hrun); auto. eapply step_within_capacity; eauto.
Qed.

Lemma holders_within_capacity_witness :
  0 <= 2
  /\ run_matched (start 2) scenario_one_of_two = Some one_of_two
  /\ 0 <= held one_of_two <= 2.
Proof.
  assert (Hrun : run_matched (start 2) scenario_one_of_two = Some one_of_two)
    by (vm_compute; reflexivity).
  split; [lia|]. split; [exact Hrun|].
  apply (holders_within_capacity 2 scenario_one_of_two one_of_two);
    [lia | repeat constructor | repeat constructor | exact Hrun].
Defined.

(** ** PriorityLock *)

(** A [PriorityLock] on which [cancel_waiting] is not called and that is
    released only by its holder: every attempt to set [max_value] raises
    and changes nothing, the maximum stays 1, at most one caller holds
    the lock, and while one does the counter is 0 and no queued waiter
    has been granted. *)
Theorem lock_mutual_exclusion evs w :
  Forall not_cancel_waiting evs ->
  PriorityLock.run PriorityLock.start evs = Some w ->
  _max_value (the_sem w) = 1
  /\ 0 <= _value (the_sem w) <= 1
  /\ 0 <= held w <= 1
  /\ (held w = 1 ->
      _value (the_sem w) = 0
      /\ count_granted (futures (the_sem w)) (_waiters (the_sem w)) = 0)
  /\ forall new_value,
       PriorityLock.set_max_value (the_sem w) new_value
       = (Raise ValueError, the_sem w).
Proof.
  intros H1 Hrun.
  enough (H : within_capacity 1 w).
  { split; [apply H|]. destruct (within_capacity_bounds 1 w H) as (A & B & C).
    repeat split; auto; try apply A; try apply B; apply C; auto. }
  assert (H0 : within_capacity 1 PriorityLock.start)
    by (apply (start_within_capacity 1); lia).
  revert Hrun H0 H1. generalize PriorityLock.start.
  induction evs as [|ev evs IH]; simpl; intros w0 Hrun H0 H1.
  - injection Hrun as <-. exact H0.
  - destruct (PriorityLock.step w0 ev) as [w1|] eqn:Es; [|discriminate].
    inversion H1; subst. apply (IH w1 Hrun); auto.
    assert (Hcase : (exists n, ev = SetMaxValue n)
                    \/ (not_set_max_value ev
                        /\ PriorityLock.step w0 ev = step_matched w0 ev)).
    { destruct ev; simpl; eauto. }
    destruct Hcase as [[n ->]|[Hns Heq]].
    + simpl in Es. injection Es as <-. exact H0.
    + rewrite Heq in Es. eapply step_within_capacity; eauto.
Qed.

Lemma lock_mutual_exclusion_witness :
  Forall not_cancel_waiting PriorityLock.scenario_handover
  /\ PriorityLock.run PriorityLock.start PriorityLock.scenario_handover
     = Some PriorityLock.handed_over
  /\ 0 <= held PriorityLock.handed_over <= 1.
Proof.
  assert (Hall : Forall not_cancel_waiting PriorityLock.scenario_handover)
    by (repeat constructor).
  assert (Hrun : PriorityLock.run PriorityLock.start PriorityLock.scenario_handover
                 = Some PriorityLock.handed_over) by (vm_compute; reflexivity).
  split; [exact Hall|]. split; [exact Hrun|].
  apply (lock_mutual_exclusion PriorityLock.scenario_handover PriorityLock.handed_over Hall Hrun).
Defined.

(** ** Scoped acquisition *)

Lemma unlocked_all_done s : locked s = false -> all_done (futures s) (_waiters s).
Proof.
  unfold locked, all_done. intros H. apply orb_false_iff in H as [_ H].
  rewrite Forall_forall. intros u Hu.
  destruct (fut_done (futures s) (entry_obj u)) eqn:Ed; [reflexivity|].
  assert (Hex : existsb (fun w => negb (fut_cancelled (futures s) (entry_obj w)))
                  (_waiters s) = true).
  { apply existsb_exists. exists u. split; [apply list_elem_of_In, Hu|].
    unfold fut_done, fut_cancelled in *.
    destruct (fut_state_of (futures s) (entry_obj u)); simpl; congruence. }
  congruence.
Qed.

Lemma with_value_back s (n : Z) : with_value (with_value s n) (_value s) = s.
Proof. destruct s. reflexivity. Qed.

(** On a semaphore that is not locked and whose counter does not exceed
    the maximum, entering a scope takes a permit at once, on any loop and
    with any priority, and leaving the scope, with or without an
    exception, puts the semaphore back exactly as it was. *)
Theorem scoped_acquisition_round_trip s running priority exc :
  locked s = false -> _value s <= _max_value s ->
  __aenter__ s running = (Acquired, with_value s (_value s - 1))
  /\ wrapped_aenter (__call__ priority) s running
     = (Acquired, with_value s (_value s - 1))
  /\ __aexit__ (with_value s (_value s - 1)) exc = (Return tt, s)
  /\ wrapped_aexit (__call__ priority) (with_value s (_value s - 1)) exc
     = (Return tt, s).
Proof.
  intros Hl Hv.
  assert (Henter : forall p, acquire_enter s running p
                             = (Acquired, with_value s (_value s - 1))).
  { intros p. unfold acquire_enter. rewrite Hl. reflexivity. }
  assert (Hexit : release (with_value s (_value s - 1)) = (Return tt, s)).
  { unfold release. simpl.
    destruct (Z.leb_spec (_max_value s) (_value s - 1)); [lia|].
    rewrite wake_up_next_false.
    - simpl. f_equal. replace (_value s - 1 + 1) with (_value s) by lia.
      apply with_value_back.
    - apply first_not_done_None. simpl. apply unlocked_all_done, Hl. }
  split; [apply Henter|]. split; [apply Henter|]. split; exact Hexit.
Qed.

Lemma scoped_acquisition_round_trip_witness :
  locked (the_sem one_of_two) = false
  /\ _value (the_sem one_of_two) <= _max_value (the_sem one_of_two)
  /\ wrapped_aexit (__call__ 5)
       (wrapped_aenter (__call__ 5) (the_sem one_of_two) 0).2 (Some ValueError)
     = (Return tt, the_sem one_of_two).
Proof.
  assert (Hl : locked (the_sem one_of_two) = false) by reflexivity.
  assert (Hv : _value (the_sem one_of_two) <= _max_value (the_sem one_of_two))
    by (simpl; lia).
  split; [exact Hl|]. split; [exact Hv|].
  destruct (scoped_acquisition_round_trip (the_sem one_of_two) 0 5
              (Some ValueError) Hl Hv) as (_ & -> & _ & H).
  exact H.
Defined.

(** ** [cancel_waiting] *)

Lemma cancel_each_all_done_id exc ws : forall fs,
  all_done fs ws -> cancel_each exc ws fs = fs.
Proof.
  unfold all_done. induction ws as [|w ws IH]; intros fs Hd; simpl; [reflexivity|].
  inversion Hd as [|? ? Hw Hd']; subst. rewrite Hw. apply IH, Hd'.
Qed.

Lemma cancel_each_pending exc ws : forall fs u,
  u ∈ ws -> fut_done fs (entry_obj u) = false ->
  cancel_each exc ws fs !! entry_obj u = Some (FutException exc).
Proof.
  induction ws as [|w ws IH]; intros fs u Hu Hp; [inversion Hu|]. simpl.
  assert (Hset : forall f, fut_done (<[f := FutException exc]> fs) f = true).
  { intros f. unfold fut_done, fut_state_of. rewrite lookup_insert_eq. reflexivity. }
  destruct (fut_done fs (entry_obj w)) eqn:E.
  - apply elem_of_cons in Hu as [->|Hu]; [congruence|]. apply IH; auto.
  - destruct (decide (entry_obj w = entry_obj u)) as [Heq|Hne].
    + rewrite <- Heq, cancel_each_keeps_done by apply Hset.
      apply lookup_insert_eq.
    + apply elem_of_cons in Hu as [->|Hu]; [congruence|]. apply IH; auto.
      unfold fut_done, fut_state_of in *.
      rewrite lookup_insert_ne by exact Hne. exact Hp.
Qed.

Lemma cancel_each_outside exc ws : forall fs f,
  f ∉ map entry_obj ws -> cancel_each exc ws fs !! f = fs !! f.
Proof.
  induction ws as [|w ws IH]; intros fs f Hf; simpl; [reflexivity|].
  simpl in Hf. apply not_elem_of_cons in Hf as [Hne Hf].
  rewrite IH by exact Hf.
  destruct (fut_done fs (entry_obj w)); [reflexivity|].
  apply lookup_insert_ne. congruence.
Qed.

Lemma with_futures_same s : with_futures s (futures s) = s.
Proof. destruct s. reflexivity. Qed.

(** [cancel_waiting(exc)] on any state: the counter, the maximum and the
    queue stay as they are; every queued waiter that was pending now has
    the exception [exc]; futures that were done (granted, cancelled,
    failed) and futures of no queued waiter are untouched; afterwards no
    queued waiter is pending, so a wake-up finds nobody, and a second
    [cancel_waiting], with any exception, changes nothing. *)
Theorem cancel_waiting_spec s exc :
  _value (cancel_waiting s exc) = _value s
  /\ same_queue s (cancel_waiting s exc)
  /\ (forall u, u ∈ _waiters s -> pending s u ->
        fut_state_of (futures (cancel_waiting s exc)) (entry_obj u)
        = FutException exc)
  /\ (forall f, fut_done (futures s) f = true ->
        futures (cancel_waiting s exc) !! f = futures s !! f)
  /\ (forall f, f ∉ map entry_obj (_waiters s) ->
        futures (cancel_waiting s exc) !! f = futures s !! f)
  /\ all_done (futures (cancel_waiting s exc)) (_waiters s)
  /\ _wake_up_next (cancel_waiting s exc) = (false, cancel_waiting s exc)
  /\ forall exc', cancel_waiting (cancel_waiting s exc) exc' = cancel_waiting s exc.
Proof.
  pose proof (cancel_each_all_done exc (_waiters s) (futures s)) as Hd.
  split; [reflexivity|]. split; [apply same_queue_with_futures|].
  split; [|split; [|split; [|split; [|split]]]].
  - intros u Hu Hp. unfold fut_state_of. simpl.
    rewrite (cancel_each_pending exc _ _ u Hu); [reflexivity|].
    apply fut_done_pending, Hp.
  - intros f Hf. simpl. apply cancel_each_keeps_done, Hf.
  - intros f Hf. simpl. apply cancel_each_outside, Hf.
  - exact Hd.
  - apply wake_up_next_false, first_not_done_None. exact Hd.
  - intros exc'. unfold cancel_waiting at 1. simpl _waiters.
    rewrite cancel_each_all_done_id by exact Hd. apply with_futures_same.
Qed.

Lemma top_up_all_done s : all_done (futures s) (_waiters s) -> top_up s = s.
Proof.
  intros Hd. rewrite top_up_grant, grant_in_order_all_done by exact Hd.
  apply granted_0.
Qed.

(** A queued waiter that is not cancelled resumes with what its future
    holds: after a grant [acquire] returns, after an exception it raises
    that exception; either way the waiter leaves the queue, the counter
    gets no increment, and the closing loop grants in queue order while
    the counter is positive. *)
Theorem uncancelled_resume s obj :
  obj ∈ _waiters s ->
  exists a1 a2,
    _waiters s = a1 ++ obj :: a2 /\ (obj ∉ a1)
    /\ (fut_state_of (futures s) (entry_obj obj) = FutResult ->
        acquire_resume s obj false
        = Some (Return tt, after_resume s (a1 ++ a2) (_value s)))
    /\ (forall e, e <> CancelledError ->
        fut_state_of (futures s) (entry_obj obj) = FutException e ->
        acquire_resume s obj false
        = Some (Raise e, after_resume s (a1 ++ a2) (_value s)))
    /\ (fut_state_of (futures s) (entry_obj obj) = FutPending ->
        forall mc, acquire_resume s obj mc = None).
Proof.
  intros Hin.
  destruct (list_remove_Some (_waiters s) obj Hin) as (a1 & a2 & Hws & Hr & Hn).
  exists a1, a2. split; [exact Hws|]. split; [exact Hn|].
  split; [|split].
  - intros Hst. unfold acquire_resume. rewrite Hst, Hr. simpl.
    rewrite top_up_after_resume'. reflexivity.
  - intros e He Hst. unfold acquire_resume. rewrite Hst, Hr. simpl.
    destruct e; try congruence; rewrite top_up_after_resume'; reflexivity.
  - intros Hst mc. unfold acquire_resume. rewrite Hst. reflexivity.
Qed.

Lemma uncancelled_resume_witness :
  (0, 1, 0%nat) ∈ _waiters (the_sem late_arrival)
  /\ exists a1 a2,
       _waiters (the_sem late_arrival) = a1 ++ (0, 1, 0%nat) :: a2
       /\ acquire_resume (the_sem late_arrival) (0, 1, 0%nat) false
          = Some (Return tt, after_resume (the_sem late_arrival) (a1 ++ a2) 1).
Proof.
  assert (Hin : (0, 1, 0%nat) ∈ _waiters (the_sem late_arrival))
    by apply list_elem_of_here.
  split; [exact Hin|].
  destruct (uncancelled_resume (the_sem late_arrival) (0, 1, 0%nat) Hin)
    as (a1 & a2 & Hws & _ & H & _).
  exists a1, a2. split; [exact Hws|]. apply H. reflexivity.
Defined.

(** One failed waiter resumes where the closing loop has nothing to do. *)
Lemma failed_resume_quiet s exc obj :
  exc <> CancelledError -> obj ∈ _waiters s ->
  fut_state_of (futures s) (entry_obj obj) = FutException exc ->
  all_done (futures s) (_waiters s) ->
  exists a1 a2,
    _waiters s = a1 ++ obj :: a2
    /\ acquire_resume s obj false = Some (Raise exc, with_waiters s (a1 ++ a2))
    /\ all_done (futures s) (a1 ++ a2).
Proof.
  intros Hexc Hin Hst Hd.
  destruct (list_remove_Some (_waiters s) obj Hin) as (a1 & a2 & Hws & Hr & _).
  assert (Hd' : all_done (futures s) (a1 ++ a2)).
  { unfold all_done in *. rewrite Hws in Hd.
    rewrite Forall_app in *. destruct Hd as [H1 H2].
    inversion H2; subst. split; assumption. }
  exists a1, a2. split; [exact Hws|]. split; [|exact Hd'].
  unfold acquire_resume. rewrite Hst, Hr. simpl.
  rewrite top_up_all_done.
  - destruct exc; try congruence; reflexivity.
  - destruct exc; try congruence; exact Hd'.
Qed.

Lemma resume_each_failed exc : forall objs s,
  exc <> CancelledError -> NoDup objs ->
  all_done (futures s) (_waiters s) ->
  (forall obj, obj ∈ objs ->
     obj ∈ _waiters s
     /\ fut_state_of (futures s) (entry_obj obj) = FutException exc) ->
  exists ws,
    resume_each s objs
    = Some (replicate (length objs) (Raise exc), with_waiters s ws)
    /\ (length ws + length objs = length (_waiters s))%nat
    /\ (forall y, y ∈ ws -> y ∈ _waiters s)
    /\ (forall y, y ∈ _waiters s -> y ∉ objs -> y ∈ ws).
Proof.
  induction objs as [|obj objs IH]; intros s Hexc Hnd Hd Hall.
  - exists (_waiters s). simpl. split; [destruct s; reflexivity|].
    split; [lia|]. auto.
  - apply NoDup_cons in Hnd as [Hnotin Hnd].
    destruct (Hall obj (list_elem_of_here _ _)) as [Hin Hst].
    destruct (failed_resume_quiet s exc obj Hexc Hin Hst Hd)
      as (a1 & a2 & Hws & Hres & Hd').
    cbn [resume_each]. rewrite Hres.
    destruct (IH (with_waiters s (a1 ++ a2)) Hexc Hnd Hd') as (ws & Hrun & Hlen & Hsub & Hsup).
    { intros o Ho. destruct (Hall o (list_elem_of_further _ _ _ Ho)) as [Hino Hsto].
      split; [|exact Hsto]. cbn [_waiters with_waiters].
      rewrite Hws in Hino. apply elem_of_app in Hino as [H|H];
        [apply elem_of_app; auto|].
      apply elem_of_cons in H as [->|H]; [contradiction|].
      apply elem_of_app; auto. }
    exists ws. rewrite Hrun. cbn [_waiters with_waiters] in *.
    split; [reflexivity|]. split; [|split].
    + rewrite Hws. rewrite !length_app in *. simpl. lia.
    + intros y Hy. apply Hsub in Hy. rewrite Hws.
      apply elem_of_app in Hy as [H|H]; apply elem_of_app; auto.
      right. apply list_elem_of_further, H.
    + intros y Hy Hn. apply Hsup.
      * rewrite Hws in Hy. apply elem_of_app in Hy as [H|H];
          [apply elem_of_app; auto|].
        apply elem_of_cons in H as [->|H].
        -- exfalso. apply Hn, list_elem_of_here.
        -- apply elem_of_app; auto.
      * intros H. apply Hn, list_elem_of_further, H.
Qed.

(** After [cancel_waiting(exc)], [exc] not being a [CancelledError], let
    waiters it failed resume, in any order, before anything else is done
    to the semaphore and without their tasks being cancelled: each
    [acquire] raises [exc], and all they do to the semaphore is leave the
    queue.  The counter, the maximum and every future stay as
    [cancel_waiting] left them: no permit is granted or given back. *)
Theorem failed_waiters_raise_and_leave s exc objs :
  exc <> CancelledError -> NoDup objs ->
  (forall obj, obj ∈ objs -> obj ∈ _waiters s /\ pending s obj) ->
  exists ws,
    resume_each (cancel_waiting s exc) objs
    = Some (replicate (length objs) (Raise exc),
            with_waiters (cancel_waiting s exc) ws)
    /\ (length ws + length objs = length (_waiters s))%nat
    /\ (forall y, y ∈ ws -> y ∈ _waiters s)
    /\ (forall y, y ∈ _waiters s -> y ∉ objs -> y ∈ ws).
Proof.
  intros Hexc Hnd Hall.
  apply (resume_each_failed exc objs (cancel_waiting s exc) Hexc Hnd).
  - apply cancel_each_all_done.
  - intros obj Ho. destruct (Hall obj Ho) as [Hin Hp]. split; [exact Hin|].
    unfold fut_state_of. simpl.
    rewrite (cancel_each_pending exc _ _ obj Hin); [reflexivity|].
    apply fut_done_pending, Hp.
Qed.

Lemma failed_waiters_raise_and_leave_witness :
  UserError 0 <> CancelledError
  /\ NoDup [(-5, 2, 1%nat); (-10, 3, 2%nat)]
  /\ (forall obj, obj ∈ [(-5, 2, 1%nat); (-10, 3, 2%nat)] ->
        obj ∈ _waiters (the_sem three_waiters)
        /\ pending (the_sem three_waiters) obj)
  /\ exists ws,
       resume_each (cancel_waiting (the_sem three_waiters) (UserError 0))
         [(-5, 2, 1%nat); (-10, 3, 2%nat)]
       = Some ([Raise (UserError 0); Raise (UserError 0)],
               with_waiters (cancel_waiting (the_sem three_waiters) (UserError 0)) ws)
       /\ (length ws + 2 = 3)%nat.
Proof.
  assert (He : UserError 0 <> CancelledError) by discriminate.
  assert (Hnd : NoDup [(-5, 2, 1%nat); (-10, 3, 2%nat)]).
  { apply NoDup_cons. split; [|apply NoDup_singleton].
    intros H. apply list_elem_of_singleton in H. discriminate. }
  assert (Hall : forall obj, obj ∈ [(-5, 2, 1%nat); (-10, 3, 2%nat)] ->
            obj ∈ _waiters (the_sem three_waiters)
            /\ pending (the_sem three_waiters) obj).
  { intros obj Ho. apply elem_of_cons in Ho as [->|Ho];
      [|apply list_elem_of_singleton in Ho as ->].
    - split; [|reflexivity]. simpl. apply elem_of_cons. right.
      apply elem_of_cons. right. apply list_elem_of_here.
    - split; [|reflexivity]. apply list_elem_of_here. }
  split; [exact He|]. split; [exact Hnd|]. split; [exact Hall|].
  destruct (failed_waiters_raise_and_leave (the_sem three_waiters) (UserError 0)
              _ He Hnd Hall) as (ws & Hrun & Hlen & _).
  exists ws. split; [exact Hrun | exact Hlen].
Defined.

(** ** Binding to an event loop *)

Lemma acquire_enter_loop s running priority l :
  _loop s = Some l -> _loop (acquire_enter s running priority).2 = Some l.
Proof.
  intros Hl. unfold acquire_enter. destruct (locked s); simpl; [|exact Hl].
  unfold _get_loop. simpl. rewrite Hl. simpl.
  destruct (l =? running)%nat; simpl; [|reflexivity].
  destruct (insort_right _ _); reflexivity.
Qed.

Lemma step_keeps_loop w ev w' l :
  step w ev = Some w' -> _loop (the_sem w) = Some l -> _loop (the_sem w') = Some l.
Proof.
  intros Hstep Hl. destruct ev; simpl in Hstep.
  - pose proof (acquire_enter_loop (the_sem w) running priority l Hl) as H.
    destruct (acquire_enter (the_sem w) running priority) as [[] s'];
      injection Hstep as <-; exact H.
  - destruct (is_waiting _ _); [|discriminate].
    destruct (acquire_resume _ _ _) as [[r s']|] eqn:Er; [|discriminate].
    assert (Hm : _loop s' = _loop (the_sem w)).
    { revert Er. unfold acquire_resume.
      destruct (await_outcome _ _) as [raised|]; [|discriminate].
      destruct (list_remove obj (_waiters (the_sem w))) as [ws|]; intros [= _ <-];
        match goal with |- _loop (top_up ?t) = _ =>
          destruct (top_up_same_queue t) as (_ & _ & _ & -> & _) end.
      - destruct raised as [[]|]; simpl; try reflexivity.
        destruct (_ && _); reflexivity.
      - reflexivity. }
    destruct r; injection Hstep as <-; simpl; congruence.
  - destruct (is_waiting _ _); [|discriminate].
    destruct (fut_done _ _); injection Hstep as <-; simpl; auto.
  - pose proof (release_same_queue (the_sem w)) as (_ & _ & _ & Hm & _).
    destruct (release (the_sem w)) as [[] s']; injection Hstep as <-; simpl in *;
      congruence.
  - injection Hstep as <-. simpl. unfold set_max_value.
    destruct (new_value <? 0); simpl; [exact Hl|].
    match goal with |- _loop (wake_up_to ?n ?t) = _ =>
      destruct (wake_up_to_same_queue n t) as (_ & _ & _ & -> & _) end.
    exact Hl.
  - injection Hstep as <-. exact Hl.
Qed.

(** Once the semaphore is bound to an event loop it stays bound to it
    through every operation, and from then on only a caller on that loop
    can queue a waiter: on any other loop an [acquire] that would have to
    wait raises [RuntimeError]. *)
Theorem loop_binding_is_permanent w evs w' l :
  run w evs = Some w' -> _loop (the_sem w) = Some l ->
  _loop (the_sem w') = Some l
  /\ forall running priority,
       (forall obj, (acquire_enter (the_sem w') running priority).1 = Suspended obj ->
                    running = l)
       /\ (running <> l -> locked (the_sem w') = true ->
           (acquire_enter (the_sem w') running priority).1 = Failed RuntimeError).
Proof.
  intros Hrun Hl.
  assert (Hl' : _loop (the_sem w') = Some l).
  { revert w Hrun Hl. induction evs as [|ev evs IH]; simpl; intros w Hrun Hl.
    - injection Hrun as <-. exact Hl.
    - destruct (step w ev) as [w1|] eqn:Es; [|discriminate].
      apply (IH w1 Hrun). eapply step_keeps_loop; eauto. }
  split; [exact Hl'|]. intros running priority.
  unfold acquire_enter, _get_loop. simpl. rewrite Hl'. simpl.
  destruct (locked (the_sem w')); simpl.
  - destruct (Nat.eqb_spec l running) as [->|Hne]; simpl.
    + split; [reflexivity | congruence].
    + split; [discriminate | reflexivity].
  - split; [discriminate | intros; discriminate].
Qed.

Lemma loop_binding_is_permanent_witness :
  run three_waiters [Release] = Some bound_then_released
  /\ _loop (the_sem three_waiters) = Some 0%nat
  /\ _loop (the_sem bound_then_released) = Some 0%nat
  /\ (1%nat <> 0%nat -> locked (the_sem bound_then_released) = true ->
      (acquire_enter (the_sem bound_then_released) 1 0).1 = Failed RuntimeError).
Proof.
  assert (Hrun : run three_waiters [Release] = Some bound_then_released)
    by (vm_compute; reflexivity).
  assert (Hl : _loop (the_sem three_waiters) = Some 0%nat) by reflexivity.
  split; [exact Hrun|]. split; [exact Hl|].
  destruct (loop_binding_is_permanent _ _ _ _ Hrun Hl) as [H1 H2].
  split; [exact H1|]. apply (H2 1%nat 0).
Defined.

End SemaphoreInvariants.

(** * More facts about the reschedulable timeout *)

Module TimeoutMore.
Import Timeout TimeoutFacts.

Implicit Types (t : timeout) (hs : list timer_handle) (x y : timer_handle)
  (h i j : nat) (now delay : Z).

Lemma step_reachable t ev t' : reachable t -> step t ev = Some t' -> reachable t'.
Proof.
  intros [evs Hrun] Hs. exists (evs ++ [ev]).
  revert Hrun. generalize init. induction evs as [|e evs IH]; simpl; intros t0 Hrun.
  - injection Hrun as ->. rewrite Hs. reflexivity.
  - destruct (step t0 e) as [t1|]; [|discriminate]. apply IH, Hrun.
Qed.

Lemma fire_dead t h now :
  others_dead (handles t) None -> fire t h now = None.
Proof.
  intros Hd. unfold fire. destruct (handles t !! h) as [x|] eqn:Ex; [|reflexivity].
  rewrite (Hd h x Ex); [reflexivity | discriminate].
Qed.

(** ** [cancel] *)

(** After [cancel()] on a reachable timeout no timer is armed and none of
    the loop's handles can fire any more, so the callback is not called
    however long the loop runs; the deadline and the record of past calls
    stay, and a second [cancel()] changes nothing. *)
Theorem cancel_silences t :
  reachable t ->
  _timer (cancel t) = None
  /\ calls (cancel t) = calls t
  /\ _when (cancel t) = _when t
  /\ (forall h now, fire (cancel t) h now = None)
  /\ (forall fuel now, run_loop fuel (cancel t) now = (cancel t, now))
  /\ cancel (cancel t) = cancel t.
Proof.
  intros Hr. pose proof (reachable_armed_ok t Hr) as Hok.
  pose proof (cancel_armed_ok t Hok) as [Hd _].
  assert (Et : _timer (cancel t) = None).
  { unfold cancel. destruct (_timer t) eqn:E; [reflexivity | exact E]. }
  rewrite Et in Hd.
  split; [exact Et|].
  split; [unfold cancel; destruct (_timer t); reflexivity|].
  split; [unfold cancel; destruct (_timer t); reflexivity|].
  split; [|split].
  - intros h now. apply fire_dead, Hd.
  - intros fuel now. destruct fuel; simpl; [reflexivity|].
    unfold next_due. rewrite next_due_from_none by exact Hd. reflexivity.
  - unfold cancel at 1. rewrite Et. reflexivity.
Qed.

Lemma cancel_silences_witness :
  reachable armed_5s_wants_11s
  /\ (forall fuel now,
        run_loop fuel (cancel armed_5s_wants_11s) now
        = (cancel armed_5s_wants_11s, now)).
Proof.
  assert (Hr : reachable armed_5s_wants_11s)
    by (exists scenario_5s_then_10s; reflexivity).
  split; [exact Hr|].
  destruct (cancel_silences armed_5s_wants_11s Hr) as (_ & _ & _ & _ & H & _).
  exact H.
Defined.

(** ** [reschedule] *)

Lemma reschedule_armed t now delay :
  exists h, _timer (reschedule t now delay) = Some h.
Proof.
  unfold reschedule. simpl. destruct (_timer t) as [h|] eqn:Et.
  - destruct (now + delay <? handle_when h (handles t)).
    + eexists. reflexivity.
    + exists h. reflexivity.
  - eexists. reflexivity.
Qed.

Lemma reschedule_fields t now delay :
  _when (reschedule t now delay) = now + delay
  /\ calls (reschedule t now delay) = calls t.
Proof.
  unfold reschedule. simpl. destruct (_timer t) as [h|].
  - destruct (now + delay <? handle_when h (handles t)); auto.
  - auto.
Qed.

(** An armed timeout in a state that satisfies the invariant, left alone
    from [now]. *)
Lemma run_loop_armed t h now fuel :
  armed_ok t -> _timer t = Some h -> (2 <= fuel)%nat ->
  calls (run_loop fuel t now).1 = calls t ++ [Z.max now (_when t)]
  /\ _timer (run_loop fuel t now).1 = None
  /\ next_due (run_loop fuel t now).1 = None.
Proof.
  intros Hok Et Hfuel.
  destruct fuel as [|[|fuel]]; try lia.
  destruct (next_due_armed t h Hok Et) as (x & Hx & Hl & Hw & Hn).
  cbn [run_loop]. rewrite Hn.
  set (now1 := Z.max now (h_when x)).
  destruct (fire t h now1) as [t1|] eqn:Ef.
  2:{ rewrite (fire_eq t h now1 x Hx Hl) in Ef. discriminate. }
  destruct (fire_cases t h now1 t1 Hok Ef) as (_ & Hok1 & Hw1 & Hearly & Hdue).
  destruct (Z.lt_ge_cases now1 (_when t)) as [Hlt|Hge].
  - destruct (Hearly Hlt) as (Hc1 & h1 & x1 & Et1 & Hx1 & Hwx1 & Hl1).
    destruct (next_due_armed t1 h1 Hok1 Et1) as (x1' & Hx1' & _ & _ & Hn1).
    rewrite Hx1 in Hx1'. injection Hx1' as <-.
    rewrite Hn1, Hwx1.
    set (now2 := Z.max now1 (_when t)).
    destruct (fire t1 h1 now2) as [t2|] eqn:Ef2.
    2:{ rewrite (fire_eq t1 h1 now2 x1 Hx1 Hl1) in Ef2. discriminate. }
    destruct (fire_cases t1 h1 now2 t2 Hok1 Ef2) as (_ & Hok2 & Hw2 & _ & Hdue2).
    destruct Hdue2 as [Et2 Hc2]; [subst now2; lia|].
    pose proof (next_due_idle t2 Hok2 Et2) as Hn2.
    assert (Hend : run_loop fuel t2 now2 = (t2, now2))
      by (destruct fuel; simpl; rewrite ?Hn2; reflexivity).
    rewrite Hend. simpl. rewrite Hc2, Hc1. repeat split; auto.
    f_equal. f_equal. subst now2 now1. lia.
  - destruct (Hdue Hge) as [Et1 Hc1].
    pose proof (next_due_idle t1 Hok1 Et1) as Hn1.
    cbn [run_loop]. rewrite Hn1. simpl. rewrite Hc1. repeat split; auto.
    f_equal. f_equal. subst now1. lia.
Qed.

(** Whatever timer a reachable timeout had armed, after
    [reschedule(delay)] at clock reading [now] with a non-negative delay
    the loop, left alone, calls the callback exactly once, at
    [now + delay], and is idle afterwards.  No new platform timer is
    created when the armed one is due no later than the new deadline;
    otherwise exactly one is. *)
Theorem reschedule_sets_next_callback t now delay fuel :
  reachable t -> 0 <= delay -> (2 <= fuel)%nat ->
  calls (run_loop fuel (reschedule t now delay) now).1 = calls t ++ [now + delay]
  /\ _timer (run_loop fuel (reschedule t now delay) now).1 = None
  /\ next_due (run_loop fuel (reschedule t now delay) now).1 = None
  /\ (forall h, _timer t = Some h -> handle_when h (handles t) <= now + delay ->
        handles (reschedule t now delay) = handles t
        /\ _timer (reschedule t now delay) = Some h)
  /\ (_timer t = None
      \/ (exists h, _timer t = Some h /\ now + delay < handle_when h (handles t)) ->
      length (handles (reschedule t now delay)) = S (length (handles t))).
Proof.
  intros Hr Hd Hfuel.
  pose proof (reschedule_armed_ok t now delay (reachable_armed_ok t Hr)) as Hok.
  destruct (reschedule_armed t now delay) as [h Eh].
  destruct (reschedule_fields t now delay) as [Hw Hc].
  destruct (run_loop_armed _ h now fuel Hok Eh Hfuel) as (H1 & H2 & H3).
  rewrite Hw, Hc in H1. replace (Z.max now (now + delay)) with (now + delay) in H1 by lia.
  split; [exact H1|]. split; [exact H2|]. split; [exact H3|]. split.
  - intros h' Et Hle. unfold reschedule. simpl. rewrite Et.
    destruct (Z.ltb_spec (now + delay) (handle_when h' (handles t))); [lia|].
    simpl. auto.
  - intros [Et|(h' & Et & Hlt)]; unfold reschedule; simpl; rewrite Et.
    + unfold _reschedule. simpl. rewrite ?Et, length_app. simpl. lia.
    + destruct (Z.ltb_spec (now + delay) (handle_when h' (handles t))); [|lia].
      unfold _reschedule. simpl. rewrite ?Et, length_app.
      unfold handle_cancel. rewrite length_alter. simpl. lia.
Qed.

Lemma reschedule_sets_next_callback_witness :
  reachable armed_5s_wants_11s /\ 0 <= 20
  /\ calls (run_loop 2 (reschedule armed_5s_wants_11s 3 20) 3).1 = [23]
  /\ handles (reschedule armed_5s_wants_11s 3 20) = handles armed_5s_wants_11s.
Proof.
  assert (Hr : reachable armed_5s_wants_11s)
    by (exists scenario_5s_then_10s; reflexivity).
  split; [exact Hr|]. split; [lia|].
  destruct (reschedule_sets_next_callback armed_5s_wants_11s 3 20 2 Hr
              ltac:(lia) ltac:(lia)) as (H1 & _ & _ & H4 & _).
  split; [exact H1|]. apply (H4 0%nat); [reflexivity | unfold handle_when; simpl; lia].
Defined.

End TimeoutMore.

(** * More facts about the debouncer *)

Module DebouncerMore.
Import Debouncer DebouncerFacts.

Implicit Types (d : debouncer) (q : list entry) (m : gmap nat Z)
  (x y : entry) (obj : nat) (time : Z).

(** ** Cleaning twice *)

Lemma unexpired_unexpired now1 now2 q :
  unexpired now2 (unexpired now1 q) = unexpired (Z.max now1 now2) q.
Proof.
  unfold unexpired. induction q as [|y q IH]; simpl; [reflexivity|].
  destruct (Z.leb_spec now1 (- entry_neg y)); simpl;
    destruct (Z.leb_spec now2 (- entry_neg y));
    destruct (Z.leb_spec (Z.max now1 now2) (- entry_neg y));
    try lia; rewrite IH; reflexivity.
Qed.

Lemma unexpired_times_unexpired now1 now2 m :
  unexpired_times now2 (unexpired_times now1 m)
  = unexpired_times (Z.max now1 now2) m.
Proof.
  unfold unexpired_times. rewrite map_filter_filter.
  apply map_filter_ext. intros i t _. simpl. lia.
Qed.

(** On a consistent debouncer, [clean] at [now1] followed by [clean] at
    [now2] is [clean] at the later of the two; in particular a second
    [clean] at the same or an earlier clock reading changes nothing. *)
Theorem clean_twice d time1 time2 now1 now2 :
  consistent d ->
  clean (clean d time1 (Some now1)).2 time2 (Some now2)
  = clean d time2 (Some (Z.max now1 now2))
  /\ (now2 <= now1 ->
      clean (clean d time1 (Some now1)).2 time2 (Some now2)
      = clean d time1 (Some now1)).
Proof.
  intros Hc.
  assert (H : clean (clean d time1 (Some now1)).2 time2 (Some now2)
              = clean d time2 (Some (Z.max now1 now2))).
  { rewrite (clean_eq d time1 (Some now1) Hc). cbn [snd default].
    rewrite clean_eq by (apply consistent_unexpired, Hc).
    rewrite (clean_eq d time2 _ Hc). cbn [_times _queue _last_time _dedup_counter default].
    rewrite unexpired_unexpired, unexpired_times_unexpired. reflexivity. }
  split; [exact H|]. intros Hle. rewrite H.
  rewrite !clean_eq by exact Hc. cbn [default].
  replace (Z.max now1 now2) with now1 by lia. reflexivity.
Qed.

Lemma two_tracked_consistent : consistent two_tracked.
Proof.
  unfold consistent, two_tracked. simpl. split; [|split].
  - repeat constructor; unfold key_lt, entry_neg; simpl; lia.
  - repeat constructor; rewrite ?elem_of_cons; try (intros [|H]; [discriminate|inversion H]).
    inversion 1.
  - intros obj t. rewrite !lookup_insert_Some, lookup_empty. split.
    + intros [[<- <-]|[_ [[<- <-]|[_ ?]]]]; [| |discriminate].
      * exists 2. apply list_elem_of_here.
      * exists 1. apply elem_of_cons. right. apply list_elem_of_here.
    + intros (c & Hin). apply elem_of_cons in Hin as [Hin|Hin].
      * injection Hin as ? ? ?. left. split; [congruence | lia].
      * apply list_elem_of_singleton in Hin. injection Hin as ? ? ?.
        right. split; [congruence|]. left. split; [congruence | lia].
Qed.

Lemma clean_twice_witness :
  consistent two_tracked
  /\ clean (clean two_tracked 0 (Some 5)).2 0 (Some 3)
     = clean two_tracked 0 (Some 5).
Proof.
  split; [exact two_tracked_consistent|].
  apply (clean_twice two_tracked 0 0 5 3 two_tracked_consistent). lia.
Defined.

(** ** The window does not slide *)

(** On a consistent debouncer, [filter] for an object that is tracked
    with an expiry of the clock reading or later returns true and leaves
    the object's expiry and its queue entry as they were, whatever
    [expire_in] it is called with: repeated calls do not prolong the
    time an object stays filtered. *)
Theorem filter_keeps_expiry d time obj t expire_in :
  consistent d -> _times d !! obj = Some t -> time <= t ->
  (filter d time obj expire_in).1 = Return true
  /\ _times (filter d time obj expire_in).2 !! obj = Some t
  /\ (forall c, (- t, c, obj) ∈ _queue d
                <-> (- t, c, obj) ∈ _queue (filter d time obj expire_in).2)
  /\ consistent (filter d time obj expire_in).2.
Proof.
  intros Hc Ht Hle.
  assert (Hl : unexpired_times time (_times d) !! obj = Some t).
  { unfold unexpired_times. apply map_lookup_filter_Some. auto. }
  rewrite (filter_eq d time obj expire_in Hc). cbn zeta.
  rewrite bool_decide_true by (rewrite Hl; eauto). cbn [fst snd _times _queue].
  split; [reflexivity|]. split; [exact Hl|]. split.
  - intros c. rewrite elem_of_unexpired. unfold entry_neg. simpl.
    split; [intros H; split; [exact H | lia] | tauto].
  - apply (consistent_counters
             {| _times := unexpired_times time (_times d);
                _queue := unexpired time (_queue d);
                _last_time := _last_time d; _dedup_counter := _dedup_counter d |}).
    apply consistent_unexpired, Hc.
Qed.

Lemma filter_keeps_expiry_witness :
  consistent two_tracked /\ _times two_tracked !! 2%nat = Some 10 /\ 5 <= 10
  /\ (filter two_tracked 5 2 100).1 = Return true
  /\ _times (filter two_tracked 5 2 100).2 !! 2%nat = Some 10.
Proof.
  assert (Ht : _times two_tracked !! 2%nat = Some 10) by reflexivity.
  split; [exact two_tracked_consistent|]. split; [exact Ht|]. split; [lia|].
  destruct (filter_keeps_expiry two_tracked 5 2 10 100 two_tracked_consistent Ht
              ltac:(lia)) as (H1 & H2 & _).
  split; [exact H1 | exact H2].
Defined.

(** ** The tracked count *)

Lemma consistent_size q : forall d,
  _queue d = q -> consistent d -> length q = size (_times d).
Proof.
  induction q as [|x q IH] using rev_ind; intros d Hq Hc.
  - destruct Hc as (_ & _ & Ht). rewrite Hq in Ht. simpl.
    symmetry. apply map_size_empty_iff, map_empty. intros obj.
    destruct (_times d !! obj) as [t|] eqn:E; [|reflexivity].
    apply Ht in E as (c & Hin). inversion Hin.
  - destruct (consistent_pop d q x Hc Hq) as (Hx & Hc').
    apply IH in Hc'; [|reflexivity]. rename Hc' into IH'. simpl in IH'.
    rewrite length_app. simpl.
    rewrite map_size_delete_Some in IH' by eauto.
    assert (0 < size (_times d))%nat.
    { destruct (decide (size (_times d) = O)) as [E|]; [|lia].
      apply map_size_empty_iff in E. rewrite E, lookup_empty in Hx. discriminate. }
    lia.
Qed.

(** On a consistent debouncer the queue has one entry for each tracked
    object, so the count that [__repr__] shows is the number of objects
    in [_times]. *)
Theorem repr_counts_tracked d :
  consistent d ->
  length (_queue d) = size (_times d)
  /\ __repr__ d = "<Debouncer [tracked:" +:+ pretty (size (_times d)) +:+ "]>".
Proof.
  intros Hc. pose proof (consistent_size (_queue d) d eq_refl Hc) as H.
  split; [exact H|]. unfold __repr__. rewrite H. reflexivity.
Qed.

Lemma repr_counts_tracked_witness :
  consistent two_tracked
  /\ __repr__ two_tracked = "<Debouncer [tracked:2]>".
Proof.
  split; [exact two_tracked_consistent|].
  destruct (repr_counts_tracked two_tracked two_tracked_consistent) as [_ ->].
  reflexivity.
Defined.

(** ** When [filter] raises *)

Lemma consistent_half d : consistent d -> half_consistent d.
Proof.
  intros (Hs & Hnd & Ht). split; [exact Hs|]. split; [exact Hnd|].
  intros [[a c] o] Hy. apply Ht. exists c.
  unfold entry_neg. simpl. rewrite Z.opp_involutive. exact Hy.
Qed.

Lemma queued_is_tracked d y :
  half_consistent d -> y ∈ _queue d -> is_Some (_times d !! entry_obj y).
Proof. intros (_ & _ & Ht) Hy. rewrite (Ht y Hy). eauto. Qed.

(** For payloads without an order, the ones [tuple_lt] describes: a
    call of [filter] on a consistent debouncer either returns and leaves
    the debouncer consistent, or raises [TypeError]; it raises exactly
    when [obj] is not tracked and an unexpired entry has the expiry and
    the counter of the new entry, and then [obj] is left in [_times]
    without an entry in the queue.  (Payloads that can be ordered are
    compared instead, and the entry is inserted.) *)
Theorem filter_returns_or_sticks d time obj expire_in :
  consistent d ->
  let new := (- (time + expire_in), dedup_counter_after d time, obj) in
  ((exists b, (filter d time obj expire_in).1 = Return b)
   /\ consistent (filter d time obj expire_in).2
   /\ (is_Some (unexpired_times time (_times d) !! obj)
       \/ forall y, y ∈ unexpired time (_queue d) -> ~ same_prefix new y))
  \/ ((filter d time obj expire_in).1 = Raise TypeError
      /\ stuck obj (filter d time obj expire_in).2
      /\ unexpired_times time (_times d) !! obj = None
      /\ exists y, y ∈ unexpired time (_queue d) /\ same_prefix new y).
Proof.
  intros Hc new.
  pose proof (consistent_unexpired d time Hc) as Hcu.
  pose proof (consistent_half _ Hcu) as (Hsq & Hndq & Htq).
  cbn [_times _queue] in Hsq, Hndq, Htq.
  destruct (unexpired_times time (_times d) !! obj) as [t|] eqn:El.
  - left. rewrite (filter_eq d time obj expire_in Hc). cbn zeta.
    rewrite El, bool_decide_true by eauto. cbn [fst snd].
    split; [eauto|]. split; [|left; eauto].
    apply (consistent_counters _ _ _ Hcu).
  - assert (Hobj : forall y, y ∈ unexpired time (_queue d) -> entry_obj y <> obj).
    { intros y Hy Heq. rewrite <- Heq, (Htq y Hy) in El. discriminate. }
    destruct (insort_right_outcome (unexpired time (_queue d)) new Hsq Hobj)
      as [(q' & Hins & Hfresh)|(Hins & Hex)].
    + left.
      destruct (filter_records d time obj expire_in Hc El Hfresh)
        as (q'' & -> & _ & _ & Hc'). cbn [fst snd].
      split; [eauto|]. split; [exact Hc' | right; exact Hfresh].
    + right. rewrite (filter_eq d time obj expire_in Hc). cbn zeta.
      rewrite El, bool_decide_false by (apply is_Some_None).
      fold new. rewrite Hins. cbn [fst snd].
      split; [reflexivity|]. split; [|split; [reflexivity | exact Hex]].
      split; [|split].
      * split; [exact Hsq|]. split; [exact Hndq|]. cbn [_times _queue].
        intros y Hy. rewrite lookup_insert_ne by (intros Heq; eapply Hobj; eauto).
        apply Htq, Hy.
      * cbn [_times]. rewrite lookup_insert_eq. eauto.
      * exact Hobj.
Qed.

Lemma filter_returns_or_sticks_witness :
  consistent (filter init 1 7 3).2
  /\ (filter (filter init 1 7 3).2 2 8 2).1 = Raise TypeError
  /\ stuck 8 (filter (filter init 1 7 3).2 2 8 2).2.
Proof.
  assert (Hc : consistent (filter init 1 7 3).2).
  { destruct (filter_returns_or_sticks init 1 7 3 init_consistent)
      as [(_ & H & _)|(H & _)]; [exact H|].
    vm_compute in H. discriminate. }
  split; [exact Hc|].
  destruct (filter_returns_or_sticks (filter init 1 7 3).2 2 8 2 Hc)
    as [((b & H) & _)|(H1 & H2 & _)].
  - vm_compute in H. discriminate.
  - split; [exact H1 | exact H2].
Defined.

(** ** An object left behind by a raising [filter] is never cleaned *)

Lemma half_consistent_pop d q x :
  half_consistent d -> _queue d = q ++ [x] ->
  half_consistent {| _times := delete (entry_obj x) (_times d); _queue := q;
                     _last_time := _last_time d;
                     _dedup_counter := _dedup_counter d |}.
Proof.
  intros (Hs & Hnd & Ht) Hq. rewrite Hq in *.
  rewrite map_app in Hnd. apply NoDup_app in Hnd as (Hnd1 & Hnd2 & _).
  split; [eapply StronglySorted_app_1_l, Hs|]. split; [exact Hnd1|].
  cbn [_times _queue]. intros y Hy. rewrite lookup_delete_ne.
  - apply Ht. apply elem_of_app. auto.
  - intros Heq. apply (Hnd2 (entry_obj y)).
    + apply (list_elem_of_fmap_2 entry_obj _ _ Hy).
    + rewrite <- Heq. simpl. apply list_elem_of_here.
Qed.

Lemma clean_loop_half : forall fuel d now,
  half_consistent d -> (length (_queue d) <= fuel)%nat ->
  exists m',
    clean_loop fuel d now =
      (Return tt,
       {| _times := m'; _queue := unexpired now (_queue d);
          _last_time := _last_time d; _dedup_counter := _dedup_counter d |})
    /\ half_consistent {| _times := m'; _queue := unexpired now (_queue d);
                          _last_time := _last_time d;
                          _dedup_counter := _dedup_counter d |}
    /\ (forall o, (forall y, y ∈ _queue d -> entry_obj y <> o) ->
                  m' !! o = _times d !! o).
Proof.
  induction fuel as [|fuel IH]; intros d now Hc Hlen.
  - destruct d as [m q lt dc]. simpl in *.
    destruct q; [|simpl in Hlen; lia]. exists m. simpl. auto.
  - cbn [clean_loop]. destruct (last (_queue d)) as [x|] eqn:El.
    + apply last_Some in El as [q Hq].
      destruct (Z.ltb_spec (- entry_neg x) now) as [Hlt|Hge].
      * pose proof Hc as (_ & _ & Ht).
        cbv zeta. cbn [_times _queue _last_time _dedup_counter].
        rewrite (Ht x).
        2:{ rewrite Hq. apply elem_of_app. right. apply list_elem_of_here. }
        replace (removelast (_queue d)) with q
          by (rewrite Hq, removelast_last; reflexivity).
        pose proof (half_consistent_pop d q x Hc Hq) as Hc'.
        destruct (IH _ now Hc') as (m' & Hcl & Hh & Hout).
        { simpl. rewrite Hq, length_app in Hlen. simpl in Hlen. lia. }
        rewrite Hcl. rewrite Hq.
        cbn [_times _queue _last_time _dedup_counter] in *.
        assert (Hu : unexpired now (q ++ [x]) = unexpired now q).
        { rewrite unexpired_app. simpl.
          destruct (Z.leb_spec now (- entry_neg x)); [lia|]. apply app_nil_r. }
        exists m'. rewrite Hu. split; [reflexivity|]. split; [exact Hh|].
        intros o Ho. rewrite Hout.
        -- apply lookup_delete_ne. intros Heq. apply (Ho x); [|exact Heq].
           apply elem_of_app. right. apply list_elem_of_here.
        -- intros y Hy. apply Ho. apply elem_of_app. auto.
      * assert (Hu : unexpired now (_queue d) = _queue d).
        { apply unexpired_all. intros y Hy. destruct Hc as (Hs & _).
          rewrite Hq in Hs, Hy. apply elem_of_app in Hy as [Hy|Hy].
          - pose proof (sorted_snoc_expiry q x y Hs Hy). lia.
          - apply list_elem_of_singleton in Hy. subst y. lia. }
        exists (_times d). rewrite Hu. destruct d as [m q0 lt dc]. simpl in *.
        auto.
    + apply last_None in El. exists (_times d).
      destruct d as [m q lt dc]. simpl in *. subst q. simpl. auto.
Qed.

Lemma NoDup_map_inj q x y :
  NoDup (map entry_obj q) -> x ∈ q -> y ∈ q -> entry_obj x = entry_obj y ->
  x = y.
Proof.
  induction q as [|w q IH]; intros Hnd Hx Hy Hxy; [inversion Hx|].
  simpl in Hnd. apply NoDup_cons in Hnd as [Hw Hnd].
  apply elem_of_cons in Hx as [->|Hx]; apply elem_of_cons in Hy as [->|Hy]; auto.
  - exfalso. apply Hw. rewrite Hxy.
    apply (list_elem_of_fmap_2 entry_obj _ _ Hy).
  - exfalso. apply Hw. rewrite <- Hxy.
    apply (list_elem_of_fmap_2 entry_obj _ _ Hx).
Qed.

Lemma stuck_cleaned obj d now m' :
  stuck obj d ->
  half_consistent {| _times := m'; _queue := unexpired now (_queue d);
                     _last_time := _last_time d;
                     _dedup_counter := _dedup_counter d |} ->
  (forall o, (forall y, y ∈ _queue d -> entry_obj y <> o) ->
             m' !! o = _times d !! o) ->
  forall lt dc,
    stuck obj {| _times := m'; _queue := unexpired now (_queue d);
                 _last_time := lt; _dedup_counter := dc |}
    /\ is_Some (m' !! obj).
Proof.
  intros (_ & Hsome & Hq) Hh Hout lt dc.
  assert (Hm : is_Some (m' !! obj)) by (rewrite Hout; auto).
  split; [|exact Hm]. split; [exact Hh|]. split; [exact Hm|].
  cbn [_queue]. intros y Hy. apply Hq. apply elem_of_unexpired in Hy. tauto.
Qed.

(** Once [obj] is in [_times] without a queue entry it stays so through
    every later call, whatever the clock reading and whatever the call
    returns or raises: [clean] returns and keeps it, [is_filtered] answers
    true for it, [filter] returns true for it, and [filter] for any other
    object leaves it in place.  So the object is filtered for good. *)
Theorem stuck_forever obj d time :
  stuck obj d ->
  (forall now, (clean d time now).1 = Return tt /\ stuck obj (clean d time now).2)
  /\ (forall now, (is_filtered d time obj now).1 = Return true
                  /\ stuck obj (is_filtered d time obj now).2)
  /\ (forall expire_in, (filter d time obj expire_in).1 = Return true
                        /\ stuck obj (filter d time obj expire_in).2)
  /\ (forall obj2 expire_in, stuck obj (filter d time obj2 expire_in).2).
Proof.
  intros Hst. pose proof Hst as (Hh & _ & _).
  assert (Hclean : forall (dd : debouncer) now,
            _times dd = _times d -> _queue dd = _queue d ->
            exists m',
              clean dd time now
              = (Return tt,
                 {| _times := m';
                    _queue := unexpired (default time now) (_queue d);
                    _last_time := _last_time dd;
                    _dedup_counter := _dedup_counter dd |})
              /\ half_consistent
                   {| _times := m';
                      _queue := unexpired (default time now) (_queue d);
                      _last_time := _last_time d;
                      _dedup_counter := _dedup_counter d |}
              /\ (forall o, (forall y, y ∈ _queue d -> entry_obj y <> o) ->
                            m' !! o = _times d !! o)).
  { intros dd now Et Eq.
    assert (Hdd : half_consistent dd).
    { unfold half_consistent. rewrite Et, Eq. exact Hh. }
    destruct (clean_loop_half (length (_queue dd)) dd (default time now) Hdd)
      as (m' & Hcl & Hh' & Hout); [lia|].
    exists m'. unfold clean. rewrite Hcl, Eq, Et in *.
    split; [reflexivity|]. split; [exact Hh' | exact Hout]. }
  split; [|split; [|split]].
  - intros now. destruct (Hclean d now eq_refl eq_refl) as (m' & -> & Hh' & Hout).
    split; [reflexivity|]. apply (stuck_cleaned obj d _ m' Hst Hh' Hout).
  - intros now. unfold is_filtered.
    destruct (Hclean d (Some (default time now)) eq_refl eq_refl)
      as (m' & -> & Hh' & Hout). cbn [fst snd _times default] in *.
    destruct (stuck_cleaned obj d _ m' Hst Hh' Hout (_last_time d) (_dedup_counter d))
      as [Hs' Hm]. rewrite bool_decide_true by exact Hm. auto.
  - intros expire_in. unfold filter, is_filtered.
    match goal with |- context [clean ?dd time (Some ?n)] =>
      destruct (Hclean dd (Some n)) as (m' & -> & Hh' & Hout);
        [destruct (_last_time d <? time); reflexivity
        |destruct (_last_time d <? time); reflexivity|] end.
    cbn [fst snd _times default] in *.
    match goal with |- context [stuck obj (_, {| _last_time := ?lt; _dedup_counter := ?dc |}).2] =>
      idtac | _ => idtac end.
    pose proof (fun lt dc => stuck_cleaned obj d _ m' Hst Hh' Hout lt dc) as Hs'.
    destruct (Hs' 0 0) as [_ Hm].
    rewrite bool_decide_true by exact Hm. cbn [fst snd].
    split; [reflexivity | apply Hs'].
  - intros obj2 expire_in. unfold filter, is_filtered.
    match goal with |- context [clean ?dd time (Some ?n)] =>
      destruct (Hclean dd (Some n)) as (m' & -> & Hh' & Hout);
        [destruct (_last_time d <? time); reflexivity
        |destruct (_last_time d <? time); reflexivity|] end.
    cbn [fst snd _times _queue _last_time _dedup_counter default] in *.
    pose proof (fun lt dc => stuck_cleaned obj d _ m' Hst Hh' Hout lt dc) as Hs'.
    destruct (Hs' 0 0) as [(_ & _ & Hq') Hm]. cbn [_queue] in Hq'.
    destruct (bool_decide (is_Some (m' !! obj2))) eqn:Eb; [apply Hs'|].
    apply bool_decide_eq_false in Eb.
    assert (Hne : obj2 <> obj) by (intros ->; auto).
    assert (Hobj2 : forall y, y ∈ unexpired time (_queue d) -> entry_obj y <> obj2).
    { intros y Hy Heq. apply Eb. rewrite <- Heq.
      apply (queued_is_tracked _ y Hh'). exact Hy. }
    destruct Hh' as (Hsq & Hndq & Htq). cbn [_times _queue] in Hsq, Hndq, Htq.
    match goal with |- context [insort_right ?q ?x] =>
      destruct (insort_right_outcome q x Hsq Hobj2) as [(q' & Hins & Hfresh)|(Hins & _)];
        rewrite Hins end; cbn [snd].
    + match goal with H : insort_right ?q ?x = Return q' |- _ =>
        destruct (insort_right_sorted q x Hsq Hfresh) as (q'' & Hins' & Hsq' & Hin) end.
      rewrite Hins in Hins'. injection Hins' as <-.
      split; [|split].
      * split; [exact Hsq'|]. split.
        -- apply NoDup_fmap_2_strong; [|apply sorted_NoDup, Hsq'].
           intros u v Hu Hv Huv. apply Hin in Hu, Hv.
           destruct Hu as [->|Hu], Hv as [->|Hv]; auto.
           ++ exfalso. apply (Hobj2 v Hv). rewrite <- Huv. reflexivity.
           ++ exfalso. apply (Hobj2 u Hu). rewrite Huv. reflexivity.
           ++ apply (NoDup_map_inj _ _ _ Hndq Hu Hv Huv).
        -- cbn [_times _queue]. intros y Hy. apply Hin in Hy as [->|Hy].
           ++ unfold entry_obj, entry_neg. simpl. rewrite lookup_insert_eq.
              f_equal. lia.
           ++ rewrite lookup_insert_ne by (intros Heq; eapply Hobj2; eauto).
              apply Htq, Hy.
      * cbn [_times]. rewrite lookup_insert_ne by exact Hne. exact Hm.
      * cbn [_queue]. intros y Hy. apply Hin in Hy as [->|Hy]; [exact Hne | auto].
    + split; [|split].
      * split; [exact Hsq|]. split; [exact Hndq|]. cbn [_times _queue].
        intros y Hy. rewrite lookup_insert_ne by (intros Heq; eapply Hobj2; eauto).
        apply Htq, Hy.
      * cbn [_times]. rewrite lookup_insert_ne by exact Hne. exact Hm.
      * exact Hq'.
Qed.

Lemma raised_filter_leaves_stuck :
  stuck 8 (filter (filter init 1 7 3).2 2 8 2).2.
Proof.
  assert (E : (filter (filter init 1 7 3).2 2 8 2).2
              = {| _times := <[8%nat := 4]> (<[7%nat := 4]> ∅);
                   _queue := [(-4, 1, 7%nat)];
                   _last_time := 2; _dedup_counter := 1 |})
    by (vm_compute; reflexivity).
  rewrite E. split; [split; [|split]|split]; cbn [_times _queue].
  - repeat constructor.
  - simpl. apply NoDup_singleton.
  - intros y Hy. apply list_elem_of_singleton in Hy. subst y.
    vm_compute. reflexivity.
  - exists 4. vm_compute. reflexivity.
  - intros y Hy. apply list_elem_of_singleton in Hy. subst y.
    unfold entry_obj. simpl. lia.
Qed.

Lemma stuck_forever_witness :
  stuck 8 (filter (filter init 1 7 3).2 2 8 2).2
  /\ (is_filtered (filter (filter init 1 7 3).2 2 8 2).2 1000 8 None).1
     = Return true
  /\ (filter (filter (filter init 1 7 3).2 2 8 2).2 1000 8 5).1 = Return true.
Proof.
  split; [exact raised_filter_leaves_stuck|].
  destruct (stuck_forever 8 _ 1000 raised_filter_leaves_stuck)
    as (_ & H2 & H3 & _).
  split; [apply H2 | apply H3].
Defined.

End DebouncerMore.
